(** * Isobenefit land map: a shallow embedding of [isobenefit/land_map.py]

    The module keeps a land-use grid ([state_arr]: -1 out of bounds,
    0 nature, 1 built, 2 centre), a frontier array ([green_itx_arr]:
    0 off, 1 active, 2 deactivated) and two accessibility surfaces.

    Modelling conventions.
    - A two-dimensional numpy array is a shape with a cell function; every
      index the module uses on such an array is bounds-checked by the module
      itself (it comes from [np.ndindex] or from [_iter_nbs]).
    - Integer cells and integer parameters are [Z].
    - Surface cells are floating-point numbers in the source.  They are
      modelled by rationals and [+], [-], [/] are taken exactly; [np.hypot]
      returns the binary64 number nearest to the square root.
    - The functions compiled with [@njit] raise [ZeroDivisionError] on a
      division by zero; exceptions are modelled by the [result] type.
    - Random draws come from two generators: numpy's process-wide one
      (seeded by [Land.__init__], drawn by [iter_land_isobenefit]) and the
      generator of the compiled code (drawn by [_random_density]), which
      [np.random.seed] called from interpreted code does not seed. *)

From Stdlib Require Import String ZArith QArith Qabs Qround List FinFun Bool Lia Lqa.
Import ListNotations.
Open Scope Z_scope.

Set Implicit Arguments.

(** ** Exceptions *)

Inductive exn : Type :=
| ValueError          (* raised by the extents check of [Land.__init__] *)
| ZeroDivisionError   (* a division with a zero divisor in compiled code *)
| IndexError.         (* an array index out of range *)

Inductive result (A : Type) : Type :=
| Ok (a : A)
| Raise (e : exn).
Arguments Ok {A} a.
Arguments Raise {A} e.

Definition bind {A B} (m : result A) (k : A -> result B) : result B :=
  match m with
  | Ok a => k a
  | Raise e => Raise e
  end.

Declare Scope result_scope.
Delimit Scope result_scope with result.
Notation "x <- m ;; k" := (bind m (fun x => k))
  (at level 61, m at next level, right associativity) : result_scope.
Notation "' p <- m ;; k" := (bind m (fun x => match x with p => k end))
  (at level 61, p pattern, m at next level, right associativity) : result_scope.
Open Scope result_scope.

(** A [for] loop whose body may raise. *)
Fixpoint for_each {S X} (body : S -> X -> result S) (s : S) (xs : list X)
  : result S :=
  match xs with
  | [] => Ok s
  | x :: rest => s' <- body s x ;; for_each body s' rest
  end.

(** ** Numbers *)

Definition Qlt_bool (a b : Q) : bool := negb (Qle_bool b a).

(** True division of compiled code. *)
Definition true_div (a b : Q) : result Q :=
  if Qeq_bool b 0 then Raise ZeroDivisionError else Ok (a / b)%Q.

(** The binary64 number nearest to the square root of [n], ties to even. *)
Definition sqrt_binary64 (n : Z) : Q :=
  if n <=? 0 then 0%Q
  else
    let e := 52 - Z.log2 n / 2 in
    if 0 <=? e then
      let N := n * 4 ^ e in
      let m := Z.sqrt N in
      let m' := if m <? N - m * m then m + 1 else m in
      Qmake m' (Z.to_pos (2 ^ e))
    else
      let s := - e in
      let m := Z.sqrt (n / 4 ^ s) in
      let t := (m * m + m) * 4 ^ s + 4 ^ (s - 1) in
      let m' := if t <? n then m + 1
                else if (t =? n) && Z.odd m then m + 1 else m in
      inject_Z (m' * 2 ^ s).

(** [np.hypot] on two integers. *)
Definition hypot (x y : Z) : Q := sqrt_binary64 (x * x + y * y).

(** ** Arrays *)

Record ndarray (A : Type) : Type := mk_ndarray {
  shape0 : Z;
  shape1 : Z;
  item : Z -> Z -> A
}.

Definition full {A} (shape : Z * Z) (v : A) : ndarray A :=
  mk_ndarray (fst shape) (snd shape) (fun _ _ => v).

Definition shape {A} (a : ndarray A) : Z * Z := (shape0 a, shape1 a).

Definition getitem {A} (a : ndarray A) (y x : Z) : A := item a y x.

Definition setitem {A} (a : ndarray A) (y x : Z) (v : A) : ndarray A :=
  mk_ndarray (shape0 a) (shape1 a)
    (fun y' x' => if (y' =? y) && (x' =? x) then v else item a y' x').

(** An array literal, row by row (used for concrete inputs). *)
Definition of_rows {A} (d : A) (rows : list (list A)) : ndarray A :=
  mk_ndarray (Z.of_nat (length rows))
             (Z.of_nat (length (hd [] rows)))
             (fun y x => if (y <? 0) || (x <? 0) then d
                         else nth (Z.to_nat x) (nth (Z.to_nat y) rows []) d).

(** [range(n)]. *)
Definition range (n : Z) : list Z := map Z.of_nat (seq 0 (Z.to_nat n)).

(** [np.ndindex(shape)]: all indices, row-major. *)
Definition ndindex_shape (s : Z * Z) : list (Z * Z) :=
  flat_map (fun y => map (fun x => (y, x)) (range (snd s))) (range (fst s)).

Definition ndindex {A} (a : ndarray A) : list (Z * Z) := ndindex_shape (shape a).

Definition to_rows {A} (a : ndarray A) : list (list A) :=
  map (fun y => map (fun x => item a y x) (range (shape1 a))) (range (shape0 a)).

Definition in_bounds {A} (a : ndarray A) (y x : Z) : Prop :=
  0 <= y < shape0 a /\ 0 <= x < shape1 a.

(** ** Accessibility surface *)

(** [_agg_access] *)
Definition _agg_access (y_idx x_idx : Z) (arr : ndarray Q)
    (granularity_m walk_dist_m : Z) (positive : bool) : result (ndarray Q) :=
  for_each (fun arr '(cy_idx, cx_idx) =>
      let y_dist := Z.abs (y_idx - cy_idx) * granularity_m in
      let x_dist := Z.abs (x_idx - cx_idx) * granularity_m in
      let dist := hypot x_dist y_dist in
      if Qlt_bool (inject_Z walk_dist_m) dist then Ok arr
      else
        q <- true_div dist (inject_Z walk_dist_m) ;;
        let val := (1 - q)%Q in
        if positive
        then Ok (setitem arr cy_idx cx_idx (getitem arr cy_idx cx_idx + val)%Q)
        else Ok (setitem arr cy_idx cx_idx (getitem arr cy_idx cx_idx - val)%Q))
    arr (ndindex arr).

(** [_inc_access] *)
Definition _inc_access y_idx x_idx arr granularity_m walk_dist_m :=
  _agg_access y_idx x_idx arr granularity_m walk_dist_m true.

(** [_decr_access] *)
Definition _decr_access y_idx x_idx arr granularity_m walk_dist_m :=
  _agg_access y_idx x_idx arr granularity_m walk_dist_m false.

(** [_compute_centres_access] *)
Definition _compute_centres_access (state_arr : ndarray Z)
    (granularity_m walk_dist_m : Z) : result (ndarray Q) :=
  for_each (fun cent_acc_arr '(sy_idx, sx_idx) =>
      if negb (getitem state_arr sy_idx sx_idx =? 2) then Ok cent_acc_arr
      else _inc_access sy_idx sx_idx cent_acc_arr granularity_m walk_dist_m)
    (full (shape state_arr) 0%Q) (ndindex state_arr).

(** ** Neighbourhoods *)

(** [_iter_nbs] *)
Definition _iter_nbs {A} (arr : ndarray A) (y_idx x_idx : Z) (rook : bool)
  : list (Z * Z) :=
  let y_offsets := if rook then [1; 0; -1; 0] else [1; 1; 1; 0; -1; -1; -1; 0] in
  let x_offsets := if rook then [0; 1; 0; -1] else [-1; 0; 1; 1; 1; 0; -1; -1] in
  flat_map (fun '(y_offset, x_offset) =>
      let y_nb_idx := y_idx + y_offset in
      if (y_nb_idx <? 0) || (shape0 arr <=? y_nb_idx) then []
      else
        let x_nb_idx := x_idx + x_offset in
        if (x_nb_idx <? 0) || (shape1 arr <=? x_nb_idx) then []
        else [(y_nb_idx, x_nb_idx)])
    (combine y_offsets x_offsets).

(** ** Green interface *)

(** The body of the scan of the rook neighbours in [_green_state]: a
    neighbour that is nature and not on the frontier yet is put on it. *)
Definition activate_nb (state_arr : ndarray Z) (granularity_m walk_dist_m : Z)
    (arrs : ndarray Z * ndarray Q) (nb : Z * Z) : result (ndarray Z * ndarray Q) :=
  let '(green_itx_arr, new_green_acc_arr) := arrs in
  let '(x_nb_idx, y_nb_idx) := nb in
  if (getitem state_arr x_nb_idx y_nb_idx =? 0)
     && (getitem green_itx_arr x_nb_idx y_nb_idx =? 0)
  then
    new <- _inc_access x_nb_idx y_nb_idx new_green_acc_arr granularity_m walk_dist_m ;;
    Ok (setitem green_itx_arr x_nb_idx y_nb_idx 1, new)
  else Ok (green_itx_arr, new_green_acc_arr).

(** The first two phases of [_green_state]: the frontier array after the
    in-place writes and the working copy of the green access surface. *)
Definition green_state_work (y_idx x_idx : Z) (state_arr green_itx_arr : ndarray Z)
    (old_green_acc_arr : ndarray Q) (granularity_m walk_dist_m : Z)
  : result (ndarray Z * ndarray Q) :=
  let new_green_acc_arr := old_green_acc_arr in
  '(green_itx_arr, new_green_acc_arr) <-
     (if getitem green_itx_arr y_idx x_idx =? 1 then
        new <- _decr_access y_idx x_idx new_green_acc_arr granularity_m walk_dist_m ;;
        Ok (setitem green_itx_arr y_idx x_idx 0, new)
      else Ok (green_itx_arr, new_green_acc_arr)) ;;
  for_each (activate_nb state_arr granularity_m walk_dist_m)
    (green_itx_arr, new_green_acc_arr)
    (_iter_nbs green_itx_arr y_idx x_idx true).

(** The last phase of [_green_state]: is some cell thrown out of green
    accessibility? *)
Definition strands (old_green_acc_arr new_green_acc_arr : ndarray Q) : bool :=
  let zero_idxs :=
    filter (fun '(zy, zx) =>
        Qlt_bool 0 (getitem old_green_acc_arr zy zx - getitem new_green_acc_arr zy zx))
      (ndindex old_green_acc_arr) in
  existsb (fun '(zero_y_idx, zero_x_idx) =>
      Qeq_bool (getitem new_green_acc_arr zero_y_idx zero_x_idx) 0
      && Qlt_bool 0 (getitem old_green_acc_arr zero_y_idx zero_x_idx))
    zero_idxs.

(** [_green_state] *)
Definition _green_state (y_idx x_idx : Z) (state_arr green_itx_arr : ndarray Z)
    (old_green_acc_arr : ndarray Q) (granularity_m walk_dist_m : Z)
  : result (bool * ndarray Z * ndarray Q) :=
  '(green_itx_arr, new_green_acc_arr) <-
     green_state_work y_idx x_idx state_arr green_itx_arr old_green_acc_arr
       granularity_m walk_dist_m ;;
  if strands old_green_acc_arr new_green_acc_arr
  then Ok (false, setitem green_itx_arr y_idx x_idx 2, old_green_acc_arr)
  else Ok (true, green_itx_arr, new_green_acc_arr).

(** [_compute_green_itx] *)
Definition _compute_green_itx (state_arr : ndarray Z) (granularity_m walk_dist_m : Z)
  : result (ndarray Z * ndarray Q) :=
  for_each (fun '(green_itx_arr, green_acc_arr) '(y_idx, x_idx) =>
      if getitem state_arr y_idx x_idx <? 1 then Ok (green_itx_arr, green_acc_arr)
      else
        '(_success, green_itx_arr, green_acc_arr) <-
           _green_state y_idx x_idx state_arr green_itx_arr green_acc_arr
             granularity_m walk_dist_m ;;
        Ok (green_itx_arr, green_acc_arr))
    (full (shape state_arr) 0, full (shape state_arr) 0%Q)
    (ndindex state_arr).

(** [_count_cont_nbs]: the loop that collects the lengths of the runs. *)
Fixpoint count_runs (circle : list Z) (run : Z) (adds : list Z) : list Z :=
  match circle with
  | [] => if 0 <? run then adds ++ [run] else adds
  | c :: rest =>
      if c =? 1 then count_runs rest (run + 1) adds
      else if 0 <? run then count_runs rest 0 (adds ++ [run])
      else count_runs rest run adds
  end.

Definition len {A} (l : list A) : Z := Z.of_nat (List.length l).

(** [max] of a list that is not empty. *)
Definition py_max (l : list Z) : Z :=
  match l with
  | [] => 0
  | a :: rest => fold_left Z.max rest a
  end.

(** The 0/1 ring that [_count_cont_nbs] builds round a cell. *)
Definition circle_of (state_arr : ndarray Z) (y_idx x_idx : Z)
    (target_vals : list Z) : list Z :=
  map (fun '(x_nb_idx, y_nb_idx) =>
      if existsb (Z.eqb (getitem state_arr x_nb_idx y_nb_idx)) target_vals
      then 1 else 0)
    (_iter_nbs state_arr y_idx x_idx false).

(** What [_count_cont_nbs] does with the ring. *)
Definition count_circle (circle : list Z) : Z * Z :=
  let adds := count_runs circle 0 [] in
  let adds :=
    if (1 <? len adds) && (len circle =? 8)
       && (nth 0 circle 0 =? 1) && (last circle 0 =? 1)
    then removelast ((hd 0 adds + last adds 0) :: tl adds)
    else adds in
  match adds with
  | [] => (0, 0)
  | _ => (py_max adds, len adds)
  end.

(** [_count_cont_nbs] *)
Definition _count_cont_nbs (state_arr : ndarray Z) (y_idx x_idx : Z)
    (target_vals : list Z) : Z * Z :=
  count_circle (circle_of state_arr y_idx x_idx target_vals).

(** ** Green spans *)

(** [range(start, stop)] and [range(start, -1, -1)]. *)
Definition py_range (start stop : Z) : list Z :=
  map (fun i => start + Z.of_nat i) (seq 0 (Z.to_nat (stop - start))).

Definition py_range_down (start : Z) : list Z :=
  map (fun i => start - Z.of_nat i) (seq 0 (Z.to_nat (start + 1))).

Fixpoint green_ray_loop (arr_1d : list Z) (idxs : list Z) (ray : Z) : Z :=
  match idxs with
  | [] => ray
  | ray_idx :: rest =>
      if ray_idx =? len arr_1d then ray
      else if negb (nth (Z.to_nat ray_idx) arr_1d 0 =? 0) then ray
      else green_ray_loop arr_1d rest (ray + 1)
  end.

(** [green_ray] *)
Definition green_ray (arr_1d : list Z) (start_idx : Z) (positive : bool) : Z :=
  let idxs := if positive then py_range (start_idx + 1) (len arr_1d)
              else py_range_down (start_idx - 1) in
  green_ray_loop arr_1d idxs 0.

(** The slices [arr[y_idx, :]] and [arr[:, x_idx]]. *)
Definition row_of {A} (arr : ndarray A) (y_idx : Z) : list A :=
  map (fun x => item arr y_idx x) (range (shape1 arr)).

Definition col_of {A} (arr : ndarray A) (x_idx : Z) : list A :=
  map (fun y => item arr y x_idx) (range (shape0 arr)).

(** [sorted] of a list of two: the smaller first. *)
Definition sorted2 (a b : Z) : Z * Z := if a <=? b then (a, b) else (b, a).

(** The four rays of a cell, paired per axis, each pair sorted. *)
Definition rays_of (arr : ndarray Z) (y_idx x_idx : Z) : (Z * Z) * (Z * Z) :=
  let x_ray_l := green_ray (row_of arr y_idx) x_idx false in
  let x_ray_r := green_ray (row_of arr y_idx) x_idx true in
  let x_rays := sorted2 x_ray_l x_ray_r in
  let y_ray_l := green_ray (col_of arr x_idx) y_idx false in
  let y_ray_r := green_ray (col_of arr x_idx) y_idx true in
  let y_rays := sorted2 y_ray_l y_ray_r in
  (x_rays, y_rays).

(** [ray < span_m / granularity_m] *)
Definition shorter_than (ray span_m granularity_m : Z) : result bool :=
  lim <- true_div (inject_Z span_m) (inject_Z granularity_m) ;;
  Ok (Qlt_bool (inject_Z ray) lim).

(** [green_rays] *)
Definition green_rays (arr : ndarray Z) (y_idx x_idx granularity_m
    min_long_green_span_m min_short_green_span_m : Z) : result bool :=
  let '(x_rays, y_rays) := rays_of arr y_idx x_idx in
  let xy_max := sorted2 (snd x_rays) (snd y_rays) in
  x_short <-
    (if negb (fst x_rays + snd x_rays =? 0) && negb (fst x_rays =? 0)
     then shorter_than (fst x_rays) min_short_green_span_m granularity_m
     else Ok false) ;;
  if x_short then Ok false else
  y_short <-
    (if negb (fst y_rays + snd y_rays =? 0) && negb (fst y_rays =? 0)
     then shorter_than (fst y_rays) min_short_green_span_m granularity_m
     else Ok false) ;;
  if y_short then Ok false else
  long_short <- shorter_than (snd xy_max) min_long_green_span_m granularity_m ;;
  if long_short then Ok false else
  second_short <- shorter_than (fst xy_max) min_short_green_span_m granularity_m ;;
  if second_short then Ok false else Ok true.

(** ** Random numbers *)

(** A generator: the sequence of numbers in [0, 1) that it yields and how
    many of them have been drawn. *)
Record rng : Type := mk_rng { draws : nat -> Q; drawn : nat }.

(** [np.random.rand()] *)
Definition rand (g : rng) : Q * rng :=
  (draws g (drawn g), mk_rng (draws g) (S (drawn g))).

(** [_random_density]; compiled code, so the draw is from its generator. *)
Definition _random_density (prob_distribution density_factors : Q * Q * Q)
    (g : rng) : Q * rng :=
  let '(p, g) := rand g in
  let '(pd0, pd1, pd2) := prob_distribution in
  let '(df0, df1, df2) := density_factors in
  if Qle_bool 0 p && Qlt_bool p pd0 then (df0, g)
  else if Qle_bool pd1 p && Qlt_bool p pd2 then (df1, g)
  else (df2, g).

(** ** The libraries the class calls *)

(** What [Land] takes from rasterio, shapely and numpy's generator. *)
Class Externals : Type := {
  (** [transform.Affine] *)
  Affine : Type;
  (** [transform.rowcol(trf, east, north)] *)
  rowcol : Affine -> Q -> Q -> Z * Z;
  (** a polygon *)
  Feat : Type;
  (** [features.shapes(state_arr, mask=state_arr == 0, connectivity=4,
      transform=trf)]: the polygons of the patches of nature *)
  shapes : ndarray Z -> Affine -> list Feat;
  (** [shape(feat).area] *)
  shape_area : Feat -> Q;
  (** [features.rasterize(shapes, out_shape, fill=-1, transform=trf,
      all_touched=True)] *)
  rasterize : list (Feat * Z) -> Z * Z -> Affine -> ndarray Z;
  (** the numbers [np.random.rand()] yields after [np.random.seed(s)] *)
  seeded : Z -> nat -> Q
}.

(** [int(q)]: truncation towards zero. *)
Definition py_int (q : Q) : Z := if Qle_bool 0 q then Qfloor q else Qceiling q.

(** The cast to [np.int16]. *)
Definition int16 (z : Z) : Z := (z + 32768) mod 65536 - 32768.

(** An index as numpy reads it: negative ones count from the end. *)
Definition norm_index (n i : Z) : result Z :=
  if (0 <=? i) && (i <? n) then Ok i
  else if (- n <=? i) && (i <? 0) then Ok (i + n)
  else Raise IndexError.

(** [arr[i, j] = v] with indices that nothing has checked. *)
Definition setitem_checked {A} (arr : ndarray A) (i j : Z) (v : A)
  : result (ndarray A) :=
  i' <- norm_index (shape0 arr) i ;;
  j' <- norm_index (shape1 arr) j ;;
  Ok (setitem arr i' j' v).

(** What the process holds besides the engine. *)
Record World : Type := mk_World {
  np_random : rng;                (* numpy's process-wide generator *)
  nb_random : rng;                (* the generator of the compiled code *)
  stdout : list (Z * Z);          (* what [print] wrote *)
  log : list (string * Z)         (* what [LOGGER.info] wrote *)
}.

(** What a call returns to its caller. *)
Inductive py_value : Type :=
| PyNone
| PyTuple (a b : Z).

Section LandClass.

Context {ext : Externals}.

(** [class Land] *)
Record Land : Type := mk_Land {
  iters : Z;
  granularity_m : Z;
  walk_dist_m : Z;
  trf : Affine;
  build_prob : Q;
  cent_prob_nb : Q;
  cent_prob_isol : Q;
  max_local_pop : Z;
  prob_distribution : Q * Q * Q;
  density_factors : Q * Q * Q;
  state_arr : ndarray Z;
  green_itx_arr : ndarray Z;
  density_arr : ndarray Q;
  cent_acc_arr : ndarray Q;
  green_acc_arr : ndarray Q;
  areas_arr : option (ndarray Z);
  min_green_km2 : Z;
  min_long_green_span_m : Z;
  min_short_green_span_m : Z
}.

(** The arguments of [Land.__init__]. *)
Record LandArgs : Type := mk_LandArgs {
  arg_granularity_m : Z;
  arg_walk_dist_m : Z;
  arg_extents_transform : Affine;
  arg_extents_arr : ndarray Z;
  arg_centre_seeds : list (Q * Q);
  arg_build_prob : Q;
  arg_cent_prob_nb : Q;
  arg_cent_prob_isol : Q;
  arg_max_local_pop : Z;
  arg_prob_distribution : Q * Q * Q;
  arg_density_factors : Q * Q * Q;
  arg_min_green_km2 : Z;
  arg_min_long_green_span_m : Z;
  arg_min_short_green_span_m : Z;
  arg_random_seed : Z
}.

(** [np.random.seed(s)], for a seed numpy accepts (an integer of
    [0, 2^32)); it replaces the state of the process-wide generator and
    leaves the generator of the compiled code alone. *)
Definition np_random_seed (s : Z) (w : World) : World :=
  mk_World (mk_rng (seeded s) 0) (nb_random w) (stdout w) (log w).

(** [Land.__init__] *)
Definition Land_init (a : LandArgs) (w : World) : result (Land * World) :=
  let w := np_random_seed (arg_random_seed a) w in
  let granularity_m := arg_granularity_m a in
  let walk_dist_m := arg_walk_dist_m a in
  let state_arr :=
    mk_ndarray (shape0 (arg_extents_arr a)) (shape1 (arg_extents_arr a))
      (fun y x => int16 (item (arg_extents_arr a) y x)) in
  let area := shape0 state_arr * granularity_m * shape1 state_arr * granularity_m in
  if Qlt_bool (inject_Z area / inject_Z (1000 * 1000))
              (inject_Z (2 * arg_min_green_km2 a))
  then Raise ValueError
  else
    state_arr <-
      for_each (fun state_arr '(east, north) =>
          let '(x, y) := rowcol (arg_extents_transform a) east north in
          setitem_checked state_arr x y 2)
        state_arr (arg_centre_seeds a) ;;
    '(green_itx_arr, green_acc_arr) <-
      _compute_green_itx state_arr granularity_m walk_dist_m ;;
    let density_arr := full (shape (arg_extents_arr a)) 0%Q in
    cent_acc_arr <- _compute_centres_access state_arr granularity_m walk_dist_m ;;
    Ok (mk_Land 0 granularity_m walk_dist_m (arg_extents_transform a)
          (arg_build_prob a) (arg_cent_prob_nb a) (arg_cent_prob_isol a)
          (arg_max_local_pop a) (arg_prob_distribution a) (arg_density_factors a)
          state_arr green_itx_arr density_arr cent_acc_arr green_acc_arr None
          (arg_min_green_km2 a) (arg_min_long_green_span_m a)
          (arg_min_short_green_span_m a),
        w).

(** Assignments to the attributes that change after construction. *)
Definition set_iters (L : Land) (v : Z) : Land :=
  mk_Land v (granularity_m L) (walk_dist_m L) (trf L) (build_prob L)
    (cent_prob_nb L) (cent_prob_isol L) (max_local_pop L) (prob_distribution L)
    (density_factors L) (state_arr L) (green_itx_arr L) (density_arr L)
    (cent_acc_arr L) (green_acc_arr L) (areas_arr L) (min_green_km2 L)
    (min_long_green_span_m L) (min_short_green_span_m L).

Definition set_areas_arr (L : Land) (v : option (ndarray Z)) : Land :=
  mk_Land (iters L) (granularity_m L) (walk_dist_m L) (trf L) (build_prob L)
    (cent_prob_nb L) (cent_prob_isol L) (max_local_pop L) (prob_distribution L)
    (density_factors L) (state_arr L) (green_itx_arr L) (density_arr L)
    (cent_acc_arr L) (green_acc_arr L) v (min_green_km2 L)
    (min_long_green_span_m L) (min_short_green_span_m L).

Definition set_state_arr (L : Land) (v : ndarray Z) : Land :=
  mk_Land (iters L) (granularity_m L) (walk_dist_m L) (trf L) (build_prob L)
    (cent_prob_nb L) (cent_prob_isol L) (max_local_pop L) (prob_distribution L)
    (density_factors L) v (green_itx_arr L) (density_arr L)
    (cent_acc_arr L) (green_acc_arr L) (areas_arr L) (min_green_km2 L)
    (min_long_green_span_m L) (min_short_green_span_m L).

Definition set_green (L : Land) (itx : ndarray Z) (acc : ndarray Q) : Land :=
  mk_Land (iters L) (granularity_m L) (walk_dist_m L) (trf L) (build_prob L)
    (cent_prob_nb L) (cent_prob_isol L) (max_local_pop L) (prob_distribution L)
    (density_factors L) (state_arr L) itx (density_arr L)
    (cent_acc_arr L) acc (areas_arr L) (min_green_km2 L)
    (min_long_green_span_m L) (min_short_green_span_m L).

Definition set_density_arr (L : Land) (v : ndarray Q) : Land :=
  mk_Land (iters L) (granularity_m L) (walk_dist_m L) (trf L) (build_prob L)
    (cent_prob_nb L) (cent_prob_isol L) (max_local_pop L) (prob_distribution L)
    (density_factors L) (state_arr L) (green_itx_arr L) v
    (cent_acc_arr L) (green_acc_arr L) (areas_arr L) (min_green_km2 L)
    (min_long_green_span_m L) (min_short_green_span_m L).

Definition set_cent_acc_arr (L : Land) (v : ndarray Q) : Land :=
  mk_Land (iters L) (granularity_m L) (walk_dist_m L) (trf L) (build_prob L)
    (cent_prob_nb L) (cent_prob_isol L) (max_local_pop L) (prob_distribution L)
    (density_factors L) (state_arr L) (green_itx_arr L) (density_arr L)
    v (green_acc_arr L) (areas_arr L) (min_green_km2 L)
    (min_long_green_span_m L) (min_short_green_span_m L).

(** Draws and output. *)
Definition np_rand (w : World) : Q * World :=
  let '(p, g) := rand (np_random w) in
  (p, mk_World g (nb_random w) (stdout w) (log w)).

Definition print (w : World) (y x : Z) : World :=
  mk_World (np_random w) (nb_random w) (stdout w ++ [(y, x)]) (log w).

Definition logger_info (w : World) (msg : string) (n : Z) : World :=
  mk_World (np_random w) (nb_random w) (stdout w) (log w ++ [(msg, n)]).

(** The local state of the scan of [iter_land_isobenefit]. *)
Record scan : Type := mk_scan {
  self : Land;
  world : World;
  added_blocks : Z;
  added_centrality : Z
}.

(** [self.density_arr[y_idx, x_idx] = _random_density(...)] *)
Definition set_random_density (L : Land) (w : World) (y_idx x_idx : Z)
  : Land * World :=
  let '(d, g) := _random_density (prob_distribution L) (density_factors L)
                   (nb_random w) in
  (set_density_arr L (setitem (density_arr L) y_idx x_idx d),
   mk_World (np_random w) g (stdout w) (log w)).

(** The update of the green state and, on success, the claim of the cell as
    built. *)
Definition claim_built (s : scan) (y_idx x_idx : Z) : result scan :=
  let L := self s in
  '(success, itx, acc) <-
    _green_state y_idx x_idx (state_arr L) (green_itx_arr L) (green_acc_arr L)
      (granularity_m L) (walk_dist_m L) ;;
  let L := set_green L itx acc in
  if success then
    let L := set_state_arr L (setitem (state_arr L) y_idx x_idx 1) in
    let '(L, w) := set_random_density L (world s) y_idx x_idx in
    Ok (mk_scan L w (added_blocks s + 1) (added_centrality s))
  else Ok (mk_scan L (world s) (added_blocks s) (added_centrality s)).

(** The same for a new centre (the source has this block twice). *)
Definition claim_centre (s : scan) (y_idx x_idx : Z) : result scan :=
  let L := self s in
  '(success, itx, acc) <-
    _green_state y_idx x_idx (state_arr L) (green_itx_arr L) (green_acc_arr L)
      (granularity_m L) (walk_dist_m L) ;;
  let L := set_green L itx acc in
  if success then
    let L := set_state_arr L (setitem (state_arr L) y_idx x_idx 2) in
    cent <- _inc_access y_idx x_idx (cent_acc_arr L) (granularity_m L)
              (walk_dist_m L) ;;
    let L := set_cent_acc_arr L cent in
    let '(L, w) := set_random_density L (world s) y_idx x_idx in
    Ok (mk_scan L w (added_blocks s) (added_centrality s + 1))
  else Ok (mk_scan L (world s) (added_blocks s) (added_centrality s)).

(** The body of the scan of [iter_land_isobenefit]. *)
Definition iter_cell (areas : ndarray Z) (cell_area : Z) (s : scan)
    (idx : Z * Z) : result scan :=
  let '(y_idx, x_idx) := idx in
  let L := self s in
  if getitem (green_itx_arr L) y_idx x_idx =? 1 then
    let area := getitem areas y_idx x_idx in
    if (cell_area <? area) && (area <? min_green_km2 L) then Ok s
    else
      spans <- green_rays (state_arr L) y_idx x_idx (granularity_m L)
                 (min_long_green_span_m L) (min_short_green_span_m L) ;;
      if negb spans then Ok s
      else
        let '(urban_nbs, urban_regions) :=
          _count_cont_nbs (state_arr L) y_idx x_idx [1; 2] in
        let '(green_nbs, green_regions) :=
          _count_cont_nbs (state_arr L) y_idx x_idx [0] in
        if Qlt_bool 0 (getitem (cent_acc_arr L) y_idx x_idx) then
          let '(p, w) := np_rand (world s) in
          if Qlt_bool p (build_prob L) then
            let w := if iters L =? 14 then print w y_idx x_idx else w in
            claim_built (mk_scan L w (added_blocks s) (added_centrality s))
              y_idx x_idx
          else Ok (mk_scan L w (added_blocks s) (added_centrality s))
        else
          let '(p, w) := np_rand (world s) in
          if Qlt_bool p (cent_prob_nb L) then
            claim_centre (mk_scan L w (added_blocks s) (added_centrality s))
              y_idx x_idx
          else Ok (mk_scan L w (added_blocks s) (added_centrality s))
  else if getitem (state_arr L) y_idx x_idx =? 0 then
    let '(p, w) := np_rand (world s) in
    if Qlt_bool p (cent_prob_isol L) then
      claim_centre (mk_scan L w (added_blocks s) (added_centrality s))
        y_idx x_idx
    else Ok (mk_scan L w (added_blocks s) (added_centrality s))
  else Ok s.

(** The scan itself, after the areas of the patches have been burnt in. *)
Definition iter_scan (L : Land) (w : World) : result scan :=
  let L := set_iters L (iters L + 1) in
  let feats := shapes (state_arr L) (trf L) in
  let out_feats :=
    map (fun feat => (feat, py_int (shape_area feat / inject_Z (1000 * 1000))))
      feats in
  let areas := rasterize out_feats (shape (state_arr L)) (trf L) in
  let L := set_areas_arr L (Some areas) in
  let cell_area := py_int ((inject_Z (granularity_m L) / 1000) ^ 2) in
  for_each (iter_cell areas cell_area) (mk_scan L w 0 0) (ndindex (state_arr L)).

(** [Land.iter_land_isobenefit]: the method ends after the two log lines. *)
Definition iter_land_isobenefit (L : Land) (w : World)
  : result (py_value * Land * World) :=
  s <- iter_scan L w ;;
  let w := logger_info (world s) "added blocks: " (added_blocks s) in
  let w := logger_info w "added centralities: " (added_centrality s) in
  Ok (PyNone, self s, w).

(** A number of growth steps in a row. *)
Fixpoint drive (n : nat) (L : Land) (w : World) : result (Land * World) :=
  match n with
  | O => Ok (L, w)
  | S n' =>
      '(_, L', w') <- iter_land_isobenefit L w ;;
      drive n' L' w'
  end.

End LandClass.

(** ** An instance of the libraries, for concrete runs *)

Module Concrete.

(** numpy's process-wide generator: MT19937, seeded from an integer by
    [mt19937_seed] and read 53 bits at a time. *)
Definition u32 (z : Z) : Z := z mod 2 ^ 32.

Fixpoint init_loop (n : nat) (i prev : Z) : list Z :=
  match n with
  | O => []
  | S n' =>
      let v := u32 (1812433253 * Z.lxor prev (Z.shiftr prev 30) + i) in
      v :: init_loop n' (i + 1) v
  end.

Definition mt19937_seed (s : Z) : list Z :=
  let s0 := u32 s in s0 :: init_loop 623 1 s0.

Definition twist_word (cur next far : Z) : Z :=
  let y := Z.lor (Z.land cur 0x80000000) (Z.land next 0x7fffffff) in
  Z.lxor (Z.lxor far (Z.shiftr y 1)) (if Z.odd y then 0x9908b0df else 0).

Fixpoint update (k : nat) (v : Z) (l : list Z) : list Z :=
  match l, k with
  | [], _ => []
  | _ :: r, O => v :: r
  | a :: r, S k' => a :: update k' v r
  end.

Fixpoint twist (n k : nat) (mt : list Z) : list Z :=
  match n with
  | O => mt
  | S n' =>
      let w := twist_word (nth k mt 0) (nth ((k + 1) mod 624) mt 0)
                 (nth ((k + 397) mod 624) mt 0) in
      twist n' (S k) (update k w mt)
  end.

Definition temper (y : Z) : Z :=
  let y := Z.lxor y (Z.shiftr y 11) in
  let y := Z.lxor y (Z.land (Z.shiftl y 7) 0x9d2c5680) in
  let y := Z.lxor y (Z.land (Z.shiftl y 15) 0xefc60000) in
  Z.lxor y (Z.shiftr y 18).

Fixpoint blocks (n : nat) (mt : list Z) : list Z :=
  match n with
  | O => mt
  | S n' => blocks n' (twist 624 0 mt)
  end.

Definition mt19937_next (s : Z) (n : nat) : Z :=
  temper (nth (n mod 624) (blocks (S (n / 624)) (mt19937_seed s)) 0).

Definition random_sample (s : Z) (i : nat) : Q :=
  let a := Z.shiftr (mt19937_next s (2 * i)) 5 in
  let b := Z.shiftr (mt19937_next s (2 * i + 1)) 6 in
  Qmake (a * 67108864 + b) (Z.to_pos (2 ^ 53)).

(** The patches of nature, 4-connected, in the order of their first cell. *)
Definition cell_eqb (a b : Z * Z) : bool :=
  (fst a =? fst b) && (snd a =? snd b).

Definition adjacent (a b : Z * Z) : bool :=
  Z.abs (fst a - fst b) + Z.abs (snd a - snd b) =? 1.

Fixpoint grow (fuel : nat) (st : ndarray Z) (patch : list (Z * Z))
  : list (Z * Z) :=
  match fuel with
  | O => patch
  | S fuel' =>
      grow fuel' st
        (patch ++
         filter (fun c => (getitem st (fst c) (snd c) =? 0)
                          && negb (existsb (cell_eqb c) patch)
                          && existsb (adjacent c) patch)
           (ndindex st))
  end.

Fixpoint patches (st : ndarray Z) (cells : list (Z * Z))
    (found : list (list (Z * Z))) : list (list (Z * Z)) :=
  match cells with
  | [] => found
  | c :: rest =>
      if (getitem st (fst c) (snd c) =? 0)
         && negb (existsb (existsb (cell_eqb c)) found)
      then patches st rest (found ++ [grow (List.length (ndindex st)) st [c]])
      else patches st rest found
  end.

Definition burn (arr : ndarray Z) (f : list (Z * Z) * Q * Z) : ndarray Z :=
  let '(cells, _, v) := f in
  fold_left (fun arr c => setitem arr (fst c) (snd c) v) cells arr.

(** A transform is the side of a square pixel in metres, with the origin at
    the corner of cell (0, 0); a polygon is a patch of pixels with the area
    of one pixel; a polygon is burnt into the pixels it is made of. *)
#[export] Instance numpy_rasterio : Externals := {|
  Affine := Q;
  rowcol := fun px east north => (Qfloor (north / px), Qfloor (east / px));
  Feat := list (Z * Z) * Q;
  shapes := fun st px => map (fun p => (p, px * px)%Q) (patches st (ndindex st) []);
  shape_area := fun f => (inject_Z (len (fst f)) * snd f)%Q;
  rasterize := fun fs shp _ => fold_left burn fs (full shp (-1));
  seeded := random_sample
|}.

End Concrete.


(** * What the statements are about *)

(** ** Spans *)

(** The rays of a cell: left, right, up, down. *)
Definition four_rays (arr : ndarray Z) (y_idx x_idx : Z) : Z * Z * Z * Z :=
  (green_ray (row_of arr y_idx) x_idx false,
   green_ray (row_of arr y_idx) x_idx true,
   green_ray (col_of arr x_idx) y_idx false,
   green_ray (col_of arr x_idx) y_idx true).

(** [k] cells of nature lie next to [start] in direction [dir] of a slice,
    and then comes the edge or a cell of another class. *)
Definition is_ray (arr_1d : list Z) (start dir k : Z) : Prop :=
  0 <= k
  /\ (forall i, 1 <= i <= k ->
        0 <= start + dir * i < len arr_1d
        /\ nth (Z.to_nat (start + dir * i)) arr_1d 0 = 0)
  /\ (~ 0 <= start + dir * (k + 1) < len arr_1d
      \/ nth (Z.to_nat (start + dir * (k + 1))) arr_1d 0 <> 0).

(** A ray of [ray] cells is shorter than a span given in metres. *)
Definition shorter (ray span_m granularity_m : Z) : Prop :=
  (inject_Z ray < inject_Z span_m / inject_Z granularity_m)%Q.

(** The smaller ray of an axis is there but shorter than the short span. *)
Definition pinched (a b min_short_m granularity_m : Z) : Prop :=
  Z.min a b <> 0 /\ shorter (Z.min a b) min_short_m granularity_m.

(** The rule of [green_rays]: the last clause takes the smaller of the two
    longest rays of the axes. *)
Definition span_rejected (rays : Z * Z * Z * Z)
    (granularity_m min_long_m min_short_m : Z) : Prop :=
  let '(l, r, u, d) := rays in
  pinched l r min_short_m granularity_m
  \/ pinched u d min_short_m granularity_m
  \/ shorter (Z.max (Z.max l r) (Z.max u d)) min_long_m granularity_m
  \/ shorter (Z.min (Z.max l r) (Z.max u d)) min_short_m granularity_m.

Fixpoint insert_desc (a : Z) (l : list Z) : list Z :=
  match l with
  | [] => [a]
  | b :: rest => if b <=? a then a :: l else b :: insert_desc a rest
  end.

Definition sort_desc (l : list Z) : list Z := fold_right insert_desc [] l.

(** The second largest of four rays. *)
Definition second_largest (rays : Z * Z * Z * Z) : Z :=
  let '(l, r, u, d) := rays in nth 1 (sort_desc [l; r; u; d]) 0.

(** The rule with the last clause on the second largest of the four rays. *)
Definition span_rejected_second_largest (rays : Z * Z * Z * Z)
    (granularity_m min_long_m min_short_m : Z) : Prop :=
  let '(l, r, u, d) := rays in
  pinched l r min_short_m granularity_m
  \/ pinched u d min_short_m granularity_m
  \/ shorter (Z.max (Z.max l r) (Z.max u d)) min_long_m granularity_m
  \/ shorter (second_largest rays) min_short_m granularity_m.

(** Nature on six cells to the right of and below the corner cell. *)
Definition grid_one_sided : ndarray Z := full (7, 7) 0.

(** One cell of nature on every side of the middle cell. *)
Definition grid_one_cell_each_side : ndarray Z := full (3, 3) 0.

(** Cell (0, 5): five cells of nature to the left, six to the right, one
    below and then a built cell. *)
Definition grid_long_row : ndarray Z :=
  of_rows 0 [[0; 0; 0; 0; 0; 0; 0; 0; 0; 0; 0; 0];
             [0; 0; 0; 0; 0; 0; 0; 0; 0; 0; 0; 0];
             [0; 0; 0; 0; 0; 1; 0; 0; 0; 0; 0; 0]].

(** ** Runs round a cell *)

(** The number of ones a sequence starts with. *)
Fixpoint lead_ones (l : list Z) : Z :=
  match l with
  | c :: rest => if c =? 1 then 1 + lead_ones rest else 0
  | [] => 0
  end.

(** The runs of ones of a sequence with two ends: a run starts at a one that
    does not follow a one. *)
Fixpoint runs_after (prev : Z) (l : list Z) : list Z :=
  match l with
  | [] => []
  | c :: rest =>
      (if (c =? 1) && negb (prev =? 1) then [lead_ones l] else [])
      ++ runs_after c rest
  end.

Definition linear_runs (l : list Z) : list Z := runs_after 0 l.

Definition rotate (i : nat) (l : list Z) : list Z := skipn i l ++ firstn i l.

(** The runs of ones of a ring: a run starts at a one whose predecessor
    round the ring is not a one; a ring of ones only is one run. *)
Definition circular_runs (l : list Z) : list Z :=
  if forallb (Z.eqb 1) l then
    match l with [] => [] | _ => [len l] end
  else
    flat_map (fun i =>
        let r := rotate i l in
        if (hd 0 r =? 1) && negb (last r 0 =? 1) then [lead_ones r] else [])
      (seq 0 (List.length l)).

(** The longest run and the number of runs. *)
Definition summary (runs : list Z) : Z * Z := (fold_right Z.max 0 runs, len runs).

(** The merge of the first and the last run whenever the sequence starts
    and ends with a one and has more than one run, whatever its length. *)
Definition merged_runs (l : list Z) : list Z :=
  let rs := linear_runs l in
  if (1 <? len rs) && (hd 0 l =? 1) && (last l 0 =? 1)
  then removelast ((hd 0 rs + last rs 0) :: tl rs)
  else rs.

(** All sequences of zeros and ones of a length. *)
Fixpoint all_rings (n : nat) : list (list Z) :=
  match n with
  | O => [[]]
  | S n' => flat_map (fun l => [0 :: l; 1 :: l]) (all_rings n')
  end.

Definition pair_eqb (a b : Z * Z) : bool :=
  (fst a =? fst b) && (snd a =? snd b).

Definition count_circle_agrees (l : list Z) : bool :=
  pair_eqb (count_circle l)
    (if len l =? 8 then summary (circular_runs l) else summary (linear_runs l)).

(** A corner cell whose two rook neighbours are built and whose diagonal
    neighbour is not. *)
Definition grid_corner : ndarray Z := of_rows 0 [[0; 1]; [1; 0]].

(** A cell whose eight neighbours are built. *)
Definition grid_ringed : ndarray Z := of_rows 0 [[1; 1; 1]; [1; 0; 1]; [1; 1; 1]].

(** Ring [1, 0, 0, 0, 0, 0, 0, 1] round the middle cell: the first ring
    position is the neighbour below on the left, the last one the neighbour
    on the left. *)
Definition grid_wrap : ndarray Z := of_rows 0 [[0; 0; 0]; [1; 0; 0]; [1; 0; 0]].

(** ** Surfaces *)

(** The distance in metres between two cells. *)
Definition distance (granularity_m : Z) (a b : Z * Z) : Q :=
  hypot (Z.abs (snd a - snd b) * granularity_m)
        (Z.abs (fst a - fst b) * granularity_m).

(** The contribution of a source cell to a cell: [1 - distance / walk
    radius] within the walking radius, nothing beyond it. *)
Definition triangular (granularity_m walk_dist_m : Z) (src cell : Z * Z) : Q :=
  if Qlt_bool (inject_Z walk_dist_m) (distance granularity_m src cell) then 0%Q
  else (1 - distance granularity_m src cell / inject_Z walk_dist_m)%Q.

(** The sum of the contributions to [cell] of the cells marked 1 in a
    frontier array. *)
Definition frontier_sum (green_itx_arr : ndarray Z)
    (granularity_m walk_dist_m : Z) (cell : Z * Z) : Q :=
  fold_right (fun src acc =>
      ((if getitem green_itx_arr (fst src) (snd src) =? 1
        then triangular granularity_m walk_dist_m src cell else 0) + acc)%Q)
    0%Q (ndindex green_itx_arr).

(** The green access surface is the sum of the contributions of the active
    frontier cells. *)
Definition green_consistent (green_itx_arr : ndarray Z) (green_acc_arr : ndarray Q)
    (granularity_m walk_dist_m : Z) : Prop :=
  shape green_acc_arr = shape green_itx_arr
  /\ forall cy cx, in_bounds green_acc_arr cy cx ->
       (getitem green_acc_arr cy cx
        == frontier_sum green_itx_arr granularity_m walk_dist_m (cy, cx))%Q.

(** A call leaves a computation without raising [e]. *)
Definition never {A} (e : exn) (r : result A) : Prop := r <> Raise e.

(** A division by the walking radius cannot raise when the radius is not 0. *)
Definition guarded (walk_dist_m : Z) (e : exn) : Prop :=
  e = ZeroDivisionError -> walk_dist_m <> 0.

(** ** Engines *)

(** The area of the extents in square kilometres. *)
Definition extents_area_km2 {ext : Externals} (a : LandArgs) : Q :=
  (inject_Z (shape0 (arg_extents_arr a) * arg_granularity_m a
             * shape1 (arg_extents_arr a) * arg_granularity_m a)
   / inject_Z (1000 * 1000))%Q.

(** A process in which nothing has been drawn or written yet. *)
Definition fresh_world : World :=
  mk_World (mk_rng (fun _ => 0%Q) 0) (mk_rng (fun _ => 0%Q) 0) [] [].

(** A strip of nature, one row of [cols] cells of 100 m, with pixels of
    100 m, no minimal green area and no minimal spans. *)
Definition strip_args (cols walk_dist_m : Z) (centre_seeds : list (Q * Q))
    (build_prob : Q) : @LandArgs Concrete.numpy_rasterio :=
  mk_LandArgs 100 walk_dist_m (100%Q : @Affine Concrete.numpy_rasterio)
    (full (1, cols) 0) centre_seeds
    build_prob 0%Q 0%Q 10000 ((7 # 10), (3 # 10), 0)%Q (1, (1 # 10), (1 # 100))%Q
    0 0 0 0.

(** Some cell lost its access to green space: its value went down, to
    exactly 0, from a positive value. *)
Definition stranded (old new : ndarray Q) : Prop :=
  exists cy cx,
    in_bounds old cy cx
    /\ (getitem new cy cx < getitem old cy cx)%Q
    /\ (getitem new cy cx == 0)%Q
    /\ (0 < getitem old cy cx)%Q.

(** The three cells of a strip with a centre at its left end, the frontier
    and the green access after construction with a walking radius of one
    cell. *)
Definition strip3_state : ndarray Z := of_rows 0 [[2; 0; 0]].
Definition strip3_itx : ndarray Z := of_rows 0 [[0; 1; 0]].
Definition strip3_acc : ndarray Q := of_rows 0%Q [[0; 1; 0]]%Q.

(** Every cell marked as active frontier is a cell of nature. *)
Definition frontier_is_nature (state_arr green_itx_arr : ndarray Z) : Prop :=
  forall cy cx, getitem green_itx_arr cy cx = 1 -> getitem state_arr cy cx = 0.

(** ** Growth steps *)

Section Steps.

Context {ext : Externals}.

(** The number of cells that were not of class [cls] before and are after. *)
Definition count_became (before after : ndarray Z) (cls : Z) : Z :=
  len (filter (fun c => negb (getitem before (fst c) (snd c) =? cls)
                        && (getitem after (fst c) (snd c) =? cls))
         (ndindex before)).

(** What the visit of cell (y, x) may do to the scan: the frontier still
    holds nature only, no other cell changes class, and the cell keeps its
    class or goes from nature to built or to centre, counted once. *)
Definition cell_visit (s s' : scan) (y x : Z) : Prop :=
  frontier_is_nature (state_arr (self s')) (green_itx_arr (self s'))
  /\ (shape0 (state_arr (self s')) = shape0 (state_arr (self s))
      /\ shape1 (state_arr (self s')) = shape1 (state_arr (self s)))
  /\ (forall cy cx, (cy, cx) <> (y, x) ->
        item (state_arr (self s')) cy cx = item (state_arr (self s)) cy cx)
  /\ ((item (state_arr (self s')) y x = item (state_arr (self s)) y x
       /\ added_blocks s' = added_blocks s
       /\ added_centrality s' = added_centrality s)
      \/ (item (state_arr (self s)) y x = 0
          /\ item (state_arr (self s')) y x = 1
          /\ added_blocks s' = added_blocks s + 1
          /\ added_centrality s' = added_centrality s)
      \/ (item (state_arr (self s)) y x = 0
          /\ item (state_arr (self s')) y x = 2
          /\ added_blocks s' = added_blocks s
          /\ added_centrality s' = added_centrality s + 1))
  /\ log (world s') = log (world s).

End Steps.

(** ** Runs *)

Section Runs.

Context {ext : Externals}.

(** An engine constructed and driven through [n] growth steps with nothing
    in between. *)
Definition engine_run (a : LandArgs) (n : nat) (w : World) : result (Land * World) :=
  '(L, w) <- Land_init a w ;;
  drive n L w.









Definition map_result {A B} (f : A -> B) (r : result A) : result B :=
  match r with
  | Ok a => Ok (f a)
  | Raise e => Raise e
  end.

End Runs.

(** The strip of four cells with a centre seeded on the first one and a
    walking radius of three cells. *)
Definition strip4_args (build_prob : Q) : @LandArgs Concrete.numpy_rasterio :=
  strip_args 4 300 [(50, 50)%Q] build_prob.

(** A process whose compiled code draws 9/10 every time. *)
Definition other_world : World :=
  mk_World (mk_rng (fun _ => 0%Q) 0) (mk_rng (fun _ => (9 # 10)%Q) 0) [] [].

(** A run ended without an exception. *)
Definition is_ok {A} (r : result A) : bool :=
  match r with
  | Ok _ => true
  | Raise _ => false
  end.

(** The construction of an engine and its first growth step. *)
Definition first_step {ext : Externals} (a : LandArgs) (w : World)
  : result (py_value * Land * World) :=
  '(L, w) <- Land_init a w ;;
  iter_land_isobenefit L w.

(** What a caller sees of a growth step: the value returned, the grid and
    the log. *)
Definition seen_of_step {ext : Externals} (r : result (py_value * Land * World))
  : result (py_value * list (list Z) * list (string * Z)) :=
  map_result (fun p => (fst (fst p), to_rows (state_arr (snd (fst p))), log (snd p))) r.


(** The densities at the end of a run. *)
Definition densities_of {ext : Externals} (r : result (Land * World))
  : result (list (list Q)) :=
  map_result (fun p => map (map Qred) (to_rows (density_arr (fst p)))) r.

(** * Further notions *)

(** ** Adjacency *)

(** Two cells share an edge. *)
Definition rook_adjacent (a b : Z * Z) : Prop :=
  Z.abs (fst a - fst b) + Z.abs (snd a - snd b) = 1.

(** Two cells share an edge or a corner. *)
Definition queen_adjacent (a b : Z * Z) : Prop :=
  Z.max (Z.abs (fst a - fst b)) (Z.abs (snd a - snd b)) = 1.

(** ** Reach *)

(** Some centre of the grid lies nearer to [cell] than the walking radius. *)
Definition centre_within (state_arr : ndarray Z) (granularity_m walk_dist_m : Z)
    (cell : Z * Z) : Prop :=
  exists sy sx,
    in_bounds state_arr sy sx
    /\ getitem state_arr sy sx = 2
    /\ (distance granularity_m (sy, sx) cell < inject_Z walk_dist_m)%Q.

(** Some cell of class 1 or more shares an edge with the cell. *)
Definition built_neighbour (state_arr : ndarray Z) (cy cx : Z) : Prop :=
  exists y x,
    in_bounds state_arr y x
    /\ 1 <= getitem state_arr y x
    /\ rook_adjacent (y, x) (cy, cx).

(** Some cell of nature shares an edge with the cell. *)
Definition nature_neighbour (state_arr : ndarray Z) (y x : Z) : Prop :=
  exists cy cx,
    in_bounds state_arr cy cx
    /\ getitem state_arr cy cx = 0
    /\ rook_adjacent (cy, cx) (y, x).

(** ** Arrays *)

(** [arr.T]: rows and columns exchanged. *)
Definition transpose {A} (a : ndarray A) : ndarray A :=
  mk_ndarray (shape1 a) (shape0 a) (fun y x => item a x y).

(** ** Rings *)

(** The number of ones of a ring. *)
Definition ones (circle : list Z) : Z := len (filter (Z.eqb 1) circle).

(** What the two numbers [_count_cont_nbs] returns have to do with the
    number of ones of the ring: the longest run is no longer than the ones
    there are, the runs together hold all of them, there are at most four
    runs, and there is a run exactly when there is a one. *)
Definition count_circle_bounded (circle : list Z) : bool :=
  let '(longest, runs) := count_circle circle in
  (0 <=? longest) && (longest <=? ones circle) && (ones circle <=? 8)
  && (0 <=? runs) && (runs <=? 4)
  && (ones circle <=? longest * runs)
  && Bool.eqb (runs =? 0) (ones circle =? 0)
  && Bool.eqb (longest =? 0) (ones circle =? 0).

(** ** Seeds *)

Section Seeds.

Context {ext : Externals}.

(** The row and the column [transform.rowcol] gives for a seed. *)
Definition seed_rowcol (a : LandArgs) (seed : Q * Q) : Z * Z :=
  rowcol (arg_extents_transform a) (fst seed) (snd seed).

(** The row and the column of a seed are indices numpy accepts: they lie in
    the array, or count from its end. *)
Definition seed_in_range (a : LandArgs) (seed : Q * Q) : Prop :=
  - shape0 (arg_extents_arr a) <= fst (seed_rowcol a seed) < shape0 (arg_extents_arr a)
  /\ - shape1 (arg_extents_arr a) <= snd (seed_rowcol a seed) < shape1 (arg_extents_arr a).

(** The cell a seed in range lands on: a negative index counts from the end. *)
Definition seed_cell (a : LandArgs) (seed : Q * Q) : Z * Z :=
  let '(r, c) := seed_rowcol a seed in
  ((if r <? 0 then r + shape0 (arg_extents_arr a) else r),
   (if c <? 0 then c + shape1 (arg_extents_arr a) else c)).

(** The grid [Land.__init__] starts from: the extents cast to [int16]. *)
Definition cast_extents (a : LandArgs) : ndarray Z :=
  mk_ndarray (shape0 (arg_extents_arr a)) (shape1 (arg_extents_arr a))
    (fun y x => int16 (item (arg_extents_arr a) y x)).

End Seeds.

(** ** What a visit does to the engine *)

Section Updates.

Context {ext : Externals}.

(** [d] is one of the three density factors of the engine. *)
Definition is_density_factor (L : Land) (d : Q) : Prop :=
  d = fst (fst (density_factors L)) \/ d = snd (fst (density_factors L))
  \/ d = snd (density_factors L).

(** The engine after the attempt to develop cell (y, x), a cell that is on
    the frontier or is nature: the green state has been updated and, on
    success, the cell is built or a centre (and then the access to centres
    has been incremented) and has one of the density factors. *)
Definition cell_update (L : Land) (y x : Z) (L' : Land) : Prop :=
  (getitem (green_itx_arr L) y x = 1 \/ getitem (state_arr L) y x = 0)
  /\ exists (b : bool) (itx' : ndarray Z) (acc' : ndarray Q),
       _green_state y x (state_arr L) (green_itx_arr L) (green_acc_arr L)
         (granularity_m L) (walk_dist_m L) = Ok (b, itx', acc')
       /\ ((b = false /\ L' = set_green L itx' acc')
           \/ (b = true
               /\ exists d,
                    is_density_factor L d
                    /\ (L' = set_density_arr
                               (set_state_arr (set_green L itx' acc')
                                  (setitem (state_arr L) y x 1))
                               (setitem (density_arr L) y x d)
                        \/ exists cent',
                             _inc_access y x (cent_acc_arr L) (granularity_m L)
                               (walk_dist_m L) = Ok cent'
                             /\ L' = set_density_arr
                                       (set_cent_acc_arr
                                          (set_state_arr (set_green L itx' acc')
                                             (setitem (state_arr L) y x 2))
                                          cent')
                                       (setitem (density_arr L) y x d)))).

(** The engine as the scan of a growth step starts on it. *)
Definition scan_start (L : Land) : Land :=
  let L := set_iters L (iters L + 1) in
  let feats := shapes (state_arr L) (trf L) in
  let out_feats :=
    map (fun feat => (feat, py_int (shape_area feat / inject_Z (1000 * 1000))))
      feats in
  set_areas_arr L (Some (rasterize out_feats (shape (state_arr L)) (trf L))).

End Updates.

(** ** Invariants of the engine *)

(** The frontier of a grid: marks are 0, 1 or 2, a cell marked 1 is nature,
    and a cell of nature that shares an edge with a cell of class 1 or more
    is marked 1 or 2. *)
Definition frontier_covers (state_arr green_itx_arr : ndarray Z) : Prop :=
  shape green_itx_arr = shape state_arr
  /\ (forall cy cx, getitem green_itx_arr cy cx = 0
                    \/ getitem green_itx_arr cy cx = 1
                    \/ getitem green_itx_arr cy cx = 2)
  /\ frontier_is_nature state_arr green_itx_arr
  /\ forall cy cx,
       in_bounds state_arr cy cx -> getitem state_arr cy cx = 0 ->
       built_neighbour state_arr cy cx ->
       getitem green_itx_arr cy cx = 1 \/ getitem green_itx_arr cy cx = 2.

Section Densities.

Context {ext : Externals}.


(** The access to centres of an engine: no value is negative, and a value is
    positive exactly when a centre lies nearer than the walking radius. *)
Definition centres_reach (L : Land) : Prop :=
  shape (cent_acc_arr L) = shape (state_arr L)
  /\ forall cy cx, in_bounds (state_arr L) cy cx ->
       (0 <= getitem (cent_acc_arr L) cy cx)%Q
       /\ ((0 < getitem (cent_acc_arr L) cy cx)%Q
           <-> centre_within (state_arr L) (granularity_m L) (walk_dist_m L)
                 (cy, cx)).

(** The five arrays of an engine have one shape. *)
Definition same_shapes (shp : Z * Z) (L : Land) : Prop :=
  shape (state_arr L) = shp /\ shape (green_itx_arr L) = shp
  /\ shape (green_acc_arr L) = shp /\ shape (cent_acc_arr L) = shp
  /\ shape (density_arr L) = shp.

End Densities.

(** ** The process during a growth step *)

(** What the visit of cell (y, x) does to the process and the counters: it
    writes nothing to the log, draws at most one number from the
    process-wide generator, prints nothing but the cell and only in step 14,
    and draws one number from the generator of the compiled code exactly
    when it counts a cell as added. *)
Definition visit_account {ext : Externals} (s s' : scan) (y x : Z) : Prop :=
  log (world s') = log (world s)
  /\ draws (np_random (world s')) = draws (np_random (world s))
  /\ draws (nb_random (world s')) = draws (nb_random (world s))
  /\ (drawn (np_random (world s')) = drawn (np_random (world s))
      \/ drawn (np_random (world s')) = S (drawn (np_random (world s))))
  /\ (stdout (world s') = stdout (world s)
      \/ (iters (self s) = 14 /\ stdout (world s') = stdout (world s) ++ [(y, x)]))
  /\ ((added_blocks s' = added_blocks s
       /\ added_centrality s' = added_centrality s
       /\ drawn (nb_random (world s')) = drawn (nb_random (world s)))
      \/ (added_blocks s' + added_centrality s'
          = added_blocks s + added_centrality s + 1
          /\ added_blocks s <= added_blocks s'
          /\ added_centrality s <= added_centrality s'
          /\ drawn (nb_random (world s')) = S (drawn (nb_random (world s))))).

(** The same, summed over the cells visited so far. *)
Definition scan_account {ext : Externals} (s0 : scan) (visited : list (Z * Z))
    (s : scan) : Prop :=
  log (world s) = log (world s0)
  /\ draws (np_random (world s)) = draws (np_random (world s0))
  /\ draws (nb_random (world s)) = draws (nb_random (world s0))
  /\ (drawn (np_random (world s0)) <= drawn (np_random (world s))
      <= drawn (np_random (world s0)) + List.length visited)%nat
  /\ (iters (self s0) <> 14 -> stdout (world s) = stdout (world s0))
  /\ iters (self s) = iters (self s0)
  /\ added_blocks s0 <= added_blocks s
  /\ added_centrality s0 <= added_centrality s
  /\ Z.of_nat (drawn (nb_random (world s)))
     = Z.of_nat (drawn (nb_random (world s0)))
       + (added_blocks s - added_blocks s0)
       + (added_centrality s - added_centrality s0).

(** * Properties *)

Unset Implicit Arguments.

(** ** Comparisons and errors *)

Lemma Qlt_bool_iff (a b : Q) : Qlt_bool a b = true <-> (a < b)%Q.
Proof.
  unfold Qlt_bool. rewrite negb_true_iff.
  split; intro H.
  - apply Qnot_le_lt. intro Hle. apply Qle_bool_iff in Hle. congruence.
  - destruct (Qle_bool b a) eqn:E; [|reflexivity].
    apply Qle_bool_iff in E. exfalso. exact (Qlt_not_le _ _ H E).
Qed.

Lemma Qlt_bool_false (a b : Q) : Qlt_bool a b = false <-> (b <= a)%Q.
Proof.
  unfold Qlt_bool. rewrite negb_false_iff. apply Qle_bool_iff.
Qed.

Lemma Qeq_bool_inject_Z (z : Z) : z <> 0 -> Qeq_bool (inject_Z z) 0 = false.
Proof.
  intro Hz. destruct (Qeq_bool (inject_Z z) 0) eqn:E; [|reflexivity].
  apply Qeq_bool_iff in E. unfold Qeq in E. simpl in E. lia.
Qed.

Lemma true_div_ok (a : Q) (z : Z) :
  z <> 0 -> true_div a (inject_Z z) = Ok (a / inject_Z z)%Q.
Proof.
  intro Hz. unfold true_div. now rewrite Qeq_bool_inject_Z.
Qed.

Lemma true_div_zero (a : Q) : true_div a (inject_Z 0) = Raise ZeroDivisionError.
Proof. reflexivity. Qed.

(** ** Density assignment *)

(** C9. [_random_density] draws one number [p] from the generator of the
    compiled code and returns the first density factor when [0 <= p < pd0],
    else the second when [pd1 <= p < pd2], else the third; the three
    thresholds are compared as they stand. *)
Theorem random_density_positional :
  forall (pd0 pd1 pd2 df0 df1 df2 : Q) (g : rng),
    let p := draws g (drawn g) in
    let '(d, g') := _random_density (pd0, pd1, pd2) (df0, df1, df2) g in
    g' = mk_rng (draws g) (S (drawn g))
    /\ ((0 <= p /\ p < pd0)%Q -> d = df0)
    /\ (~ (0 <= p /\ p < pd0)%Q -> (pd1 <= p /\ p < pd2)%Q -> d = df1)
    /\ (~ (0 <= p /\ p < pd0)%Q -> ~ (pd1 <= p /\ p < pd2)%Q -> d = df2).
Proof.
  intros pd0 pd1 pd2 df0 df1 df2 g p.
  unfold _random_density, rand. fold p.
  destruct (Qle_bool 0 p && Qlt_bool p pd0) eqn:E0.
  - apply andb_true_iff in E0. destruct E0 as [Ha Hb].
    apply Qle_bool_iff in Ha. apply Qlt_bool_iff in Hb.
    repeat split; auto; intros Hn; exfalso; apply Hn; split; assumption.
  - assert (N0 : ~ (0 <= p /\ p < pd0)%Q).
    { intros [Ha Hb]. apply Qle_bool_iff in Ha. apply Qlt_bool_iff in Hb.
      rewrite Ha, Hb in E0. discriminate. }
    destruct (Qle_bool pd1 p && Qlt_bool p pd2) eqn:E1.
    + apply andb_true_iff in E1. destruct E1 as [Ha Hb].
      apply Qle_bool_iff in Ha. apply Qlt_bool_iff in Hb.
      repeat split; auto; try (intros; contradiction).
      intros _ Hn. exfalso. apply Hn. split; assumption.
    + assert (N1 : ~ (pd1 <= p /\ p < pd2)%Q).
      { intros [Ha Hb]. apply Qle_bool_iff in Ha. apply Qlt_bool_iff in Hb.
        rewrite Ha, Hb in E1. discriminate. }
      repeat split; auto; intros; contradiction.
Qed.

(** ** Span validation *)

Lemma sorted2_min_max (a b : Z) : sorted2 a b = (Z.min a b, Z.max a b).
Proof.
  unfold sorted2. destruct (Z.leb_spec a b).
  - now rewrite Z.min_l, Z.max_r by lia.
  - now rewrite Z.min_r, Z.max_l by lia.
Qed.

Lemma shorter_than_ok (ray span_m g : Z) :
  g <> 0 ->
  exists b, shorter_than ray span_m g = Ok b /\ (b = true <-> shorter ray span_m g).
Proof.
  intro Hg. unfold shorter_than. rewrite true_div_ok by assumption. simpl.
  eexists. split; [reflexivity|]. apply Qlt_bool_iff.
Qed.

Lemma green_ray_loop_spec (arr_1d : list Z) (f : nat -> Z) :
  forall (n j : nat) (ray : Z),
    (forall i, (j <= i < j + n)%nat -> f i <> len arr_1d) ->
    exists k : nat,
      green_ray_loop arr_1d (map f (seq j n)) ray = ray + Z.of_nat k
      /\ (k <= n)%nat
      /\ (forall i, (j <= i < j + k)%nat -> nth (Z.to_nat (f i)) arr_1d 0 = 0)
      /\ (k = n \/ nth (Z.to_nat (f (j + k)%nat)) arr_1d 0 <> 0).
Proof.
  induction n as [|n IH]; intros j ray Hlen; simpl.
  - exists 0%nat. repeat split; try lia.
  - destruct (f j =? len arr_1d) eqn:E.
    { apply Z.eqb_eq in E. exfalso. apply (Hlen j); [lia|assumption]. }
    destruct (nth (Z.to_nat (f j)) arr_1d 0 =? 0) eqn:E0; simpl.
    + apply Z.eqb_eq in E0.
      destruct (IH (S j) (ray + 1)) as (k & Hk & Hle & Hz & Hend).
      { intros i Hi. apply Hlen. lia. }
      exists (S k). repeat split.
      * rewrite Hk. lia.
      * lia.
      * intros i Hi. destruct (Nat.eq_dec i j) as [->|Hne]; [assumption|].
        apply Hz. lia.
      * destruct Hend as [->|Hend]; [now left|right].
        now replace (j + S k)%nat with (S j + k)%nat by lia.
    + apply Z.eqb_neq in E0. exists 0%nat. repeat split; try lia.
      right. now rewrite Nat.add_0_r.
Qed.

Lemma green_ray_is_ray (arr_1d : list Z) (start : Z) (positive : bool) :
  0 <= start < len arr_1d ->
  is_ray arr_1d start (if positive then 1 else -1) (green_ray arr_1d start positive).
Proof.
  intros Hs. unfold green_ray. destruct positive.
  - unfold py_range.
    destruct (green_ray_loop_spec arr_1d (fun i => start + 1 + Z.of_nat i)
                (Z.to_nat (len arr_1d - (start + 1))) 0 0)
      as (k & Hk & Hle & Hz & Hend).
    { intros i Hi. lia. }
    rewrite Hk. repeat split; try lia.
    + specialize (Hz (Z.to_nat (i - 1))).
      replace (start + 1 + Z.of_nat (Z.to_nat (i - 1))) with (start + 1 * i) in Hz by lia.
      apply Hz. lia.
    + destruct Hend as [->|Hend]; [left; lia|right].
      simpl in Hend.
      now replace (start + 1 * (0 + Z.of_nat k + 1)) with (start + 1 + Z.of_nat k) by lia.
  - unfold py_range_down.
    destruct (green_ray_loop_spec arr_1d (fun i => start - 1 - Z.of_nat i)
                (Z.to_nat (start - 1 + 1)) 0 0)
      as (k & Hk & Hle & Hz & Hend).
    { intros i Hi. lia. }
    rewrite Hk. repeat split; try lia.
    + specialize (Hz (Z.to_nat (i - 1))).
      replace (start - 1 - Z.of_nat (Z.to_nat (i - 1))) with (start + -1 * i) in Hz by lia.
      apply Hz. lia.
    + destruct Hend as [->|Hend]; [left; lia|right].
      simpl in Hend.
      now replace (start + -1 * (0 + Z.of_nat k + 1)) with (start - 1 - Z.of_nat k) by lia.
Qed.

Lemma green_ray_nonneg (arr_1d : list Z) (start : Z) (positive : bool) :
  0 <= green_ray arr_1d start positive.
Proof.
  unfold green_ray.
  destruct positive; unfold py_range, py_range_down;
    match goal with
    | |- 0 <= green_ray_loop _ (map ?f (seq 0 ?n)) 0 =>
        assert (G : forall m j ray, ray <= green_ray_loop arr_1d (map f (seq j m)) ray)
    end.
  1,3: induction m as [|m IH]; intros j ray; simpl; [lia|];
       repeat match goal with |- context [if ?b then _ else _] => destruct b end;
       try lia; specialize (IH (S j) (ray + 1)); lia.
  all: apply G.
Qed.

Lemma len_range (n : Z) : 0 <= n -> len (range n) = n.
Proof.
  intro Hn. unfold len, range. rewrite length_map, length_seq. lia.
Qed.

Lemma len_row_of {A} (arr : ndarray A) (y : Z) :
  0 <= shape1 arr -> len (row_of arr y) = shape1 arr.
Proof.
  intro H. unfold row_of, len. rewrite length_map. now apply len_range.
Qed.

Lemma len_col_of {A} (arr : ndarray A) (x : Z) :
  0 <= shape0 arr -> len (col_of arr x) = shape0 arr.
Proof.
  intro H. unfold col_of, len. rewrite length_map. now apply len_range.
Qed.

Lemma green_rays_decides (arr : ndarray Z) (y x g ml ms : Z) :
  g <> 0 ->
  exists b, green_rays arr y x g ml ms = Ok b
            /\ (b = false <-> span_rejected (four_rays arr y x) g ml ms).
Proof.
  intro Hg. unfold green_rays, rays_of, four_rays, span_rejected, pinched.
  set (l := green_ray (row_of arr y) x false).
  set (r := green_ray (row_of arr y) x true).
  set (u := green_ray (col_of arr x) y false).
  set (d := green_ray (col_of arr x) y true).
  assert (Hl : 0 <= l) by apply green_ray_nonneg.
  assert (Hr : 0 <= r) by apply green_ray_nonneg.
  assert (Hu : 0 <= u) by apply green_ray_nonneg.
  assert (Hd : 0 <= d) by apply green_ray_nonneg.
  rewrite !sorted2_min_max. cbn [fst snd].
  destruct (shorter_than_ok (Z.min l r) ms g Hg) as (b1 & E1 & H1).
  destruct (shorter_than_ok (Z.min u d) ms g Hg) as (b2 & E2 & H2).
  destruct (shorter_than_ok (Z.max (Z.max l r) (Z.max u d)) ml g Hg) as (b3 & E3 & H3).
  destruct (shorter_than_ok (Z.min (Z.max l r) (Z.max u d)) ms g Hg) as (b4 & E4 & H4).
  rewrite E1, E2, E3, E4.
  assert (X : negb (Z.min l r + Z.max l r =? 0) && negb (Z.min l r =? 0)
              = negb (Z.min l r =? 0)).
  { destruct (Z.eqb_spec (Z.min l r) 0); [now rewrite andb_false_r|].
    destruct (Z.eqb_spec (Z.min l r + Z.max l r) 0); [lia|reflexivity]. }
  assert (Y : negb (Z.min u d + Z.max u d =? 0) && negb (Z.min u d =? 0)
              = negb (Z.min u d =? 0)).
  { destruct (Z.eqb_spec (Z.min u d) 0); [now rewrite andb_false_r|].
    destruct (Z.eqb_spec (Z.min u d + Z.max u d) 0); [lia|reflexivity]. }
  rewrite X, Y. clear X Y E1 E2 E3 E4.
  assert (T : forall b P, (b = true <-> P) -> b = false -> ~ P).
  { intros b P HP Hb HPp. apply HP in HPp. congruence. }
  destruct (Z.eqb_spec (Z.min l r) 0) as [Zx|Zx]; simpl;
    [|destruct b1 eqn:B1; simpl;
      [eexists; split; [reflexivity|]; split; [intros _|reflexivity];
       left; split; [assumption|now apply H1]|]];
  (destruct (Z.eqb_spec (Z.min u d) 0) as [Zy|Zy]; simpl;
    [|destruct b2 eqn:B2; simpl;
      [eexists; split; [reflexivity|]; split; [intros _|reflexivity];
       right; left; split; [assumption|now apply H2]|]]);
  (destruct b3 eqn:B3; simpl;
    [eexists; split; [reflexivity|]; split; [intros _|reflexivity];
     right; right; left; now apply H3|]);
  (destruct b4 eqn:B4; simpl;
    [eexists; split; [reflexivity|]; split; [intros _|reflexivity];
     right; right; right; now apply H4|]);
  (eexists; split; [reflexivity|]; split; [discriminate|];
   intros [[N S]|[[N S]|[S|S]]]; exfalso;
   first [ contradiction
         | eapply (T _ _ H1); eauto; fail
         | eapply (T _ _ H2); eauto; fail
         | eapply (T _ _ H3); eauto; fail
         | eapply (T _ _ H4); eauto; fail ]).
Qed.

(** C4 (amended). [green_rays] casts the four rays of consecutive nature
    cells along the row and the column of the cell and, for a cell size
    other than zero, returns false exactly when (a) on either axis the
    smaller ray is nonzero but shorter than [min_short / granularity], or
    (b) the largest of the four rays is shorter than [min_long / granularity],
    or (c) the smaller of the two per-axis longest rays is shorter than
    [min_short / granularity].  With 500 m, 100 m and cells of 100 m, a cell
    with six cells of nature on one side and none on the other on both axes
    passes and a cell with one cell of nature on every side fails. *)
Theorem green_rays_span_rule :
  forall (arr : ndarray Z) (y x g min_long min_short : Z),
    g <> 0 ->
    in_bounds arr y x ->
    (let '(l, r, u, d) := four_rays arr y x in
     is_ray (row_of arr y) x (-1) l /\ is_ray (row_of arr y) x 1 r
     /\ is_ray (col_of arr x) y (-1) u /\ is_ray (col_of arr x) y 1 d)
    /\ (exists b, green_rays arr y x g min_long min_short = Ok b
                  /\ (b = false <->
                      span_rejected (four_rays arr y x) g min_long min_short))
    /\ green_rays grid_one_sided 0 0 100 500 100 = Ok true
    /\ green_rays grid_one_cell_each_side 1 1 100 500 100 = Ok false.
Proof.
  intros arr y x g ml ms Hg [Hy Hx].
  split; [|split; [now apply green_rays_decides|split; reflexivity]].
  unfold four_rays.
  assert (Lr : 0 <= x < len (row_of arr y)) by (rewrite len_row_of; lia).
  assert (Lc : 0 <= y < len (col_of arr x)) by (rewrite len_col_of; lia).
  pose proof (green_ray_is_ray (row_of arr y) x false Lr) as R1.
  pose proof (green_ray_is_ray (row_of arr y) x true Lr) as R2.
  pose proof (green_ray_is_ray (col_of arr x) y false Lc) as R3.
  pose proof (green_ray_is_ray (col_of arr x) y true Lc) as R4.
  cbv beta iota in R1, R2, R3, R4. auto.
Qed.

Lemma green_rays_span_rule_witness :
  100 <> 0 /\ in_bounds grid_long_row 0 5
  /\ exists b, green_rays grid_long_row 0 5 100 500 200 = Ok b
               /\ (b = false <-> span_rejected (four_rays grid_long_row 0 5) 100 500 200).
Proof.
  assert (Hg : 100 <> 0) by lia.
  assert (Hb : in_bounds grid_long_row 0 5) by (unfold in_bounds; simpl; lia).
  split; [exact Hg|split; [exact Hb|]].
  exact (proj1 (proj2 (green_rays_span_rule grid_long_row 0 5 100 500 200 Hg Hb))).
Defined.

(** C4 as worded: with the last clause on the second largest of the four
    rays, the rule would let cell (0, 5) of [grid_long_row] pass
    (rays 5, 6, 0, 1 against spans of 5 and 2 cells); [green_rays] returns
    false there. *)
Lemma green_rays_not_second_largest :
  green_rays grid_long_row 0 5 100 500 200 = Ok false
  /\ four_rays grid_long_row 0 5 = (5, 6, 0, 1)
  /\ ~ span_rejected_second_largest (four_rays grid_long_row 0 5) 100 500 200.
Proof.
  split; [reflexivity|split; [reflexivity|]].
  change (four_rays grid_long_row 0 5) with (5, 6, 0, 1).
  unfold span_rejected_second_largest, pinched, shorter.
  intros [[N S]|[[N S]|[S|S]]]; vm_compute in S; try discriminate.
  now apply N.
Qed.

(** ** Runs round a cell *)

Lemma in_all_rings (l : list Z) :
  Forall (fun c => c = 0 \/ c = 1) l -> In l (all_rings (List.length l)).
Proof.
  induction 1 as [|c l Hc _ IH]; simpl; [now left|].
  apply in_flat_map. exists l. split; [assumption|].
  destruct Hc as [->| ->]; simpl; auto.
Qed.

Lemma count_circle_checked (n : nat) :
  (n <= 8)%nat -> forallb count_circle_agrees (all_rings n) = true.
Proof.
  intro Hn.
  do 9 (destruct n as [|n]; [vm_compute; reflexivity|]).
  lia.
Qed.

Lemma count_circle_runs (l : list Z) :
  Forall (fun c => c = 0 \/ c = 1) l ->
  (List.length l <= 8)%nat ->
  count_circle l
  = if len l =? 8 then summary (circular_runs l) else summary (linear_runs l).
Proof.
  intros H01 Hlen.
  pose proof (count_circle_checked _ Hlen) as Hall.
  rewrite forallb_forall in Hall.
  specialize (Hall l (in_all_rings l H01)).
  unfold count_circle_agrees, pair_eqb in Hall.
  apply andb_true_iff in Hall. destruct Hall as [H1 H2].
  apply Z.eqb_eq in H1. apply Z.eqb_eq in H2.
  destruct (count_circle l), (if len l =? 8 then _ else _). simpl in *. congruence.
Qed.

Lemma iter_nbs_length {A} (arr : ndarray A) (y x : Z) (rook : bool) :
  (List.length (_iter_nbs arr y x rook) <= 8)%nat.
Proof.
  unfold _iter_nbs. destruct rook; simpl;
    repeat match goal with
           | |- context [if ?b then _ else _] => destruct b
           end; simpl; lia.
Qed.

Lemma iter_nbs_interior {A} (arr : ndarray A) (y x : Z) :
  1 <= y < shape0 arr - 1 -> 1 <= x < shape1 arr - 1 ->
  _iter_nbs arr y x false
  = [(y + 1, x + -1); (y + 1, x + 0); (y + 1, x + 1); (y + 0, x + 1);
     (y + -1, x + 1); (y + -1, x + 0); (y + -1, x + -1); (y + 0, x + -1)].
Proof.
  intros Hy Hx. unfold _iter_nbs. simpl.
  repeat match goal with
         | |- context [?a <? ?b] => destruct (Z.ltb_spec a b); [lia|]
         | |- context [?a <=? ?b] => destruct (Z.leb_spec a b); [lia|]
         end.
  reflexivity.
Qed.

Lemma circle_of_01 (state : ndarray Z) (y x : Z) (targets : list Z) :
  Forall (fun c => c = 0 \/ c = 1) (circle_of state y x targets).
Proof.
  unfold circle_of. apply Forall_map. apply Forall_forall.
  intros [a b] _. destruct (existsb _ _); auto.
Qed.

Lemma count_circle_zeros (l : list Z) :
  (forall c, In c l -> c = 0) -> count_circle l = (0, 0).
Proof.
  intro H0. unfold count_circle.
  assert (E : count_runs l 0 [] = []).
  { induction l as [|c l IH]; [reflexivity|]. simpl.
    rewrite (H0 c) by now left. simpl. apply IH.
    intros c' Hc'. apply H0. now right. }
  rewrite E. reflexivity.
Qed.

(** C5 (amended). [_count_cont_nbs] reads the queen neighbours in ring
    order.  Round a cell with all eight neighbours in bounds it counts the
    runs of the ring as a circle (a run that spans the first and the last
    position is one run); round a cell with fewer neighbours in bounds it
    counts the runs of the sequence with two ends and merges nothing.  It
    returns (0, 0) when no neighbour matches, (8, 1) on a ring of eight
    matching neighbours, and (2, 1) on the ring [1,0,0,0,0,0,0,1]. *)
Theorem count_cont_nbs_runs :
  forall (state : ndarray Z) (y x : Z) (targets : list Z),
    let ring := circle_of state y x targets in
    (1 <= y < shape0 state - 1 -> 1 <= x < shape1 state - 1 -> len ring = 8)
    /\ (len ring = 8 ->
        _count_cont_nbs state y x targets = summary (circular_runs ring))
    /\ (len ring <> 8 ->
        _count_cont_nbs state y x targets = summary (linear_runs ring))
    /\ ((forall c, In c ring -> c = 0) ->
        _count_cont_nbs state y x targets = (0, 0))
    /\ (circle_of grid_ringed 1 1 [1; 2] = [1; 1; 1; 1; 1; 1; 1; 1]
        /\ _count_cont_nbs grid_ringed 1 1 [1; 2] = (8, 1))
    /\ (circle_of grid_wrap 1 1 [1] = [1; 0; 0; 0; 0; 0; 0; 1]
        /\ _count_cont_nbs grid_wrap 1 1 [1] = (2, 1)).
Proof.
  intros state y x targets ring.
  assert (H01 : Forall (fun c => c = 0 \/ c = 1) ring) by apply circle_of_01.
  assert (Hlen : (List.length ring <= 8)%nat).
  { unfold ring, circle_of. rewrite length_map. apply iter_nbs_length. }
  pose proof (count_circle_runs ring H01 Hlen) as Hruns.
  repeat split; try reflexivity.
  - intros Hy Hx. unfold ring, circle_of.
    rewrite (iter_nbs_interior state y x Hy Hx). reflexivity.
  - intro H8. unfold _count_cont_nbs. fold ring. rewrite Hruns.
    now rewrite (proj2 (Z.eqb_eq _ _) H8).
  - intro H8. unfold _count_cont_nbs. fold ring. rewrite Hruns.
    now rewrite (proj2 (Z.eqb_neq _ _) H8).
  - intro H0. unfold _count_cont_nbs. fold ring. now apply count_circle_zeros.
Qed.

(** C5 as worded: at the corner cell of [grid_corner] the ring has three
    positions, [1, 0, 1]; the first and the last match and there are two
    runs, so the merge would leave one run of two.  [_count_cont_nbs]
    returns two runs of one. *)
Lemma count_cont_nbs_corner_not_merged :
  circle_of grid_corner 0 0 [1] = [1; 0; 1]
  /\ _count_cont_nbs grid_corner 0 0 [1] = (1, 2)
  /\ summary (merged_runs (circle_of grid_corner 0 0 [1])) = (2, 1)
  /\ _count_cont_nbs grid_corner 0 0 [1]
     <> summary (merged_runs (circle_of grid_corner 0 0 [1])).
Proof.
  repeat split; try reflexivity. vm_compute. discriminate.
Qed.

(** ** Loops, indices and exceptions *)

Lemma in_range (n z : Z) : In z (range n) <-> 0 <= z < n.
Proof.
  unfold range. rewrite in_map_iff. split.
  - intros (k & <- & Hk). apply in_seq in Hk. lia.
  - intros Hz. exists (Z.to_nat z). split; [lia|]. apply in_seq. lia.
Qed.

Lemma NoDup_range (n : Z) : NoDup (range n).
Proof.
  unfold range. apply Injective_map_NoDup.
  - intros a b H. lia.
  - apply seq_NoDup.
Qed.

Lemma in_ndindex_shape (s : Z * Z) (y x : Z) :
  In (y, x) (ndindex_shape s) <-> 0 <= y < fst s /\ 0 <= x < snd s.
Proof.
  unfold ndindex_shape. rewrite in_flat_map. split.
  - intros (y' & Hy & Hx). apply in_map_iff in Hx.
    destruct Hx as (x' & E & Hx). inversion E; subst.
    apply in_range in Hy. apply in_range in Hx. auto.
  - intros [Hy Hx]. exists y. split; [now apply in_range|].
    apply in_map_iff. exists x. split; [reflexivity|now apply in_range].
Qed.

Lemma in_ndindex {A} (a : ndarray A) (y x : Z) :
  In (y, x) (ndindex a) <-> in_bounds a y x.
Proof. apply in_ndindex_shape. Qed.

Lemma NoDup_flat_map {A B} (f : A -> list B) (l : list A) :
  NoDup l ->
  (forall a, In a l -> NoDup (f a)) ->
  (forall a a' b, In a l -> In a' l -> In b (f a) -> In b (f a') -> a = a') ->
  NoDup (flat_map f l).
Proof.
  induction 1 as [|a l Hna Hnd IH]; intros Hf Hdis; simpl; [constructor|].
  apply NoDup_app.
  - apply Hf. now left.
  - apply IH.
    + intros a' Ha'. apply Hf. now right.
    + intros a1 a2 b H1 H2. apply Hdis; now right.
  - intros b Hb Hb'. apply in_flat_map in Hb'. destruct Hb' as (a' & Ha' & Hb').
    assert (a = a') by (apply (Hdis a a' b); auto; [now left|now right]).
    subst. contradiction.
Qed.

Lemma NoDup_ndindex_shape (s : Z * Z) : NoDup (ndindex_shape s).
Proof.
  unfold ndindex_shape. apply NoDup_flat_map.
  - apply NoDup_range.
  - intros y _. apply Injective_map_NoDup; [|apply NoDup_range].
    intros a b H. now inversion H.
  - intros y y' [b1 b2] _ _ H1 H2.
    apply in_map_iff in H1. apply in_map_iff in H2.
    destruct H1 as (? & E1 & _). destruct H2 as (? & E2 & _). congruence.
Qed.

Lemma never_ok {A} (e : exn) (a : A) : never e (Ok a).
Proof. discriminate. Qed.

Lemma never_bind {A B} (e : exn) (m : result A) (k : A -> result B) :
  never e m -> (forall a, never e (k a)) -> never e (bind m k).
Proof.
  intros Hm Hk. destruct m as [a|e']; simpl; [apply Hk|].
  intro H. apply Hm. inversion H. reflexivity.
Qed.

Lemma never_for_each {S X} (e : exn) (body : S -> X -> result S) :
  (forall s x, never e (body s x)) ->
  forall xs s, never e (for_each body s xs).
Proof.
  intros Hb. induction xs as [|x xs IH]; intro s; simpl.
  - apply never_ok.
  - apply never_bind; [apply Hb|intro; apply IH].
Qed.

Lemma never_all {A} (r : result A) :
  (forall e, never e r) -> exists a, r = Ok a.
Proof.
  intro H. destruct r as [a|e]; [now exists a|].
  exfalso. now apply (H e).
Qed.

Lemma never_true_div (e : exn) (a : Q) (walk : Z) :
  guarded walk e -> never e (true_div a (inject_Z walk)).
Proof.
  intros G. unfold true_div.
  destruct (Qeq_bool (inject_Z walk) 0) eqn:E; [|apply never_ok].
  intro H. inversion H; subst.
  rewrite Qeq_bool_inject_Z in E; [discriminate|]. now apply G.
Qed.

Lemma never_agg_access (e : exn) y x arr g walk positive :
  guarded walk e -> never e (_agg_access y x arr g walk positive).
Proof.
  intro G. unfold _agg_access. apply never_for_each.
  intros s [cy cx].
  destruct (Qlt_bool _ _); [apply never_ok|].
  apply never_bind; [now apply never_true_div|].
  intro q. destruct positive; apply never_ok.
Qed.

Lemma never_green_state_work (e : exn) y x state itx acc g walk :
  guarded walk e -> never e (green_state_work y x state itx acc g walk).
Proof.
  intro G. unfold green_state_work.
  apply never_bind.
  - destruct (_ =? 1); [|apply never_ok].
    apply never_bind; [now apply never_agg_access|intro; apply never_ok].
  - intros [itx' acc']. apply never_for_each.
    intros [i a] [ny nx]. unfold activate_nb.
    destruct (_ && _); [|apply never_ok].
    apply never_bind; [now apply never_agg_access|intro; apply never_ok].
Qed.

Lemma never_green_state (e : exn) y x state itx acc g walk :
  guarded walk e -> never e (_green_state y x state itx acc g walk).
Proof.
  intro G. unfold _green_state.
  apply never_bind; [now apply never_green_state_work|].
  intros [itx' acc']. destruct (strands _ _); apply never_ok.
Qed.

Lemma never_compute_green_itx (e : exn) state g walk :
  guarded walk e -> never e (_compute_green_itx state g walk).
Proof.
  intro G. unfold _compute_green_itx. apply never_for_each.
  intros [itx acc] [y x].
  destruct (_ <? 1); [apply never_ok|].
  apply never_bind; [now apply never_green_state|].
  intros [[b itx'] acc']. apply never_ok.
Qed.

Lemma never_compute_centres_access (e : exn) state g walk :
  guarded walk e -> never e (_compute_centres_access state g walk).
Proof.
  intro G. unfold _compute_centres_access. apply never_for_each.
  intros acc [y x].
  destruct (negb _); [apply never_ok|].
  now apply never_agg_access.
Qed.

(** ** Construction *)

Lemma never_setitem_checked {A} (e : exn) (arr : ndarray A) i j v :
  e <> IndexError -> never e (setitem_checked arr i j v).
Proof.
  intro He. unfold setitem_checked, norm_index.
  repeat match goal with
         | |- context [if ?b then _ else _] => destruct b
         end; simpl; try apply never_ok;
    intro H; inversion H; congruence.
Qed.

Section Construction.

Context {ext : Externals}.

Lemma never_seed_centres (e : exn) (trf : Affine) (seeds : list (Q * Q)) st :
  e <> IndexError ->
  never e (for_each (fun state_arr '(east, north) =>
                       let '(x, y) := rowcol trf east north in
                       setitem_checked state_arr x y 2) st seeds).
Proof.
  intro He. apply never_for_each. intros s [east north].
  destruct (rowcol trf east north). now apply never_setitem_checked.
Qed.



Lemma agg_access_total y x arr g walk positive :
  walk <> 0 -> exists arr', _agg_access y x arr g walk positive = Ok arr'.
Proof.
  intro Hw. apply never_all. intro e. apply never_agg_access. now intros _.
Qed.

(** C8 (amended). [Land.__init__] checks nothing about the walking radius.
    When the caller passes a radius other than zero, the division inside
    the accessibility aggregation has a divisor other than zero: the
    aggregation returns a surface and the construction raises no
    [ZeroDivisionError]. *)
Theorem walk_radius_not_checked :
  forall (a : LandArgs) (w : World),
    arg_walk_dist_m a <> 0 ->
    (forall y x arr g positive,
        exists arr', _agg_access y x arr g (arg_walk_dist_m a) positive = Ok arr')
    /\ never ZeroDivisionError (Land_init a w).
Proof.
  intros a w Hw. split.
  - intros. now apply agg_access_total.
  - unfold Land_init.
    destruct (Qlt_bool _ _); [discriminate|].
    apply never_bind; [apply never_seed_centres; discriminate|]. intro st.
    apply never_bind; [apply never_compute_green_itx; now intros _|].
    intros [itx acc].
    apply never_bind; [apply never_compute_centres_access; now intros _|].
    intro cent. apply never_ok.
Qed.

End Construction.

Lemma walk_radius_not_checked_witness :
  arg_walk_dist_m (strip_args 3 100 [(50, 50)%Q] 1) <> 0
  /\ never ZeroDivisionError (Land_init (strip_args 3 100 [(50, 50)%Q] 1) fresh_world).
Proof.
  assert (H : arg_walk_dist_m (strip_args 3 100 [(50, 50)%Q] 1) <> 0)
    by (simpl; lia).
  split; [exact H|].
  exact (proj2 (walk_radius_not_checked (strip_args 3 100 [(50, 50)%Q] 1)
                  fresh_world H)).
Defined.

(** C8 as worded: with a walking radius of zero and a centre seeded on a
    strip of three cells, the construction is not refused by a check; the
    aggregation divides by zero and the construction ends in
    [ZeroDivisionError].  With nothing built the same radius gives an
    engine. *)
Lemma zero_walk_radius_reaches_division :
  Land_init (strip_args 3 0 [(50, 50)%Q] 1) fresh_world = Raise ZeroDivisionError
  /\ _agg_access 0 0 (full (1, 3) 0%Q) 100 0 true = Raise ZeroDivisionError
  /\ exists L w, Land_init (strip_args 3 0 [] 1) fresh_world = Ok (L, w)
                 /\ walk_dist_m L = 0.
Proof.
  split; [reflexivity|split; [reflexivity|]].
  eexists. eexists. split; reflexivity.
Qed.

(** ** The accessibility aggregation *)

Ltac split_ands := repeat match goal with |- _ /\ _ => split end.

Lemma item_setitem_same {A} (a : ndarray A) y x v :
  item (setitem a y x v) y x = v.
Proof. simpl. now rewrite !Z.eqb_refl. Qed.

Lemma item_setitem_other {A} (a : ndarray A) y x v y' x' :
  (y', x') <> (y, x) -> item (setitem a y x v) y' x' = item a y' x'.
Proof.
  intro Hne. simpl.
  destruct (Z.eqb_spec y' y), (Z.eqb_spec x' x); simpl; try reflexivity.
  subst. now contradiction Hne.
Qed.

Lemma cell_eq_dec (a b : Z * Z) : {a = b} + {a <> b}.
Proof. decide equality; apply Z.eq_dec. Qed.

Lemma agg_access_loop (y x g walk : Z) (positive : bool) :
  walk <> 0 ->
  forall (l : list (Z * Z)) (arr : ndarray Q),
    NoDup l ->
    exists arr',
      for_each (fun (arr : ndarray Q) '(cy_idx, cx_idx) =>
          let y_dist := Z.abs (y - cy_idx) * g in
          let x_dist := Z.abs (x - cx_idx) * g in
          let dist := hypot x_dist y_dist in
          if Qlt_bool (inject_Z walk) dist then Ok arr
          else
            q <- true_div dist (inject_Z walk) ;;
            let val := (1 - q)%Q in
            if positive
            then Ok (setitem arr cy_idx cx_idx (getitem arr cy_idx cx_idx + val)%Q)
            else Ok (setitem arr cy_idx cx_idx (getitem arr cy_idx cx_idx - val)%Q))
        arr l = Ok arr'
      /\ shape0 arr' = shape0 arr /\ shape1 arr' = shape1 arr
      /\ (forall cy cx, In (cy, cx) l ->
            (item arr' cy cx
             == item arr cy cx
                + (if positive then triangular g walk (y, x) (cy, cx)
                   else - triangular g walk (y, x) (cy, cx)))%Q)
      /\ (forall cy cx, ~ In (cy, cx) l -> item arr' cy cx = item arr cy cx).
Proof.
  intro Hw. induction l as [|[cy0 cx0] l IH]; intros arr Hnd.
  - exists arr. simpl. split_ands; auto; try reflexivity. intros ? ? [].
  - inversion Hnd as [|? ? Hnotin Hnd']; subst.
    cbn [for_each].
    set (dist := hypot (Z.abs (x - cx0) * g) (Z.abs (y - cy0) * g)).
    assert (Htri : triangular g walk (y, x) (cy0, cx0)
                   = if Qlt_bool (inject_Z walk) dist then 0%Q
                     else (1 - dist / inject_Z walk)%Q) by reflexivity.
    cbv zeta. fold dist.
    destruct (Qlt_bool (inject_Z walk) dist) eqn:Eskip.
    + cbn [bind].
      destruct (IH arr Hnd') as (arr' & Hrun & Hs0 & Hs1 & Hin & Hout).
      exists arr'. split_ands; auto.
      * intros cy cx [E|Hi].
        -- inversion E; subst. rewrite (Hout _ _ Hnotin), Htri.
           destruct positive; ring.
        -- now apply Hin.
      * intros cy cx Hn. apply Hout. intro. apply Hn. now right.
    + rewrite true_div_ok by assumption. cbn [bind].
      set (val := (1 - dist / inject_Z walk)%Q) in *.
      set (arr1 := if positive
                   then setitem arr cy0 cx0 (getitem arr cy0 cx0 + val)%Q
                   else setitem arr cy0 cx0 (getitem arr cy0 cx0 - val)%Q).
      assert (E1 : (if positive
                    then Ok (setitem arr cy0 cx0 (getitem arr cy0 cx0 + val)%Q)
                    else Ok (setitem arr cy0 cx0 (getitem arr cy0 cx0 - val)%Q))
                   = Ok arr1) by (unfold arr1; now destruct positive).
      rewrite E1. cbn [bind].
      destruct (IH arr1 Hnd') as (arr' & Hrun & Hs0 & Hs1 & Hin & Hout).
      assert (Sh0 : shape0 arr1 = shape0 arr) by (unfold arr1; now destruct positive).
      assert (Sh1 : shape1 arr1 = shape1 arr) by (unfold arr1; now destruct positive).
      exists arr'. split; [exact Hrun|]. split; [congruence|].
      split; [congruence|]. split.
      * intros cy cx [E|Hi].
        -- inversion E; subst. rewrite (Hout _ _ Hnotin), Htri.
           unfold arr1. destruct positive; rewrite item_setitem_same;
             unfold getitem; ring.
        -- rewrite (Hin _ _ Hi).
           assert (Hne : (cy, cx) <> (cy0, cx0)) by (intro E; now rewrite E in Hi).
           unfold arr1. destruct positive; now rewrite item_setitem_other.
      * intros cy cx Hn.
        assert (Hne : (cy, cx) <> (cy0, cx0)) by (intro E; apply Hn; now left).
        rewrite Hout by (intro; apply Hn; now right).
        unfold arr1. destruct positive; now rewrite item_setitem_other.
Qed.

Lemma agg_access_spec (y x : Z) (arr : ndarray Q) (g walk : Z) (positive : bool) :
  walk <> 0 ->
  exists arr',
    _agg_access y x arr g walk positive = Ok arr'
    /\ shape0 arr' = shape0 arr /\ shape1 arr' = shape1 arr
    /\ (forall cy cx, in_bounds arr cy cx ->
          (item arr' cy cx
           == item arr cy cx
              + (if positive then triangular g walk (y, x) (cy, cx)
                 else - triangular g walk (y, x) (cy, cx)))%Q)
    /\ (forall cy cx, ~ in_bounds arr cy cx -> item arr' cy cx = item arr cy cx).
Proof.
  intro Hw.
  destruct (agg_access_loop y x g walk positive Hw (ndindex arr) arr
              (NoDup_ndindex_shape _)) as (arr' & Hrun & Hs0 & Hs1 & Hin & Hout).
  exists arr'. split_ands; auto.
  - intros cy cx Hb. apply Hin. now apply in_ndindex.
  - intros cy cx Hb. apply Hout. now rewrite in_ndindex.
Qed.

(** ** The frontier sum *)

Lemma Qmake_nonneg (m : Z) (p : positive) : 0 <= m -> (0 <= Qmake m p)%Q.
Proof. intro H. unfold Qle. cbn [Qnum Qden]. lia. Qed.

Lemma sqrt_binary64_nonneg (n : Z) : (0 <= sqrt_binary64 n)%Q.
Proof.
  unfold sqrt_binary64.
  destruct (n <=? 0); [apply Qle_refl|].
  set (e := 52 - Z.log2 n / 2).
  destruct (0 <=? e).
  - apply Qmake_nonneg.
    pose proof (Z.sqrt_nonneg (n * 4 ^ e)).
    destruct (_ <? _); lia.
  - apply Qmake_nonneg.
    set (s := - e).
    pose proof (Z.sqrt_nonneg (n / 4 ^ s)).
    assert (0 <= 2 ^ s) by (apply Z.pow_nonneg; lia).
    destruct (_ <? _); [|destruct (_ && _)]; nia.
Qed.

Lemma distance_nonneg (g : Z) (a b : Z * Z) : (0 <= distance g a b)%Q.
Proof. apply sqrt_binary64_nonneg. Qed.

Lemma triangular_nonneg (g walk : Z) (a b : Z * Z) :
  (0 <= triangular g walk a b)%Q.
Proof.
  unfold triangular.
  destruct (Qlt_bool (inject_Z walk) (distance g a b)) eqn:E; [apply Qle_refl|].
  apply Qlt_bool_false in E.
  pose proof (distance_nonneg g a b) as Hd.
  destruct (Z.eq_dec walk 0) as [->|Hw].
  - unfold Qdiv. simpl. rewrite Qmult_0_r. discriminate.
  - assert (Hpos : (0 < inject_Z walk)%Q).
    { assert (H0 : (0 <= inject_Z walk)%Q) by (eapply Qle_trans; eauto).
      unfold Qlt, Qle in *. simpl in *. lia. }
    assert (Hq : (distance g a b / inject_Z walk <= 1)%Q).
    { apply Qle_shift_div_r; [assumption|]. now rewrite Qmult_1_l. }
    lra.
Qed.

Lemma frontier_sum_setitem_list (itx : ndarray Z) (g walk y x v : Z) (c : Z * Z) :
  forall l : list (Z * Z),
    NoDup l ->
    let f := fun a : ndarray Z =>
      fold_right (fun src acc =>
          ((if getitem a (fst src) (snd src) =? 1
            then triangular g walk src c else 0) + acc)%Q) 0%Q l in
    (In (y, x) l ->
     (f (setitem itx y x v)
      == f itx - (if getitem itx y x =? 1 then triangular g walk (y, x) c else 0)
         + (if v =? 1 then triangular g walk (y, x) c else 0))%Q)
    /\ (~ In (y, x) l -> (f (setitem itx y x v) == f itx)%Q).
Proof.
  induction l as [|[sy sx] l IH]; intros Hnd f.
  - split; [intros []|intros _; reflexivity].
  - inversion Hnd as [|? ? Hnotin Hnd']; subst.
    destruct (IH Hnd') as [IHin IHout]. clear IH.
    subst f. cbn [fold_right fst snd].
    destruct (cell_eq_dec (sy, sx) (y, x)) as [E|Hne].
    + inversion E; subst. split; [intros _|intro Hn; exfalso; apply Hn; now left].
      rewrite (IHout Hnotin). unfold getitem.
      rewrite item_setitem_same. lra.
    + split.
      * intros [E|Hi]; [congruence|].
        rewrite (IHin Hi). unfold getitem at 1.
        rewrite item_setitem_other by assumption. unfold getitem. lra.
      * intros Hn. rewrite IHout by (intro; apply Hn; now right).
        unfold getitem at 1. rewrite item_setitem_other by assumption.
        unfold getitem. lra.
Qed.

Lemma frontier_sum_setitem (itx : ndarray Z) (g walk y x v : Z) (c : Z * Z) :
  in_bounds itx y x ->
  (frontier_sum (setitem itx y x v) g walk c
   == frontier_sum itx g walk c
      - (if getitem itx y x =? 1 then triangular g walk (y, x) c else 0)
      + (if v =? 1 then triangular g walk (y, x) c else 0))%Q.
Proof.
  intro Hb. unfold frontier_sum.
  change (ndindex (setitem itx y x v)) with (ndindex itx).
  apply (frontier_sum_setitem_list itx g walk y x v c (ndindex itx)
           (NoDup_ndindex_shape _)).
  now apply in_ndindex.
Qed.

Lemma iter_nbs_in_bounds {A} (arr : ndarray A) (y x : Z) (rook : bool) (c : Z * Z) :
  In c (_iter_nbs arr y x rook) -> in_bounds arr (fst c) (snd c) /\ c <> (y, x).
Proof.
  unfold _iter_nbs. intro H. apply in_flat_map in H.
  destruct H as ([yo xo] & Hoff & Hc).
  destruct (Z.ltb_spec (y + yo) 0); simpl in Hc; [contradiction|].
  destruct (Z.leb_spec (shape0 arr) (y + yo)); simpl in Hc; [contradiction|].
  destruct (Z.ltb_spec (x + xo) 0); simpl in Hc; [contradiction|].
  destruct (Z.leb_spec (shape1 arr) (x + xo)); simpl in Hc; [contradiction|].
  destruct Hc as [<-|[]]. simpl. split; [unfold in_bounds; lia|].
  intro E. inversion E.
  destruct rook; simpl in Hoff;
    repeat (destruct Hoff as [Hoff|Hoff]; [inversion Hoff; subst; lia|]);
    contradiction.
Qed.

(** ** The working copy of [_green_state] *)

Lemma in_bounds_shape {A B} (a : ndarray A) (b : ndarray B) y x :
  shape0 a = shape0 b -> shape1 a = shape1 b ->
  in_bounds a y x <-> in_bounds b y x.
Proof. unfold in_bounds. intros -> ->. tauto. Qed.

Lemma green_consistent_shapes itx acc g walk :
  green_consistent itx acc g walk ->
  shape0 acc = shape0 itx /\ shape1 acc = shape1 itx.
Proof. intros [Hs _]. unfold shape in Hs. now inversion Hs. Qed.

Lemma activate_nb_step (state : ndarray Z) (g walk : Z)
    (itx : ndarray Z) (acc : ndarray Q) (ny nx : Z) :
  walk <> 0 ->
  in_bounds itx ny nx ->
  exists itx1 acc1,
    activate_nb state g walk (itx, acc) (ny, nx) = Ok (itx1, acc1)
    /\ (shape0 itx1 = shape0 itx /\ shape1 itx1 = shape1 itx)
    /\ (shape0 acc1 = shape0 acc /\ shape1 acc1 = shape1 acc)
    /\ (item state ny nx = 0 -> item itx ny nx = 0 -> item itx1 ny nx = 1)
    /\ (forall cy cx,
          ~ ((cy, cx) = (ny, nx) /\ item state ny nx = 0 /\ item itx ny nx = 0) ->
          item itx1 cy cx = item itx cy cx)
    /\ (green_consistent itx acc g walk -> green_consistent itx1 acc1 g walk)
    /\ (forall cy cx, in_bounds acc cy cx -> (item acc cy cx <= item acc1 cy cx)%Q).
Proof.
  intros Hw Hb. unfold activate_nb, getitem.
  destruct (Z.eqb_spec (item state ny nx) 0) as [Hs|Hs];
    [destruct (Z.eqb_spec (item itx ny nx) 0) as [Hi|Hi]|]; cbn [andb].
  - unfold _inc_access.
    destruct (agg_access_spec ny nx acc g walk true Hw)
      as (acc1 & Hrun & Hs0 & Hs1 & Hin & Hout).
    rewrite Hrun. cbn [bind].
    exists (setitem itx ny nx 1), acc1.
    split; [reflexivity|]. split; [now split|]. split; [now split|].
    split; [intros _ _; apply item_setitem_same|].
    split.
    { intros cy cx Hn. apply item_setitem_other. intro E. apply Hn. auto. }
    split.
    + intros Hc. destruct (green_consistent_shapes _ _ _ _ Hc) as [Sh0 Sh1].
      destruct Hc as [_ Hc]. split.
      * unfold shape. cbn [setitem shape0 shape1]. congruence.
      * intros cy cx Hb1.
        assert (Hb0 : in_bounds acc cy cx)
          by (apply (in_bounds_shape acc1 acc); assumption).
        unfold getitem. rewrite (Hin cy cx Hb0).
        rewrite frontier_sum_setitem by assumption.
        unfold getitem. rewrite Hi.
        change (0 =? 1) with false. change (1 =? 1) with true. cbv iota.
        specialize (Hc cy cx Hb0). unfold getitem in Hc. rewrite Hc. ring.
    + intros cy cx Hb0. rewrite (Hin cy cx Hb0).
      pose proof (triangular_nonneg g walk (ny, nx) (cy, cx)). lra.
  - exists itx, acc. split; [reflexivity|]. split; [now split|]. split; [now split|].
    split; [intros _ E; contradiction|].
    split; [reflexivity|]. split; [trivial|]. intros; apply Qle_refl.
  - exists itx, acc. split; [reflexivity|]. split; [now split|]. split; [now split|].
    split; [intros E; contradiction|].
    split; [reflexivity|]. split; [trivial|]. intros; apply Qle_refl.
Qed.

Lemma activate_loop (state : ndarray Z) (g walk : Z) :
  walk <> 0 ->
  forall (nbs : list (Z * Z)) (itx : ndarray Z) (acc : ndarray Q),
    (forall c, In c nbs -> in_bounds itx (fst c) (snd c)) ->
    exists itx' acc',
      for_each (activate_nb state g walk) (itx, acc) nbs = Ok (itx', acc')
      /\ (shape0 itx' = shape0 itx /\ shape1 itx' = shape1 itx)
      /\ (shape0 acc' = shape0 acc /\ shape1 acc' = shape1 acc)
      /\ (forall cy cx, In (cy, cx) nbs -> item state cy cx = 0 ->
            item itx cy cx = 0 -> item itx' cy cx = 1)
      /\ (forall cy cx,
            ~ (In (cy, cx) nbs /\ item state cy cx = 0 /\ item itx cy cx = 0) ->
            item itx' cy cx = item itx cy cx)
      /\ (green_consistent itx acc g walk -> green_consistent itx' acc' g walk)
      /\ (forall cy cx, in_bounds acc cy cx -> (item acc cy cx <= item acc' cy cx)%Q).
Proof.
  intro Hw. induction nbs as [|[ny nx] rest IH]; intros itx acc Hbs.
  - exists itx, acc. split; [reflexivity|]. split; [now split|]. split; [now split|].
    split; [intros ? ? []|]. split; [reflexivity|]. split; [trivial|].
    intros; apply Qle_refl.
  - destruct (activate_nb_step state g walk itx acc ny nx Hw)
      as (itx1 & acc1 & Hrun1 & [Si0 Si1] & [Sa0 Sa1] & Hset1 & Hkeep1 & Hc1 & Hm1).
    { apply (Hbs (ny, nx)). now left. }
    destruct (IH itx1 acc1)
      as (itx' & acc' & Hrun & [Ti0 Ti1] & [Ta0 Ta1] & Hset & Hkeep & Hc & Hm).
    { intros c Hc'. apply (in_bounds_shape itx1 itx); auto. apply Hbs. now right. }
    exists itx', acc'. cbn [for_each]. rewrite Hrun1. cbn [bind].
    split; [exact Hrun|]. split; [split; congruence|]. split; [split; congruence|].
    split; [|split; [|split]].
    + intros cy cx Hin Hst Hit.
      destruct (cell_eq_dec (cy, cx) (ny, nx)) as [E|Hne].
      * inversion E; subst.
        rewrite Hkeep; [now apply Hset1|].
        intros (_ & _ & H0). rewrite Hset1 in H0 by assumption. discriminate.
      * destruct Hin as [E|Hin]; [congruence|].
        apply Hset; try assumption.
        rewrite Hkeep1; [assumption|]. intros (E & _). congruence.
    + intros cy cx Hn.
      assert (K1 : item itx1 cy cx = item itx cy cx).
      { apply Hkeep1. intros (E & Hst & Hit). apply Hn. inversion E; subst.
        split; [now left|auto]. }
      rewrite Hkeep; [exact K1|].
      intros (Hin & Hst & Hit). apply Hn. split; [now right|]. split; congruence.
    + auto.
    + intros cy cx Hb. eapply Qle_trans; [apply Hm1; assumption|].
      apply Hm. apply (in_bounds_shape acc1 acc); assumption.
Qed.

Lemma green_state_work_spec (y x : Z) (state itx : ndarray Z) (acc : ndarray Q)
    (g walk : Z) :
  walk <> 0 ->
  in_bounds itx y x ->
  exists itx_w new,
    green_state_work y x state itx acc g walk = Ok (itx_w, new)
    /\ (shape0 itx_w = shape0 itx /\ shape1 itx_w = shape1 itx)
    /\ (shape0 new = shape0 acc /\ shape1 new = shape1 acc)
    /\ item itx_w y x = (if item itx y x =? 1 then 0 else item itx y x)
    /\ (forall cy cx, In (cy, cx) (_iter_nbs itx y x true) ->
          item state cy cx = 0 -> item itx cy cx = 0 -> item itx_w cy cx = 1)
    /\ (forall cy cx, (cy, cx) <> (y, x) ->
          ~ (In (cy, cx) (_iter_nbs itx y x true)
             /\ item state cy cx = 0 /\ item itx cy cx = 0) ->
          item itx_w cy cx = item itx cy cx)
    /\ (green_consistent itx acc g walk -> green_consistent itx_w new g walk)
    /\ (item itx y x <> 1 ->
        forall cy cx, in_bounds acc cy cx -> (item acc cy cx <= item new cy cx)%Q).
Proof.
  intros Hw Hb. unfold green_state_work, getitem.
  assert (Hself : forall c, In c (_iter_nbs itx y x true) -> c <> (y, x)).
  { intros c Hc. now apply (iter_nbs_in_bounds itx y x true c). }
  destruct (Z.eqb_spec (item itx y x) 1) as [H1|H1].
  - unfold _decr_access.
    destruct (agg_access_spec y x acc g walk false Hw)
      as (acc0 & Hrun0 & Hs0 & Hs1 & Hin0 & Hout0).
    rewrite Hrun0. cbn [bind].
    destruct (activate_loop state g walk Hw (_iter_nbs itx y x true)
                (setitem itx y x 0) acc0)
      as (itx' & acc' & Hrun & [Ti0 Ti1] & [Ta0 Ta1] & Hset & Hkeep & Hc & Hm).
    { intros c Hc. now apply (iter_nbs_in_bounds itx y x true c). }
    change (_iter_nbs (setitem itx y x 0) y x true) with (_iter_nbs itx y x true).
    exists itx', acc'. split; [exact Hrun|].
    split; [split; assumption|]. split; [split; congruence|].
    split; [|split; [|split; [|split]]].
    + rewrite Hkeep; [apply item_setitem_same|].
      intros (Hin & _). now apply (Hself _ Hin).
    + intros cy cx Hin Hst Hit. apply Hset; try assumption.
      rewrite item_setitem_other; [assumption|]. now apply Hself.
    + intros cy cx Hne Hn. rewrite Hkeep.
      * now apply item_setitem_other.
      * intros (Hin & Hst & Hit). apply Hn. split; [assumption|]. split; [assumption|].
        now rewrite item_setitem_other in Hit.
    + intros Hcons. apply Hc.
      destruct (green_consistent_shapes _ _ _ _ Hcons) as [Sh0 Sh1].
      destruct Hcons as [_ Hcons]. split.
      * unfold shape. cbn [setitem shape0 shape1]. congruence.
      * intros cy cx Hb1.
        assert (Hb0 : in_bounds acc cy cx)
          by (apply (in_bounds_shape acc0 acc); assumption).
        unfold getitem. rewrite (Hin0 cy cx Hb0).
        rewrite frontier_sum_setitem by assumption.
        unfold getitem. rewrite H1.
        change (0 =? 1) with false. change (1 =? 1) with true. cbv iota.
        specialize (Hcons cy cx Hb0). unfold getitem in Hcons. rewrite Hcons. ring.
    + intro Hn. contradiction.
  - cbn [bind].
    destruct (activate_loop state g walk Hw (_iter_nbs itx y x true) itx acc)
      as (itx' & acc' & Hrun & [Ti0 Ti1] & [Ta0 Ta1] & Hset & Hkeep & Hc & Hm).
    { intros c Hc. now apply (iter_nbs_in_bounds itx y x true c). }
    exists itx', acc'. split; [exact Hrun|].
    split; [split; assumption|]. split; [split; assumption|].
    split; [|split; [|split; [|split]]]; auto.
    apply Hkeep. intros (Hin & _). now apply (Hself _ Hin).
Qed.

(** ** Rollback *)

Lemma strands_iff (old new : ndarray Q) :
  strands old new = true <-> stranded old new.
Proof.
  unfold strands, stranded. rewrite existsb_exists. split.
  - intros ([cy cx] & Hin & Hc). apply filter_In in Hin. destruct Hin as [Hin Hd].
    apply andb_true_iff in Hc. destruct Hc as [Hz Hp].
    apply Qlt_bool_iff in Hd. apply Qeq_bool_iff in Hz. apply Qlt_bool_iff in Hp.
    exists cy, cx. split; [now apply in_ndindex|]. split; [lra|]. split; assumption.
  - intros (cy & cx & Hb & Hd & Hz & Hp). exists (cy, cx). split.
    + apply filter_In. split; [now apply in_ndindex|]. apply Qlt_bool_iff. lra.
    + apply andb_true_iff. split; [now apply Qeq_bool_iff|now apply Qlt_bool_iff].
Qed.

(** ** Loop invariants *)

Lemma for_each_preserves {S X} (body : S -> X -> result S) (P : S -> Prop)
    (xs : list X) :
  (forall s x s', In x xs -> body s x = Ok s' -> P s -> P s') ->
  forall s s', for_each body s xs = Ok s' -> P s -> P s'.
Proof.
  induction xs as [|x xs IH]; intros Hb s s' Hrun Hs; simpl in Hrun.
  - now inversion Hrun; subst.
  - destruct (body s x) as [s1|e] eqn:E; simpl in Hrun; [|discriminate].
    apply (IH (fun s0 x0 s0' Hin => Hb s0 x0 s0' (or_intror Hin)) s1 s' Hrun).
    apply (Hb s x s1); auto. now left.
Qed.

Lemma for_each_total {S X} (body : S -> X -> result S) (P : S -> Prop)
    (xs : list X) :
  (forall s x, In x xs -> P s -> exists s', body s x = Ok s' /\ P s') ->
  forall s, P s -> exists s', for_each body s xs = Ok s' /\ P s'.
Proof.
  induction xs as [|x xs IH]; intros Hb s Hs; simpl.
  - now exists s.
  - destruct (Hb s x (or_introl eq_refl) Hs) as (s1 & E & Hs1).
    rewrite E. simpl.
    apply IH; [|assumption]. intros s0 x0 Hin. apply Hb. now right.
Qed.

(** ** The frontier holds cells of nature only *)

Lemma activate_loop_nature (state : ndarray Z) (g walk : Z) :
  forall (nbs : list (Z * Z)) (itx : ndarray Z) (acc : ndarray Q) itx' acc',
    for_each (activate_nb state g walk) (itx, acc) nbs = Ok (itx', acc') ->
    (shape0 itx' = shape0 itx /\ shape1 itx' = shape1 itx)
    /\ forall cy cx,
         item itx' cy cx = item itx cy cx
         \/ (In (cy, cx) nbs /\ item state cy cx = 0 /\ item itx' cy cx = 1).
Proof.
  induction nbs as [|[ny nx] rest IH]; intros itx acc itx' acc' Hrun.
  - simpl in Hrun. inversion Hrun; subst. split; [now split|]. now left.
  - cbn [for_each] in Hrun.
    destruct (activate_nb state g walk (itx, acc) (ny, nx)) as [[itx1 acc1]|e] eqn:E;
      cbn [bind] in Hrun; [|discriminate].
    destruct (IH itx1 acc1 itx' acc' Hrun) as [[S0 S1] Hrest].
    unfold activate_nb, getitem in E.
    destruct (Z.eqb_spec (item state ny nx) 0) as [Hs|Hs];
      [destruct (Z.eqb_spec (item itx ny nx) 0) as [Hi|Hi]|]; cbn [andb] in E.
    + destruct (_inc_access ny nx acc g walk) as [a1|e]; cbn [bind] in E;
        [|discriminate].
      inversion E; subst itx1 acc1. cbn [setitem shape0 shape1] in S0, S1.
      split; [now split|].
      intros cy cx. destruct (Hrest cy cx) as [K|(Hin & Hst & H1)].
      * destruct (cell_eq_dec (cy, cx) (ny, nx)) as [Eq|Hne].
        -- inversion Eq; subst. rewrite item_setitem_same in K.
           right. split; [now left|]. split; assumption.
        -- rewrite item_setitem_other in K by assumption. now left.
      * right. split; [now right|]. split; assumption.
    + inversion E; subst itx1 acc1. split; [now split|].
      intros cy cx. destruct (Hrest cy cx) as [K|(Hin & Hst & H1)]; [now left|].
      right. split; [now right|]. split; assumption.
    + inversion E; subst itx1 acc1. split; [now split|].
      intros cy cx. destruct (Hrest cy cx) as [K|(Hin & Hst & H1)]; [now left|].
      right. split; [now right|]. split; assumption.
Qed.

Lemma green_state_work_nature (y x : Z) (state itx : ndarray Z) (acc : ndarray Q)
    (g walk : Z) itx_w new :
  green_state_work y x state itx acc g walk = Ok (itx_w, new) ->
  (shape0 itx_w = shape0 itx /\ shape1 itx_w = shape1 itx)
  /\ item itx_w y x <> 1
  /\ (item itx y x <> 1 -> item itx_w y x = item itx y x)
  /\ forall cy cx, item itx_w cy cx = 1 ->
       item itx cy cx = 1 \/ item state cy cx = 0.
Proof.
  unfold green_state_work, getitem. intro Hrun.
  assert (Hself : forall c, In c (_iter_nbs itx y x true) -> c <> (y, x)).
  { intros c Hc. now apply (iter_nbs_in_bounds itx y x true c). }
  destruct (Z.eqb_spec (item itx y x) 1) as [H1|H1].
  - destruct (_decr_access y x acc g walk) as [acc0|e]; cbn [bind] in Hrun;
      [|discriminate].
    change (_iter_nbs (setitem itx y x 0) y x true)
      with (_iter_nbs itx y x true) in Hrun.
    destruct (activate_loop_nature state g walk _ _ _ _ _ Hrun) as [[S0 S1] Hc].
    cbn [setitem shape0 shape1] in S0, S1.
    split; [now split|]. split; [|split].
    + destruct (Hc y x) as [K|(Hin & _)].
      * rewrite K, item_setitem_same. discriminate.
      * exfalso. now apply (Hself _ Hin).
    + intro. contradiction.
    + intros cy cx Hw. destruct (Hc cy cx) as [K|(_ & Hst & _)]; [|now right].
      left. destruct (cell_eq_dec (cy, cx) (y, x)) as [Eq|Hne].
      * inversion Eq; subst. rewrite item_setitem_same in K. congruence.
      * rewrite item_setitem_other in K by assumption. congruence.
  - cbn [bind] in Hrun.
    destruct (activate_loop_nature state g walk _ _ _ _ _ Hrun) as [[S0 S1] Hc].
    split; [now split|].
    assert (Hyx : item itx_w y x = item itx y x).
    { destruct (Hc y x) as [K|(Hin & _)]; [assumption|].
      exfalso. now apply (Hself _ Hin). }
    split; [congruence|]. split; [auto|].
    intros cy cx Hw. destruct (Hc cy cx) as [K|(_ & Hst & _)]; [|now right].
    left. congruence.
Qed.

Lemma green_state_nature (y x : Z) (state itx : ndarray Z) (acc : ndarray Q)
    (g walk : Z) (b : bool) itx' acc' :
  _green_state y x state itx acc g walk = Ok (b, itx', acc') ->
  frontier_is_nature state itx ->
  (shape0 itx' = shape0 itx /\ shape1 itx' = shape1 itx)
  /\ getitem itx' y x <> 1
  /\ frontier_is_nature state itx'.
Proof.
  unfold _green_state. intros Hrun Hnat.
  destruct (green_state_work y x state itx acc g walk) as [[itx_w new]|e] eqn:E;
    cbn [bind] in Hrun; [|discriminate].
  destruct (green_state_work_nature _ _ _ _ _ _ _ _ _ E) as ([S0 S1] & Hyx & _ & Hc).
  destruct (strands acc new); inversion Hrun; subst.
  - cbn [setitem shape0 shape1]. split; [now split|]. split.
    + unfold getitem. rewrite item_setitem_same. discriminate.
    + intros cy cx H1. unfold getitem in H1.
      destruct (cell_eq_dec (cy, cx) (y, x)) as [Eq|Hne].
      * inversion Eq; subst. rewrite item_setitem_same in H1. discriminate.
      * rewrite item_setitem_other in H1 by assumption.
        destruct (Hc cy cx H1) as [K|K]; [now apply Hnat|exact K].
  - split; [now split|]. split; [exact Hyx|].
    intros cy cx H1. destruct (Hc cy cx H1) as [K|K]; [now apply Hnat|exact K].
Qed.

Lemma compute_green_itx_nature (state : ndarray Z) (g walk : Z) itx acc :
  _compute_green_itx state g walk = Ok (itx, acc) ->
  frontier_is_nature state itx.
Proof.
  unfold _compute_green_itx. intro Hrun.
  refine (for_each_preserves _
            (fun s : ndarray Z * ndarray Q => frontier_is_nature state (fst s))
            _ _ _ _ Hrun _).
  - intros [itx0 acc0] [y x] [itx1 acc1] _ Hb Hn. cbn [fst] in *.
    destruct (getitem state y x <? 1); [now inversion Hb; subst|].
    destruct (_green_state y x state itx0 acc0 g walk) as [[[b i] a]|e] eqn:E;
      cbn [bind] in Hb; [|discriminate].
    inversion Hb; subst.
    now apply (green_state_nature _ _ _ _ _ _ _ _ _ _ E).
  - intros cy cx H. discriminate.
Qed.

(** ** Rollback, in full *)

Lemma activate_loop_marks (state : ndarray Z) (g walk : Z) :
  forall (nbs : list (Z * Z)) (itx : ndarray Z) (acc : ndarray Q) itx' acc',
    for_each (activate_nb state g walk) (itx, acc) nbs = Ok (itx', acc') ->
    forall cy cx, In (cy, cx) nbs -> item state cy cx = 0 ->
                  item itx cy cx = 0 -> item itx' cy cx = 1.
Proof.
  induction nbs as [|[ny nx] rest IH]; intros itx acc itx' acc' Hrun cy cx Hin Hs Hi.
  - contradiction.
  - cbn [for_each] in Hrun.
    destruct (activate_nb state g walk (itx, acc) (ny, nx)) as [[itx1 acc1]|e] eqn:E;
      cbn [bind] in Hrun; [|discriminate].
    destruct (activate_loop_nature state g walk _ _ _ _ _ Hrun) as [_ Hrest].
    unfold activate_nb, getitem in E.
    destruct (cell_eq_dec (cy, cx) (ny, nx)) as [Eq|Hne].
    + inversion Eq; subst. rewrite Hs, Hi in E. cbn in E.
      destruct (_inc_access ny nx acc g walk) as [a1|e]; cbn [bind] in E;
        [|discriminate].
      inversion E; subst.
      destruct (Hrest ny nx) as [K|(_ & _ & K)]; [|exact K].
      rewrite K. apply item_setitem_same.
    + destruct Hin as [Eq|Hin]; [congruence|].
      apply (IH _ _ _ _ Hrun cy cx Hin Hs).
      destruct (_ && _).
      * destruct (_inc_access ny nx acc g walk) as [a1|e]; cbn [bind] in E;
          [|discriminate].
        inversion E; subst. now rewrite item_setitem_other.
      * inversion E; subst. exact Hi.
Qed.

Lemma green_state_work_marks (y x : Z) (state itx : ndarray Z) (acc : ndarray Q)
    (g walk : Z) itx_w new :
  green_state_work y x state itx acc g walk = Ok (itx_w, new) ->
  item itx_w y x = (if item itx y x =? 1 then 0 else item itx y x)
  /\ forall cy cx, In (cy, cx) (_iter_nbs itx y x true) ->
       item state cy cx = 0 -> item itx cy cx = 0 -> item itx_w cy cx = 1.
Proof.
  unfold green_state_work, getitem. intro Hrun.
  assert (Hself : forall c, In c (_iter_nbs itx y x true) -> c <> (y, x)).
  { intros c Hc. now apply (iter_nbs_in_bounds itx y x true c). }
  destruct (Z.eqb_spec (item itx y x) 1) as [H1|H1].
  - destruct (_decr_access y x acc g walk) as [acc0|e]; cbn [bind] in Hrun;
      [|discriminate].
    change (_iter_nbs (setitem itx y x 0) y x true)
      with (_iter_nbs itx y x true) in Hrun.
    split.
    + destruct (activate_loop_nature state g walk _ _ _ _ _ Hrun) as [_ Hc].
      destruct (Hc y x) as [K|(Hin & _)].
      * rewrite K. apply item_setitem_same.
      * exfalso. now apply (Hself _ Hin).
    + intros cy cx Hin Hs Hi.
      apply (activate_loop_marks state g walk _ _ _ _ _ Hrun cy cx Hin Hs).
      rewrite item_setitem_other; [exact Hi|]. now apply Hself.
  - cbn [bind] in Hrun. split.
    + destruct (activate_loop_nature state g walk _ _ _ _ _ Hrun) as [_ Hc].
      destruct (Hc y x) as [K|(Hin & _)]; [exact K|].
      exfalso. now apply (Hself _ Hin).
    + intros cy cx Hin Hs Hi.
      now apply (activate_loop_marks state g walk _ _ _ _ _ Hrun cy cx Hin Hs).
Qed.



(** ** The green access surface and the frontier *)

Lemma frontier_sum_full (s : Z * Z) (g walk : Z) (c : Z * Z) :
  (frontier_sum (full s 0%Z) g walk c == 0)%Q.
Proof.
  unfold frontier_sum. induction (ndindex (full s 0%Z)) as [|a l IH]; simpl.
  - reflexivity.
  - rewrite IH. ring.
Qed.

Lemma green_state_success (y x : Z) (state itx : ndarray Z) (acc : ndarray Q)
    (g walk : Z) :
  walk <> 0 ->
  in_bounds itx y x ->
  green_consistent itx acc g walk ->
  exists b itx' acc',
    _green_state y x state itx acc g walk = Ok (b, itx', acc')
    /\ (b = true -> green_consistent itx' acc' g walk)
    /\ (getitem itx y x <> 1 -> b = true).
Proof.
  intros Hw Hb Hc.
  destruct (green_state_work_spec y x state itx acc g walk Hw Hb)
    as (itx_w & new & Hrun & _ & _ & _ & _ & _ & Hcons & Hmono).
  unfold _green_state. rewrite Hrun. cbn [bind].
  destruct (strands acc new) eqn:E.
  - eexists _, _, _. split; [reflexivity|]. split; [discriminate|].
    intro H1. exfalso. apply strands_iff in E.
    destruct E as (cy & cx & Hbc & Hd & _).
    specialize (Hmono H1 cy cx Hbc). unfold getitem in Hd. lra.
  - eexists _, _, _. split; [reflexivity|]. split; auto.
Qed.

Lemma compute_green_itx_consistent (state : ndarray Z) (g walk : Z) :
  walk <> 0 ->
  exists itx acc,
    _compute_green_itx state g walk = Ok (itx, acc)
    /\ green_consistent itx acc g walk
    /\ (shape0 itx = shape0 state /\ shape1 itx = shape1 state).
Proof.
  intro Hw. unfold _compute_green_itx.
  destruct (for_each_total
    (fun '(green_itx_arr, green_acc_arr) '(y_idx, x_idx) =>
       if getitem state y_idx x_idx <? 1 then Ok (green_itx_arr, green_acc_arr)
       else
         '(_success, green_itx_arr, green_acc_arr) <-
            _green_state y_idx x_idx state green_itx_arr green_acc_arr g walk ;;
         Ok (green_itx_arr, green_acc_arr))
    (fun s : ndarray Z * ndarray Q =>
       (shape0 (fst s) = shape0 state /\ shape1 (fst s) = shape1 state)
       /\ green_consistent (fst s) (snd s) g walk
       /\ frontier_is_nature state (fst s))
    (ndindex state)) with (s := (full (shape state) 0, full (shape state) 0%Q))
    as ([itx acc] & Hrun & Hs & Hc & _).
  - intros [itx acc] [y x] Hin ([S0 S1] & Hc & Hn). cbn [fst snd] in *.
    apply in_ndindex in Hin.
    destruct (Z.ltb_spec (getitem state y x) 1) as [Hlt|Hge].
    { eexists. split; [reflexivity|]. cbn [fst snd]. auto. }
    assert (Hb : in_bounds itx y x) by (apply (in_bounds_shape itx state); auto).
    assert (H1 : getitem itx y x <> 1).
    { intro H1. apply Hn in H1. lia. }
    destruct (green_state_success y x state itx acc g walk Hw Hb Hc)
      as (b & itx' & acc' & Hrun & Hcons & Hb1).
    rewrite Hrun. cbn [bind]. eexists. split; [reflexivity|]. cbn [fst snd].
    destruct (green_state_nature _ _ _ _ _ _ _ _ _ _ Hrun Hn) as ([T0 T1] & _ & Hn').
    split; [split; congruence|]. split; [|assumption].
    apply Hcons. now apply Hb1.
  - cbn [fst snd]. split; [now split|]. split.
    + split; [reflexivity|]. intros cy cx _. unfold getitem. cbn [full item].
      now rewrite frontier_sum_full.
    + intros cy cx H. discriminate.
  - exists itx, acc. auto.
Qed.

(** ** A walking radius of zero *)

Lemma agg_access_zero_walk (y x : Z) (arr : ndarray Q) (g : Z) (positive : bool) :
  in_bounds arr y x ->
  _agg_access y x arr g 0 positive = Raise ZeroDivisionError.
Proof.
  intro Hb. apply in_ndindex in Hb. unfold _agg_access.
  revert Hb. generalize (ndindex arr) as l. clear. intros l. revert arr.
  induction l as [|[cy cx] l IH]; intros arr Hin; [contradiction|].
  cbn [for_each].
  destruct (cell_eq_dec (cy, cx) (y, x)) as [E|Hne].
  - inversion E; subst. rewrite !Z.sub_diag. reflexivity.
  - destruct Hin as [E|Hin]; [congruence|].
    destruct (Qlt_bool _ _); cbn [bind]; [now apply IH|].
    reflexivity.
Qed.

Lemma activate_loop_zero_walk (state : ndarray Z) (g : Z) :
  forall (nbs : list (Z * Z)) (itx : ndarray Z) (acc : ndarray Q) itx' acc',
    (forall c, In c nbs -> in_bounds acc (fst c) (snd c)) ->
    for_each (activate_nb state g 0) (itx, acc) nbs = Ok (itx', acc') ->
    itx' = itx /\ acc' = acc.
Proof.
  induction nbs as [|[ny nx] rest IH]; intros itx acc itx' acc' Hbs Hrun.
  - simpl in Hrun. inversion Hrun. auto.
  - cbn [for_each] in Hrun. unfold activate_nb at 1 in Hrun.
    destruct (_ && _).
    + unfold _inc_access in Hrun. rewrite agg_access_zero_walk in Hrun.
      * discriminate.
      * apply (Hbs (ny, nx)). now left.
    + cbn [bind] in Hrun. apply (IH _ _ _ _ (fun c Hc => Hbs c (or_intror Hc)) Hrun).
Qed.

Lemma strands_same (acc : ndarray Q) : strands acc acc = false.
Proof.
  destruct (strands acc acc) eqn:E; [|reflexivity].
  apply strands_iff in E. destruct E as (cy & cx & _ & Hd & _). lra.
Qed.

Lemma green_state_zero_walk (y x : Z) (state itx : ndarray Z) (acc : ndarray Q)
    (g : Z) (b : bool) itx' acc' :
  in_bounds itx y x ->
  shape0 acc = shape0 itx -> shape1 acc = shape1 itx ->
  _green_state y x state itx acc g 0 = Ok (b, itx', acc') ->
  b = true /\ itx' = itx /\ acc' = acc.
Proof.
  intros Hb S0 S1 Hrun. unfold _green_state, green_state_work in Hrun.
  assert (Hba : in_bounds acc y x) by (apply (in_bounds_shape acc itx); assumption).
  destruct (getitem itx y x =? 1).
  - unfold _decr_access in Hrun. rewrite agg_access_zero_walk in Hrun by assumption.
    discriminate.
  - cbn [bind] in Hrun.
    destruct (for_each _ _ _) as [[itx_w new]|e] eqn:E; cbn [bind] in Hrun;
      [|discriminate].
    apply activate_loop_zero_walk in E.
    + destruct E; subst. rewrite strands_same in Hrun. inversion Hrun. auto.
    + intros c Hc. apply (in_bounds_shape acc itx); try assumption.
      now apply (iter_nbs_in_bounds itx y x true c).
Qed.

Lemma green_state_keeps_consistent (y x : Z) (state itx : ndarray Z)
    (acc : ndarray Q) (g walk : Z) (b : bool) itx' acc' :
  in_bounds itx y x ->
  green_consistent itx acc g walk ->
  _green_state y x state itx acc g walk = Ok (b, itx', acc') ->
  (b = true -> green_consistent itx' acc' g walk)
  /\ (getitem itx y x <> 1 -> b = true).
Proof.
  intros Hb Hc Hrun. destruct (Z.eq_dec walk 0) as [->|Hw].
  - destruct (green_consistent_shapes _ _ _ _ Hc) as [S0 S1].
    destruct (green_state_zero_walk _ _ _ _ _ _ _ _ _ Hb S0 S1 Hrun)
      as (-> & -> & ->). auto.
  - destruct (green_state_success y x state itx acc g walk Hw Hb Hc)
      as (b0 & i0 & a0 & Hr & Hcons & Hb1).
    rewrite Hrun in Hr. inversion Hr; subst. auto.
Qed.

Lemma compute_green_itx_keeps_consistent (state : ndarray Z) (g walk : Z) itx acc :
  _compute_green_itx state g walk = Ok (itx, acc) ->
  green_consistent itx acc g walk.
Proof.
  unfold _compute_green_itx. intro Hrun.
  refine (proj1 (proj2 (for_each_preserves _
    (fun s : ndarray Z * ndarray Q =>
       (shape0 (fst s) = shape0 state /\ shape1 (fst s) = shape1 state)
       /\ green_consistent (fst s) (snd s) g walk
       /\ frontier_is_nature state (fst s))
    _ _ _ _ Hrun _))).
  - intros [itx0 acc0] [y x] [itx1 acc1] Hin Hb ([S0 S1] & Hc & Hn). cbn [fst snd] in *.
    apply in_ndindex in Hin.
    destruct (Z.ltb_spec (getitem state y x) 1) as [Hlt|Hge].
    { inversion Hb; subst. auto. }
    destruct (_green_state y x state itx0 acc0 g walk) as [[[b i] a0]|e] eqn:E;
      cbn [bind] in Hb; [|discriminate].
    inversion Hb; subst.
    assert (Hbi : in_bounds itx0 y x) by (apply (in_bounds_shape itx0 state); auto).
    destruct (green_state_nature _ _ _ _ _ _ _ _ _ _ E Hn) as ([T0 T1] & _ & Hn').
    destruct (green_state_keeps_consistent _ _ _ _ _ _ _ _ _ _ Hbi Hc E)
      as (Hcons & Hb1).
    split; [split; congruence|]. split; [|assumption].
    apply Hcons, Hb1. intro H1. apply Hn in H1. lia.
  - cbn [fst snd]. split; [now split|]. split.
    + split; [reflexivity|]. intros cy cx _. unfold getitem. cbn [full item].
      now rewrite frontier_sum_full.
    + intros cy cx H. discriminate.
Qed.

Section Invariant.

Context {ext : Externals}.

Lemma Land_init_fields (a : LandArgs) (w : World) (L : Land) (w' : World) :
  Land_init a w = Ok (L, w') ->
  granularity_m L = arg_granularity_m a
  /\ walk_dist_m L = arg_walk_dist_m a
  /\ exists st,
       state_arr L = st
       /\ _compute_green_itx st (arg_granularity_m a) (arg_walk_dist_m a)
          = Ok (green_itx_arr L, green_acc_arr L).
Proof.
  unfold Land_init. intro H.
  destruct (Qlt_bool _ _); [discriminate|].
  destruct (for_each _ _ (arg_centre_seeds a)) as [st|e]; cbn [bind] in H;
    [|discriminate].
  destruct (_compute_green_itx st _ _) as [[itx acc]|e] eqn:E; cbn [bind] in H;
    [|discriminate].
  destruct (_compute_centres_access st _ _) as [cent|e]; cbn [bind] in H;
    [|discriminate].
  inversion H; subst. cbn. split; [reflexivity|]. split; [reflexivity|].
  exists st. split; [reflexivity|exact E].
Qed.

Lemma Land_init_consistent (a : LandArgs) (w : World) (L : Land) (w' : World) :
  Land_init a w = Ok (L, w') ->
  green_consistent (green_itx_arr L) (green_acc_arr L)
    (granularity_m L) (walk_dist_m L).
Proof.
  intros Hinit.
  destruct (Land_init_fields a w L w' Hinit) as (Hg & Hwk & st & _ & Hrun).
  rewrite Hg, Hwk. now apply (compute_green_itx_keeps_consistent st).
Qed.


End Invariant.



(** ** The scan of a growth step *)

Section Scan.

Context {ext : Externals}.

Lemma claim_built_visit (s s' : scan) (y x : Z) :
  claim_built s y x = Ok s' ->
  frontier_is_nature (state_arr (self s)) (green_itx_arr (self s)) ->
  item (state_arr (self s)) y x = 0 ->
  cell_visit s s' y x.
Proof.
  unfold claim_built. intros Hrun Hn H0.
  destruct (_green_state y x (state_arr (self s)) (green_itx_arr (self s))
              (green_acc_arr (self s)) (granularity_m (self s))
              (walk_dist_m (self s))) as [[[b itx] acc]|e] eqn:E;
    cbn [bind] in Hrun; [|discriminate].
  destruct (green_state_nature _ _ _ _ _ _ _ _ _ _ E Hn) as (_ & Hyx & Hn').
  destruct b.
  - unfold set_random_density in Hrun.
    destruct (_random_density _ _ _) as [d g]. inversion Hrun; subst s'. clear Hrun.
    unfold cell_visit. cbn.
    split; [|split; [now split|split; [|split; [|reflexivity]]]].
    + intros cy cx H1. unfold getitem in *.
      destruct (cell_eq_dec (cy, cx) (y, x)) as [Eq|Hne].
      * inversion Eq; subst. contradiction.
      * rewrite item_setitem_other by assumption. now apply Hn'.
    + intros cy cx Hne.
      destruct (Z.eqb_spec cy y), (Z.eqb_spec cx x); simpl; try reflexivity.
      subst. now contradiction Hne.
    + right. left. rewrite !Z.eqb_refl. simpl. auto.
  - inversion Hrun; subst s'. clear Hrun. unfold cell_visit. cbn.
    split; [exact Hn'|]. split; [now split|]. split; [reflexivity|].
    split; [left; auto|reflexivity].
Qed.

Lemma claim_centre_visit (s s' : scan) (y x : Z) :
  claim_centre s y x = Ok s' ->
  frontier_is_nature (state_arr (self s)) (green_itx_arr (self s)) ->
  item (state_arr (self s)) y x = 0 ->
  cell_visit s s' y x.
Proof.
  unfold claim_centre. intros Hrun Hn H0.
  destruct (_green_state y x (state_arr (self s)) (green_itx_arr (self s))
              (green_acc_arr (self s)) (granularity_m (self s))
              (walk_dist_m (self s))) as [[[b itx] acc]|e] eqn:E;
    cbn [bind] in Hrun; [|discriminate].
  destruct (green_state_nature _ _ _ _ _ _ _ _ _ _ E Hn) as (_ & Hyx & Hn').
  destruct b.
  - destruct (_inc_access _ _ _ _ _) as [cent|e]; cbn [bind] in Hrun; [|discriminate].
    unfold set_random_density in Hrun.
    destruct (_random_density _ _ _) as [d g]. inversion Hrun; subst s'. clear Hrun.
    unfold cell_visit. cbn.
    split; [|split; [now split|split; [|split; [|reflexivity]]]].
    + intros cy cx H1. unfold getitem in *.
      destruct (cell_eq_dec (cy, cx) (y, x)) as [Eq|Hne].
      * inversion Eq; subst. contradiction.
      * rewrite item_setitem_other by assumption. now apply Hn'.
    + intros cy cx Hne.
      destruct (Z.eqb_spec cy y), (Z.eqb_spec cx x); simpl; try reflexivity.
      subst. now contradiction Hne.
    + right. right. rewrite !Z.eqb_refl. simpl. auto.
  - inversion Hrun; subst s'. clear Hrun. unfold cell_visit. cbn.
    split; [exact Hn'|]. split; [now split|]. split; [reflexivity|].
    split; [left; auto|reflexivity].
Qed.

Lemma cell_visit_refl (s : scan) (y x : Z) :
  frontier_is_nature (state_arr (self s)) (green_itx_arr (self s)) ->
  cell_visit s s y x.
Proof.
  intro Hn. unfold cell_visit. split; [exact Hn|]. split; [now split|].
  split; [reflexivity|]. split; [left; auto|reflexivity].
Qed.

Lemma cell_visit_world (s : scan) (w : World) (y x : Z) (s' : scan) :
  log w = log (world s) ->
  cell_visit (mk_scan (self s) w (added_blocks s) (added_centrality s)) s' y x ->
  cell_visit s s' y x.
Proof.
  intros Hl (H1 & H2 & H3 & H4 & H5). unfold cell_visit. cbn in *.
  split; [exact H1|]. split; [exact H2|]. split; [exact H3|].
  split; [exact H4|]. congruence.
Qed.

Lemma iter_cell_visit (areas : ndarray Z) (cell_area : Z) (s s' : scan) (y x : Z) :
  iter_cell areas cell_area s (y, x) = Ok s' ->
  frontier_is_nature (state_arr (self s)) (green_itx_arr (self s)) ->
  cell_visit s s' y x.
Proof.
  unfold iter_cell. intros Hrun Hn.
  assert (Hsame : forall r, Ok s = r -> r = Ok s' -> cell_visit s s' y x).
  { intros r <- E. inversion E; subst. now apply cell_visit_refl. }
  assert (Hdraw : forall w, log w = log (world s) ->
             Ok (mk_scan (self s) w (added_blocks s) (added_centrality s)) = Ok s' ->
             cell_visit s s' y x).
  { intros w Hl E. inversion E; subst. apply (cell_visit_world s w); [assumption|].
    now apply cell_visit_refl. }
  destruct (Z.eqb_spec (getitem (green_itx_arr (self s)) y x) 1) as [H1|H1].
  - assert (H0 : item (state_arr (self s)) y x = 0) by now apply Hn.
    destruct (_ && _); [now apply (Hsame _ eq_refl)|].
    destruct (green_rays _ _ _ _ _ _) as [spans|e]; cbn [bind] in Hrun;
      [|discriminate].
    destruct spans; cbn [negb] in Hrun; [|now apply (Hsame _ eq_refl)].
    destruct (_count_cont_nbs _ _ _ [1; 2]) as [urban_nbs urban_regions].
    destruct (_count_cont_nbs _ _ _ [0]) as [green_nbs green_regions].
    unfold np_rand, rand in Hrun.
    destruct (Qlt_bool 0 _).
    + destruct (Qlt_bool _ (build_prob _)); [|refine (Hdraw _ _ Hrun); reflexivity].
      destruct (iters (self s) =? 14).
      * eapply cell_visit_world; [|eapply claim_built_visit; eauto]. reflexivity.
      * eapply cell_visit_world; [|eapply claim_built_visit; eauto]. reflexivity.
    + destruct (Qlt_bool _ (cent_prob_nb _)); [|refine (Hdraw _ _ Hrun); reflexivity].
      eapply cell_visit_world; [|eapply claim_centre_visit; eauto]. reflexivity.
  - destruct (Z.eqb_spec (getitem (state_arr (self s)) y x) 0) as [H0|H0];
      [|now apply (Hsame _ eq_refl)].
    unfold np_rand, rand in Hrun.
    destruct (Qlt_bool _ (cent_prob_isol _)); [|refine (Hdraw _ _ Hrun); reflexivity].
    eapply cell_visit_world; [|eapply claim_centre_visit; eauto]. reflexivity.
Qed.

End Scan.

Section Steps.

Context {ext : Externals}.

Lemma scan_visits (areas : ndarray Z) (cell_area : Z) :
  forall (l : list (Z * Z)),
    NoDup l ->
    forall s s' : scan,
      for_each (iter_cell areas cell_area) s l = Ok s' ->
      frontier_is_nature (state_arr (self s)) (green_itx_arr (self s)) ->
      let st := state_arr (self s) in
      let st' := state_arr (self s') in
      let became cls :=
        len (filter (fun c => negb (getitem st (fst c) (snd c) =? cls)
                              && (getitem st' (fst c) (snd c) =? cls)) l) in
      frontier_is_nature st' (green_itx_arr (self s'))
      /\ (shape0 st' = shape0 st /\ shape1 st' = shape1 st)
      /\ (forall cy cx, ~ In (cy, cx) l -> item st' cy cx = item st cy cx)
      /\ (forall cy cx,
            item st' cy cx = item st cy cx
            \/ (item st cy cx = 0 /\ (item st' cy cx = 1 \/ item st' cy cx = 2)))
      /\ added_blocks s' = added_blocks s + became 1
      /\ added_centrality s' = added_centrality s + became 2
      /\ log (world s') = log (world s).
Proof.
  induction l as [|[y x] rest IH]; intros Hnd s s' Hrun Hn; cbn zeta.
  - simpl in Hrun. inversion Hrun; subst. cbn [filter len List.length].
    split; [exact Hn|]. split; [now split|]. split; [reflexivity|].
    split; [now left|]. split; [unfold len; simpl; lia|].
    split; [unfold len; simpl; lia|reflexivity].
  - inversion Hnd as [|? ? Hnotin Hnd']; subst.
    cbn [for_each] in Hrun.
    destruct (iter_cell areas cell_area s (y, x)) as [s1|e] eqn:E;
      cbn [bind] in Hrun; [|discriminate].
    destruct (iter_cell_visit areas cell_area s s1 y x E Hn)
      as (Hn1 & [S0 S1] & Hframe & Hcase & Hlog1).
    destruct (IH Hnd' s1 s' Hrun Hn1)
      as (Hn' & [T0 T1] & Hout & Htrans & Hab & Hac & Hlog).
    cbn zeta in Hab, Hac.
    assert (Hyx : item (state_arr (self s')) y x = item (state_arr (self s1)) y x)
      by now apply Hout.
    assert (Hrest : forall cls,
      filter (fun c => negb (getitem (state_arr (self s)) (fst c) (snd c) =? cls)
                       && (getitem (state_arr (self s')) (fst c) (snd c) =? cls)) rest
      = filter (fun c => negb (getitem (state_arr (self s1)) (fst c) (snd c) =? cls)
                         && (getitem (state_arr (self s')) (fst c) (snd c) =? cls)) rest).
    { intro cls. apply filter_ext_in. intros [cy cx] Hin. cbn [fst snd].
      unfold getitem. rewrite Hframe; [reflexivity|].
      intro Eq. inversion Eq; subst. contradiction. }
    split; [exact Hn'|]. split; [split; congruence|].
    split; [|split; [|split; [|split]]].
    + intros cy cx Hni. rewrite Hout by (intro; apply Hni; now right).
      apply Hframe. intro Eq. apply Hni. now left.
    + intros cy cx. destruct (cell_eq_dec (cy, cx) (y, x)) as [Eq|Hne].
      * inversion Eq; subst. rewrite Hyx.
        destruct Hcase as [(K & _)|[(K0 & K1 & _)|(K0 & K1 & _)]]; auto.
      * rewrite <- (Hframe cy cx Hne). apply Htrans.
    + cbn [filter fst snd]. rewrite Hrest, Hab. unfold getitem. rewrite Hyx.
      destruct Hcase as [(K & Kb & _)|[(K0 & K1 & Kb & _)|(K0 & K1 & Kb & _)]].
      * rewrite K, Kb.
        destruct (item (state_arr (self s)) y x =? 1); cbn [negb andb]; lia.
      * rewrite K0, K1, Kb. cbn. unfold len. cbn [List.length]. lia.
      * rewrite K0, K1, Kb. cbn. lia.
    + cbn [filter fst snd]. rewrite Hrest, Hac. unfold getitem. rewrite Hyx.
      destruct Hcase as [(K & _ & Kc)|[(K0 & K1 & _ & Kc)|(K0 & K1 & _ & Kc)]].
      * rewrite K, Kc.
        destruct (item (state_arr (self s)) y x =? 2); cbn [negb andb]; lia.
      * rewrite K0, K1, Kc. cbn. lia.
      * rewrite K0, K1, Kc. cbn. unfold len. cbn [List.length]. lia.
    + congruence.
Qed.

Lemma iter_scan_visits (L : Land) (w : World) (s' : scan) :
  iter_scan L w = Ok s' ->
  frontier_is_nature (state_arr L) (green_itx_arr L) ->
  frontier_is_nature (state_arr (self s')) (green_itx_arr (self s'))
  /\ (forall cy cx,
        item (state_arr (self s')) cy cx = item (state_arr L) cy cx
        \/ (item (state_arr L) cy cx = 0
            /\ (item (state_arr (self s')) cy cx = 1
                \/ item (state_arr (self s')) cy cx = 2)))
  /\ added_blocks s' = count_became (state_arr L) (state_arr (self s')) 1
  /\ added_centrality s' = count_became (state_arr L) (state_arr (self s')) 2
  /\ log (world s') = log w.
Proof.
  unfold iter_scan. intros Hrun Hn.
  apply scan_visits in Hrun; [|apply NoDup_ndindex_shape|exact Hn].
  cbn in Hrun. destruct Hrun as (Hn' & _ & _ & Htrans & Hab & Hac & Hlog).
  split; [exact Hn'|]. split; [exact Htrans|].
  unfold count_became. split; [exact Hab|]. split; [exact Hac|exact Hlog].
Qed.

Lemma iter_land_isobenefit_visits (L : Land) (w : World) r (L' : Land) (w' : World) :
  iter_land_isobenefit L w = Ok (r, L', w') ->
  frontier_is_nature (state_arr L) (green_itx_arr L) ->
  frontier_is_nature (state_arr L') (green_itx_arr L')
  /\ forall cy cx,
       item (state_arr L') cy cx = item (state_arr L) cy cx
       \/ (item (state_arr L) cy cx = 0
           /\ (item (state_arr L') cy cx = 1 \/ item (state_arr L') cy cx = 2)).
Proof.
  unfold iter_land_isobenefit. intros Hrun Hn.
  destruct (iter_scan L w) as [s|e] eqn:E; cbn [bind] in Hrun; [|discriminate].
  inversion Hrun; subst.
  destruct (iter_scan_visits L w s E Hn) as (Hn' & Htrans & _). auto.
Qed.

Lemma Land_init_nature (a : LandArgs) (w : World) (L : Land) (w' : World) :
  Land_init a w = Ok (L, w') ->
  frontier_is_nature (state_arr L) (green_itx_arr L).
Proof.
  intro Hinit.
  destruct (Land_init_fields a w L w' Hinit) as (_ & _ & st & Hst & Hrun).
  rewrite Hst. now apply (compute_green_itx_nature st _ _ _ _ Hrun).
Qed.

Lemma drive_visits :
  forall (n : nat) (L : Land) (w : World) (L' : Land) (w' : World),
    drive n L w = Ok (L', w') ->
    frontier_is_nature (state_arr L) (green_itx_arr L) ->
    frontier_is_nature (state_arr L') (green_itx_arr L')
    /\ forall cy cx,
         item (state_arr L') cy cx = item (state_arr L) cy cx
         \/ (item (state_arr L) cy cx = 0
             /\ (item (state_arr L') cy cx = 1 \/ item (state_arr L') cy cx = 2)).
Proof.
  induction n as [|n IH]; intros L w L' w' Hrun Hn; simpl in Hrun.
  - inversion Hrun; subst. split; [exact Hn|]. now left.
  - destruct (iter_land_isobenefit L w) as [[[r L1] w1]|e] eqn:E;
      cbn [bind] in Hrun; [|discriminate].
    destruct (iter_land_isobenefit_visits L w r L1 w1 E Hn) as (Hn1 & Ht1).
    destruct (IH L1 w1 L' w' Hrun Hn1) as (Hn' & Ht).
    split; [exact Hn'|].
    intros cy cx. destruct (Ht cy cx) as [K|(K0 & K1)].
    + rewrite K. apply Ht1.
    + destruct (Ht1 cy cx) as [J|(J0 & J1)].
      * right. split; [congruence|exact K1].
      * exfalso. destruct J1; lia.
Qed.

(** C10. On an engine that was constructed and driven through any number of
    growth steps, any further number of growth steps (one in particular)
    changes the class of a cell only from nature to built or from nature to
    centre: a cell that is not nature keeps its class. *)
Theorem only_nature_is_developed :
  forall (a : LandArgs) (w : World) (L0 : Land) (w0 : World)
         (n : nat) (L : Land) (w1 : World)
         (m : nat) (L' : Land) (w2 : World),
    Land_init a w = Ok (L0, w0) ->
    drive n L0 w0 = Ok (L, w1) ->
    drive m L w1 = Ok (L', w2) ->
    forall cy cx,
      (getitem (state_arr L) cy cx <> 0 ->
       getitem (state_arr L') cy cx = getitem (state_arr L) cy cx)
      /\ (getitem (state_arr L') cy cx <> getitem (state_arr L) cy cx ->
          getitem (state_arr L) cy cx = 0
          /\ (getitem (state_arr L') cy cx = 1 \/ getitem (state_arr L') cy cx = 2)).
Proof.
  intros a w L0 w0 n L w1 m L' w2 Hinit Hn Hm cy cx.
  pose proof (Land_init_nature a w L0 w0 Hinit) as N0.
  destruct (drive_visits n L0 w0 L w1 Hn N0) as (N1 & _).
  destruct (drive_visits m L w1 L' w2 Hm N1) as (_ & Ht).
  unfold getitem. destruct (Ht cy cx) as [K|(K0 & K1)].
  - split; [intros _; exact K|intro H; contradiction].
  - split; [intro H; contradiction|intros _; auto].
Qed.

(** C3 (what the code does). A call of [iter_land_isobenefit] on an engine
    whose frontier holds nature only returns [None]; the two counts, the
    number of cells that became built and the number of cells that became
    centres during the call, are written to the log and to nothing else. *)
Theorem iter_land_isobenefit_returns_none :
  forall (L : Land) (w : World) (r : py_value) (L' : Land) (w' : World),
    frontier_is_nature (state_arr L) (green_itx_arr L) ->
    iter_land_isobenefit L w = Ok (r, L', w') ->
    r = PyNone
    /\ log w' = log w
                ++ [("added blocks: "%string,
                     count_became (state_arr L) (state_arr L') 1);
                    ("added centralities: "%string,
                     count_became (state_arr L) (state_arr L') 2)].
Proof.
  intros L w r L' w' Hn Hrun. unfold iter_land_isobenefit in Hrun.
  destruct (iter_scan L w) as [s|e] eqn:E; cbn [bind] in Hrun; [|discriminate].
  inversion Hrun; subst.
  destruct (iter_scan_visits L w s E Hn) as (_ & _ & Hab & Hac & Hlog).
  split; [reflexivity|]. cbn. rewrite Hlog, Hab, Hac.
  now rewrite <- app_assoc.
Qed.

End Steps.

(** ** Concrete runs *)

Lemma is_ok_inv {A} (r : result A) : is_ok r = true -> exists a, r = Ok a.
Proof. destruct r as [a|e]; [now exists a|discriminate]. Qed.

Lemma bind_ok_inv {A B} (m : result A) (k : A -> result B) (b : B) :
  bind m k = Ok b -> exists a, m = Ok a /\ k a = Ok b.
Proof. destruct m as [a|e]; simpl; [now exists a|discriminate]. Qed.

Lemma engine_run_inv {ext : Externals} (a : LandArgs) (n : nat) (w : World)
    (L' : Land) (w' : World) :
  engine_run a n w = Ok (L', w') ->
  exists L0 w0, Land_init a w = Ok (L0, w0) /\ drive n L0 w0 = Ok (L', w').
Proof.
  unfold engine_run. intro E.
  destruct (bind_ok_inv _ _ _ E) as ([L0 w0] & E0 & E1). now exists L0, w0.
Qed.

Lemma first_step_inv {ext : Externals} (a : LandArgs) (w : World)
    (r : py_value) (L' : Land) (w' : World) :
  first_step a w = Ok (r, L', w') ->
  exists L0 w0, Land_init a w = Ok (L0, w0)
                /\ iter_land_isobenefit L0 w0 = Ok (r, L', w').
Proof.
  unfold first_step. intro E.
  destruct (bind_ok_inv _ _ _ E) as ([L0 w0] & E0 & E1). now exists L0, w0.
Qed.

Lemma only_nature_is_developed_witness :
  exists L0 w0 L' w2,
    Land_init (strip4_args (6 # 10)) fresh_world = Ok (L0, w0)
    /\ drive 0 L0 w0 = Ok (L0, w0)
    /\ drive 1 L0 w0 = Ok (L', w2)
    /\ forall cy cx,
         (getitem (state_arr L0) cy cx <> 0 ->
          getitem (state_arr L') cy cx = getitem (state_arr L0) cy cx)
         /\ (getitem (state_arr L') cy cx <> getitem (state_arr L0) cy cx ->
             getitem (state_arr L0) cy cx = 0
             /\ (getitem (state_arr L') cy cx = 1
                 \/ getitem (state_arr L') cy cx = 2)).
Proof.
  assert (H : is_ok (engine_run (strip4_args (6 # 10)) 1 fresh_world) = true)
    by (vm_compute; reflexivity).
  destruct (is_ok_inv _ H) as [[L' w2] E].
  destruct (engine_run_inv _ _ _ _ _ E) as (L0 & w0 & E0 & E1).
  exists L0, w0, L', w2.
  split; [exact E0|]. split; [reflexivity|]. split; [exact E1|].
  exact (only_nature_is_developed (strip4_args (6 # 10)) fresh_world L0 w0
           0 L0 w0 1 L' w2 E0 eq_refl E1).
Defined.

Lemma iter_land_isobenefit_returns_none_witness :
  exists (L : @Land Concrete.numpy_rasterio) w r L' w',
    frontier_is_nature (state_arr L) (green_itx_arr L)
    /\ iter_land_isobenefit L w = Ok (r, L', w')
    /\ r = PyNone
    /\ log w' = log w
                ++ [("added blocks: "%string,
                     count_became (state_arr L) (state_arr L') 1);
                    ("added centralities: "%string,
                     count_became (state_arr L) (state_arr L') 2)].
Proof.
  assert (H : is_ok (first_step (strip4_args (6 # 10)) fresh_world) = true)
    by (vm_compute; reflexivity).
  destruct (is_ok_inv _ H) as [[[r L'] w'] E].
  destruct (first_step_inv _ _ _ _ _ E) as (L & w & E0 & E1).
  pose proof (Land_init_nature _ _ _ _ E0) as Hn.
  exists L, w, r, L', w'. split; [exact Hn|]. split; [exact E1|].
  exact (iter_land_isobenefit_returns_none L w r L' w' Hn E1).
Defined.

(** The first growth step of the engine on the strip of four cells with a
    build probability of 6/10 and seed 0: cell (0, 1) is built, the call
    returns [None] and the count is in the log only. *)
Lemma first_step_returns_none :
  seen_of_step (first_step (strip4_args (6 # 10)) fresh_world)
  = Ok (PyNone, [[2; 1; 0; 0]],
        [("added blocks: "%string, 1); ("added centralities: "%string, 0)]).
Proof. vm_compute. reflexivity. Qed.

(** ** What a run depends on *)

Section Reproducible.

Context {ext : Externals}.






















End Reproducible.


(** The densities of two runs of one seed differ when the generator of the
    compiled code starts them in different states. *)
Lemma densities_follow_compiled_generator :
  densities_of (engine_run (strip4_args (6 # 10)) 1 fresh_world)
  = Ok [[0; 1; 0; 0]]%Q
  /\ densities_of (engine_run (strip4_args (6 # 10)) 1 other_world)
     = Ok [[0; 1 # 100; 0; 0]]%Q.
Proof. split; vm_compute; reflexivity. Qed.

(** The first six numbers numpy yields after [np.random.seed(0)]. *)
Lemma numpy_seed_0 :
  map (fun i => Qred (Concrete.random_sample 0 i)) [0; 1; 2; 3; 4; 5]%nat
  = [617909072945749 # 1125899906842624; 6441853127788339 # 9007199254740992;
     5429209831737675 # 9007199254740992; 4907871399810549 # 9007199254740992;
     3815943192872827 # 9007199254740992; 5817696973855579 # 9007199254740992]%Q.
Proof. vm_compute. reflexivity. Qed.

(** ** Growth steps return *)

Section Returns.

Context {ext : Externals}.

Lemma never_green_rays (e : exn) (arr : ndarray Z) (y x g ml ms : Z) :
  guarded g e -> never e (green_rays arr y x g ml ms).
Proof.
  intro G. unfold green_rays.
  assert (S : forall ray span, never e (shorter_than ray span g)).
  { intros ray span. unfold shorter_than.
    apply never_bind; [now apply never_true_div|intro; apply never_ok]. }
  destruct (rays_of arr y x) as [x_rays y_rays].
  apply never_bind; [destruct (_ && _); [apply S|apply never_ok]|].
  intros []; [apply never_ok|].
  apply never_bind; [destruct (_ && _); [apply S|apply never_ok]|].
  intros []; [apply never_ok|].
  apply never_bind; [apply S|]. intros []; [apply never_ok|].
  apply never_bind; [apply S|]. intros []; apply never_ok.
Qed.

Lemma never_claim_built (e : exn) (s : scan) (y x : Z) :
  guarded (walk_dist_m (self s)) e -> never e (claim_built s y x).
Proof.
  intro G. unfold claim_built.
  apply never_bind; [now apply never_green_state|].
  intros [[[] itx] acc]; [|apply never_ok].
  destruct (set_random_density _ _ _ _). apply never_ok.
Qed.

Lemma never_claim_centre (e : exn) (s : scan) (y x : Z) :
  guarded (walk_dist_m (self s)) e -> never e (claim_centre s y x).
Proof.
  intro G. unfold claim_centre.
  apply never_bind; [now apply never_green_state|].
  intros [[[] itx] acc]; [|apply never_ok].
  apply never_bind; [now apply never_agg_access|]. intro cent.
  destruct (set_random_density _ _ _ _). apply never_ok.
Qed.

Lemma never_iter_cell (e : exn) (areas : ndarray Z) (cell_area : Z) (s : scan)
    (idx : Z * Z) :
  guarded (walk_dist_m (self s)) e -> guarded (granularity_m (self s)) e ->
  never e (iter_cell areas cell_area s idx).
Proof.
  intros Gw Gg. unfold iter_cell. destruct idx as [y x].
  destruct (_ =? 1).
  - destruct (_ && _); [apply never_ok|].
    apply never_bind; [now apply never_green_rays|].
    intros []; cbn [negb]; [|apply never_ok].
    destruct (_count_cont_nbs _ _ _ [1; 2]), (_count_cont_nbs _ _ _ [0]).
    destruct (np_rand (world s)) as [p w].
    destruct (Qlt_bool 0 _).
    + destruct (Qlt_bool p _); [|apply never_ok]. now apply never_claim_built.
    + destruct (Qlt_bool p _); [|apply never_ok]. now apply never_claim_centre.
  - destruct (_ =? 0); [|apply never_ok].
    destruct (np_rand (world s)) as [p w].
    destruct (Qlt_bool p _); [|apply never_ok]. now apply never_claim_centre.
Qed.

Lemma claim_built_radius (s s' : scan) (y x : Z) :
  claim_built s y x = Ok s' ->
  walk_dist_m (self s') = walk_dist_m (self s)
  /\ granularity_m (self s') = granularity_m (self s).
Proof.
  unfold claim_built. intro H.
  destruct (_green_state _ _ _ _ _ _ _) as [[[[] itx] acc]|e]; cbn [bind] in H;
    try discriminate.
  - unfold set_random_density in H. destruct (_random_density _ _ _).
    inversion H. now cbn.
  - inversion H. now cbn.
Qed.

Lemma claim_centre_radius (s s' : scan) (y x : Z) :
  claim_centre s y x = Ok s' ->
  walk_dist_m (self s') = walk_dist_m (self s)
  /\ granularity_m (self s') = granularity_m (self s).
Proof.
  unfold claim_centre. intro H.
  destruct (_green_state _ _ _ _ _ _ _) as [[[[] itx] acc]|e]; cbn [bind] in H;
    try discriminate.
  - destruct (_inc_access _ _ _ _ _); cbn [bind] in H; [|discriminate].
    unfold set_random_density in H. destruct (_random_density _ _ _).
    inversion H. now cbn.
  - inversion H. now cbn.
Qed.

Lemma iter_cell_radius (areas : ndarray Z) (cell_area : Z) (s s' : scan)
    (idx : Z * Z) :
  iter_cell areas cell_area s idx = Ok s' ->
  walk_dist_m (self s') = walk_dist_m (self s)
  /\ granularity_m (self s') = granularity_m (self s).
Proof.
  unfold iter_cell. destruct idx as [y x]. intro H.
  assert (K : forall w r, r = Ok s' ->
              r = Ok (mk_scan (self s) w (added_blocks s) (added_centrality s)) ->
              walk_dist_m (self s') = walk_dist_m (self s)
              /\ granularity_m (self s') = granularity_m (self s)).
  { intros w r E1 E2. rewrite E1 in E2. inversion E2. now cbn. }
  assert (Kb : forall w, claim_built
                 (mk_scan (self s) w (added_blocks s) (added_centrality s)) y x
               = Ok s' ->
               walk_dist_m (self s') = walk_dist_m (self s)
               /\ granularity_m (self s') = granularity_m (self s)).
  { intros w E. now apply claim_built_radius in E. }
  assert (Kc : forall w, claim_centre
                 (mk_scan (self s) w (added_blocks s) (added_centrality s)) y x
               = Ok s' ->
               walk_dist_m (self s') = walk_dist_m (self s)
               /\ granularity_m (self s') = granularity_m (self s)).
  { intros w E. now apply claim_centre_radius in E. }
  destruct (_ =? 1).
  - destruct (_ && _); [inversion H; auto|].
    destruct (green_rays _ _ _ _ _ _) as [[]|e]; cbn [bind negb] in H;
      try discriminate; [|inversion H; auto].
    destruct (_count_cont_nbs _ _ _ [1; 2]), (_count_cont_nbs _ _ _ [0]).
    destruct (np_rand (world s)) as [p w].
    destruct (Qlt_bool 0 _).
    + destruct (Qlt_bool p _); [|now apply (K w _ H)].
      destruct (_ =? 14); now apply Kb in H.
    + destruct (Qlt_bool p _); [|now apply (K w _ H)]. now apply Kc in H.
  - destruct (_ =? 0); [|inversion H; auto].
    destruct (np_rand (world s)) as [p w].
    destruct (Qlt_bool p _); [|now apply (K w _ H)]. now apply Kc in H.
Qed.

Lemma iter_land_isobenefit_returns (L : Land) (w : World) :
  walk_dist_m L <> 0 -> granularity_m L <> 0 ->
  exists r L' w',
    iter_land_isobenefit L w = Ok (r, L', w')
    /\ walk_dist_m L' = walk_dist_m L /\ granularity_m L' = granularity_m L.
Proof.
  intros Hw Hg. unfold iter_land_isobenefit, iter_scan.
  match goal with
  | |- context [for_each ?body ?s0 ?l] =>
      destruct (for_each_total body
                  (fun s => walk_dist_m (self s) = walk_dist_m L
                            /\ granularity_m (self s) = granularity_m L) l)
        with (s := s0) as (s' & Hrun & Hw' & Hg')
  end.
  - intros s idx _ [Ew Eg].
    destruct (never_all (iter_cell
                (rasterize
                   (map (fun feat =>
                           (feat, py_int (shape_area feat / inject_Z (1000 * 1000))))
                      (shapes (state_arr (set_iters L (iters L + 1)))
                         (trf (set_iters L (iters L + 1)))))
                   (shape (state_arr (set_iters L (iters L + 1))))
                   (trf (set_iters L (iters L + 1))))
                (py_int ((inject_Z (granularity_m
                   (set_areas_arr (set_iters L (iters L + 1))
                      (Some (rasterize
                         (map (fun feat =>
                            (feat, py_int (shape_area feat / inject_Z (1000 * 1000))))
                            (shapes (state_arr (set_iters L (iters L + 1)))
                               (trf (set_iters L (iters L + 1)))))
                         (shape (state_arr (set_iters L (iters L + 1))))
                         (trf (set_iters L (iters L + 1))))))) / 1000) ^ 2))
                s idx)) as [s1 E].
    + intro e. apply never_iter_cell; intros _; congruence.
    + exists s1. split; [exact E|].
      destruct (iter_cell_radius _ _ _ _ _ E). split; congruence.
  - cbn. auto.
  - rewrite Hrun. cbn [bind]. eexists _, _, _. split; [reflexivity|]. auto.
Qed.

Lemma drive_returns :
  forall (n : nat) (L : Land) (w : World),
    walk_dist_m L <> 0 -> granularity_m L <> 0 ->
    exists L' w', drive n L w = Ok (L', w').
Proof.
  induction n as [|n IH]; intros L w Hw Hg; simpl.
  - now exists L, w.
  - destruct (iter_land_isobenefit_returns L w Hw Hg) as (r & L1 & w1 & E & Ew & Eg).
    rewrite E. cbn [bind]. apply IH; congruence.
Qed.

End Returns.

(** * Further properties of the module *)

(** ** Neighbourhoods *)

Lemma iter_nbs_offsets {A} (arr : ndarray A) (y x : Z) (rook : bool) (a b : Z) :
  In (a, b) (_iter_nbs arr y x rook)
  <-> in_bounds arr a b
      /\ In (a - y, b - x)
           (combine (if rook then [1; 0; -1; 0] else [1; 1; 1; 0; -1; -1; -1; 0])
                    (if rook then [0; 1; 0; -1] else [-1; 0; 1; 1; 1; 0; -1; -1])).
Proof.
  unfold _iter_nbs. rewrite in_flat_map. split.
  - intros ([yo xo] & Hoff & Hc).
    destruct (Z.ltb_spec (y + yo) 0); simpl in Hc; [contradiction|].
    destruct (Z.leb_spec (shape0 arr) (y + yo)); simpl in Hc; [contradiction|].
    destruct (Z.ltb_spec (x + xo) 0); simpl in Hc; [contradiction|].
    destruct (Z.leb_spec (shape1 arr) (x + xo)); simpl in Hc; [contradiction|].
    destruct Hc as [E|[]]. inversion E; subst a b.
    split; [unfold in_bounds; lia|].
    replace (y + yo - y) with yo by lia. replace (x + xo - x) with xo by lia.
    exact Hoff.
  - intros [[Hy Hx] Hoff]. exists (a - y, b - x). split; [exact Hoff|].
    replace (y + (a - y)) with a by lia. replace (x + (b - x)) with b by lia.
    destruct (Z.ltb_spec a 0); [lia|].
    destruct (Z.leb_spec (shape0 arr) a); [lia|].
    destruct (Z.ltb_spec b 0); [lia|].
    destruct (Z.leb_spec (shape1 arr) b); [lia|].
    simpl. now left.
Qed.

Lemma in_rook_nbs {A} (arr : ndarray A) (y x a b : Z) :
  In (a, b) (_iter_nbs arr y x true)
  <-> in_bounds arr a b /\ rook_adjacent (a, b) (y, x).
Proof.
  rewrite iter_nbs_offsets. unfold rook_adjacent. simpl.
  split.
  - intros [Hb H]. split; [exact Hb|].
    repeat (destruct H as [H|H]; [inversion H; lia|]). contradiction.
  - intros [Hb H]. split; [exact Hb|].
    assert (C : (a - y = 1 /\ b - x = 0) \/ (a - y = 0 /\ b - x = 1)
                \/ (a - y = -1 /\ b - x = 0) \/ (a - y = 0 /\ b - x = -1)) by lia.
    destruct C as [[-> ->]|[[-> ->]|[[-> ->]|[-> ->]]]]; auto.
Qed.

(** X1. The rook neighbours [_iter_nbs] returns are exactly the cells of the
    array that share an edge with the cell. *)
Theorem iter_nbs_rook_adjacent :
  forall {A} (arr : ndarray A) (y x a b : Z),
    In (a, b) (_iter_nbs arr y x true)
    <-> in_bounds arr a b /\ rook_adjacent (a, b) (y, x).
Proof. intros. apply in_rook_nbs. Qed.

Lemma in_queen_nbs {A} (arr : ndarray A) (y x a b : Z) :
  In (a, b) (_iter_nbs arr y x false)
  <-> in_bounds arr a b /\ queen_adjacent (a, b) (y, x).
Proof.
  rewrite iter_nbs_offsets. unfold queen_adjacent. simpl.
  split.
  - intros [Hb H]. split; [exact Hb|].
    repeat (destruct H as [H|H]; [inversion H; lia|]). contradiction.
  - intros [Hb H]. split; [exact Hb|].
    assert (C : (a - y = 1 /\ b - x = -1) \/ (a - y = 1 /\ b - x = 0)
                \/ (a - y = 1 /\ b - x = 1) \/ (a - y = 0 /\ b - x = 1)
                \/ (a - y = -1 /\ b - x = 1) \/ (a - y = -1 /\ b - x = 0)
                \/ (a - y = -1 /\ b - x = -1) \/ (a - y = 0 /\ b - x = -1)) by lia.
    repeat (destruct C as [[-> ->]|C]; [tauto|]). destruct C as [-> ->]. tauto.
Qed.

(** X2. The queen neighbours [_iter_nbs] returns are exactly the cells of the
    array that share an edge or a corner with the cell. *)
Theorem iter_nbs_queen_adjacent :
  forall {A} (arr : ndarray A) (y x a b : Z),
    In (a, b) (_iter_nbs arr y x false)
    <-> in_bounds arr a b /\ queen_adjacent (a, b) (y, x).
Proof. intros. apply in_queen_nbs. Qed.

(** X3. [_iter_nbs] returns no cell twice, never the cell itself, and at most
    four rook or eight queen neighbours; away from the border it returns
    exactly four or eight. *)
Theorem iter_nbs_distinct :
  forall {A} (arr : ndarray A) (y x : Z) (rook : bool),
    NoDup (_iter_nbs arr y x rook)
    /\ ~ In (y, x) (_iter_nbs arr y x rook)
    /\ (List.length (_iter_nbs arr y x rook) <= (if rook then 4 else 8))%nat
    /\ (1 <= y < shape0 arr - 1 -> 1 <= x < shape1 arr - 1 ->
        List.length (_iter_nbs arr y x rook) = (if rook then 4 else 8)%nat).
Proof.
  intros A arr y x rook. split; [|split; [|split]].
  - unfold _iter_nbs. apply NoDup_flat_map.
    + destruct rook; simpl;
        repeat (constructor; [simpl; intuition congruence|]); constructor.
    + intros [yo xo] _.
      repeat match goal with
             | |- context [if ?b then _ else _] => destruct b
             end; repeat constructor; simpl; tauto.
    + intros [yo xo] [yo' xo'] c _ _ H H'.
      repeat match type of H with
             | context [if ?b then _ else _] => destruct b; simpl in H; [contradiction|]
             end.
      repeat match type of H' with
             | context [if ?b then _ else _] => destruct b; simpl in H'; [contradiction|]
             end.
      destruct H as [<-|[]]. destruct H' as [E|[]]. inversion E. f_equal; lia.
  - intro H. apply iter_nbs_in_bounds in H. now destruct H.
  - unfold _iter_nbs. destruct rook; simpl;
      repeat match goal with
             | |- context [if ?b then _ else _] => destruct b
             end; simpl; lia.
  - intros Hy Hx. unfold _iter_nbs. destruct rook; simpl;
      repeat match goal with
             | |- context [?a <? ?b] => destruct (Z.ltb_spec a b); [lia|]
             | |- context [?a <=? ?b] => destruct (Z.leb_spec a b); [lia|]
             end; reflexivity.
Qed.

(** ** The accessibility aggregation *)

Lemma triangular_out_of_reach (g walk : Z) (a b : Z * Z) :
  (inject_Z walk < distance g a b)%Q -> triangular g walk a b = 0%Q.
Proof.
  intro H. unfold triangular. apply Qlt_bool_iff in H. now rewrite H.
Qed.






Lemma agg_access_skips (y x g walk : Z) (positive : bool) :
  forall (l : list (Z * Z)) (arr : ndarray Q),
    (forall cy cx, In (cy, cx) l ->
       (inject_Z walk < distance g (y, x) (cy, cx))%Q) ->
    for_each (fun (arr : ndarray Q) '(cy_idx, cx_idx) =>
        let y_dist := Z.abs (y - cy_idx) * g in
        let x_dist := Z.abs (x - cx_idx) * g in
        let dist := hypot x_dist y_dist in
        if Qlt_bool (inject_Z walk) dist then Ok arr
        else
          q <- true_div dist (inject_Z walk) ;;
          let val := (1 - q)%Q in
          if positive
          then Ok (setitem arr cy_idx cx_idx (getitem arr cy_idx cx_idx + val)%Q)
          else Ok (setitem arr cy_idx cx_idx (getitem arr cy_idx cx_idx - val)%Q))
      arr l = Ok arr.
Proof.
  induction l as [|[cy cx] l IH]; intros arr H; [reflexivity|].
  cbn [for_each]. cbv zeta.
  assert (E : Qlt_bool (inject_Z walk)
                (hypot (Z.abs (x - cx) * g) (Z.abs (y - cy) * g)) = true).
  { apply Qlt_bool_iff. apply (H cy cx). now left. }
  rewrite E. cbn [bind]. apply IH. intros ? ? ?. apply H. now right.
Qed.

(** X5. With a negative walking radius [_agg_access] changes nothing: no
    cell is within the radius, and the array comes back as it was passed. *)
Theorem agg_access_negative_radius :
  forall (y x : Z) (arr : ndarray Q) (g walk : Z) (positive : bool),
    walk < 0 -> _agg_access y x arr g walk positive = Ok arr.
Proof.
  intros y x arr g walk positive Hw. unfold _agg_access.
  apply agg_access_skips. intros cy cx _.
  apply Qlt_le_trans with (y := 0%Q); [unfold Qlt; simpl; lia|].
  apply distance_nonneg.
Qed.

Lemma agg_access_negative_radius_witness :
  -100 < 0
  /\ _agg_access 0 0 (full (1, 3) 0%Q) 100 (-100) false = Ok (full (1, 3) 0%Q).
Proof.
  split; [lia|]. apply (agg_access_negative_radius 0 0 _ 100 (-100) false). lia.
Defined.

Lemma agg_access_zero_radius_loop (y x g : Z) (positive : bool) :
  forall (l : list (Z * Z)) (arr : ndarray Q),
    (exists cy cx, In (cy, cx) l /\ (distance g (y, x) (cy, cx) == 0)%Q) ->
    for_each (fun (arr : ndarray Q) '(cy_idx, cx_idx) =>
        let y_dist := Z.abs (y - cy_idx) * g in
        let x_dist := Z.abs (x - cx_idx) * g in
        let dist := hypot x_dist y_dist in
        if Qlt_bool (inject_Z 0) dist then Ok arr
        else
          q <- true_div dist (inject_Z 0) ;;
          let val := (1 - q)%Q in
          if positive
          then Ok (setitem arr cy_idx cx_idx (getitem arr cy_idx cx_idx + val)%Q)
          else Ok (setitem arr cy_idx cx_idx (getitem arr cy_idx cx_idx - val)%Q))
      arr l = Raise ZeroDivisionError.
Proof.
  induction l as [|[cy0 cx0] l IH]; intros arr (cy & cx & Hin & Hd);
    [contradiction|].
  cbn [for_each]. cbv zeta.
  destruct (Qlt_bool (inject_Z 0) (hypot (Z.abs (x - cx0) * g) (Z.abs (y - cy0) * g)))
    eqn:E.
  - cbn [bind]. apply IH. exists cy, cx. split; [|exact Hd].
    destruct Hin as [E0|Hin]; [|exact Hin].
    inversion E0; subst. apply Qlt_bool_iff in E.
    unfold distance in Hd. simpl fst in Hd. simpl snd in Hd.
    rewrite Hd in E. now apply Qlt_irrefl in E.
  - rewrite true_div_zero. reflexivity.
Qed.

(** X6. With a walking radius of zero [_agg_access] divides by zero at the
    first cell at distance zero of the origin: it ends in
    [ZeroDivisionError] when the array holds such a cell (the origin itself,
    when it lies in the array), and returns the array as it was passed when
    it holds none. *)
Theorem agg_access_zero_radius :
  forall (y x : Z) (arr : ndarray Q) (g : Z) (positive : bool),
    ((exists cy cx, in_bounds arr cy cx /\ (distance g (y, x) (cy, cx) == 0)%Q) ->
     _agg_access y x arr g 0 positive = Raise ZeroDivisionError)
    /\ (in_bounds arr y x ->
        _agg_access y x arr g 0 positive = Raise ZeroDivisionError)
    /\ ((forall cy cx, in_bounds arr cy cx -> (0 < distance g (y, x) (cy, cx))%Q) ->
        _agg_access y x arr g 0 positive = Ok arr).
Proof.
  intros y x arr g positive. split; [|split].
  - intros (cy & cx & Hb & Hd). unfold _agg_access.
    apply agg_access_zero_radius_loop. exists cy, cx. split; [|exact Hd].
    now apply in_ndindex.
  - intro Hb. now apply agg_access_zero_walk.
  - intro H. unfold _agg_access. apply agg_access_skips.
    intros cy cx Hin. apply H. now apply in_ndindex.
Qed.



(** ** Access to centres *)

Lemma agg_access_zero_radius_ok (y x g : Z) (positive : bool) :
  forall (l : list (Z * Z)) (arr arr' : ndarray Q),
    for_each (fun (arr : ndarray Q) '(cy_idx, cx_idx) =>
        let y_dist := Z.abs (y - cy_idx) * g in
        let x_dist := Z.abs (x - cx_idx) * g in
        let dist := hypot x_dist y_dist in
        if Qlt_bool (inject_Z 0) dist then Ok arr
        else
          q <- true_div dist (inject_Z 0) ;;
          let val := (1 - q)%Q in
          if positive
          then Ok (setitem arr cy_idx cx_idx (getitem arr cy_idx cx_idx + val)%Q)
          else Ok (setitem arr cy_idx cx_idx (getitem arr cy_idx cx_idx - val)%Q))
      arr l = Ok arr' ->
    arr' = arr
    /\ forall cy cx, In (cy, cx) l -> (0 < distance g (y, x) (cy, cx))%Q.
Proof.
  induction l as [|[cy0 cx0] l IH]; intros arr arr' H.
  - simpl in H. inversion H. split; [reflexivity|]. intros ? ? [].
  - cbn [for_each] in H. cbv zeta in H.
    destruct (Qlt_bool (inject_Z 0) (hypot (Z.abs (x - cx0) * g) (Z.abs (y - cy0) * g)))
      eqn:E.
    + cbn [bind] in H. destruct (IH _ _ H) as [-> Hd]. split; [reflexivity|].
      intros cy cx [E0|Hin]; [|now apply Hd].
      inversion E0; subst. now apply Qlt_bool_iff in E.
    + rewrite true_div_zero in H. discriminate.
Qed.

Lemma Qdiv_lt_1 (d w : Q) : (0 < w)%Q -> (d / w < 1)%Q <-> (d < w)%Q.
Proof.
  intro Hw. split; intro H.
  - destruct (Qlt_le_dec d w) as [L|G]; [exact L|].
    assert (C : (1 <= d / w)%Q).
    { apply Qle_shift_div_l; [exact Hw|]. now rewrite Qmult_1_l. }
    lra.
  - apply Qlt_shift_div_r; [exact Hw|]. now rewrite Qmult_1_l.
Qed.

Lemma agg_access_partial (y x : Z) (arr arr' : ndarray Q) (g walk : Z)
    (positive : bool) :
  _agg_access y x arr g walk positive = Ok arr' ->
  (shape0 arr' = shape0 arr /\ shape1 arr' = shape1 arr)
  /\ (forall cy cx, in_bounds arr cy cx ->
        (item arr' cy cx
         == item arr cy cx
            + (if positive then triangular g walk (y, x) (cy, cx)
               else - triangular g walk (y, x) (cy, cx)))%Q)
  /\ (forall cy cx, in_bounds arr cy cx ->
        (0 < triangular g walk (y, x) (cy, cx))%Q
        <-> (distance g (y, x) (cy, cx) < inject_Z walk)%Q).
Proof.
  intro H. destruct (Z.eq_dec walk 0) as [->|Hw].
  - unfold _agg_access in H. apply agg_access_zero_radius_ok in H.
    destruct H as [-> Hd]. split; [auto|].
    assert (T : forall cy cx, in_bounds arr cy cx ->
                  triangular g 0 (y, x) (cy, cx) = 0%Q).
    { intros cy cx Hb. apply triangular_out_of_reach. apply Hd.
      now apply in_ndindex. }
    split.
    + intros cy cx Hb. rewrite (T cy cx Hb). destruct positive; ring.
    + intros cy cx Hb. rewrite (T cy cx Hb). split.
      * intro C. now apply Qlt_irrefl in C.
      * intro C. exfalso.
        assert (Hd' : (0 < distance g (y, x) (cy, cx))%Q)
          by (apply Hd; now apply in_ndindex).
        change (inject_Z 0) with 0%Q in C. lra.
  - destruct (agg_access_spec y x arr g walk positive Hw)
      as (arr1 & Hrun & Hs0 & Hs1 & Hin & _).
    rewrite Hrun in H. inversion H; subst arr1.
    split; [auto|]. split; [exact Hin|].
    intros cy cx _. unfold triangular.
    pose proof (distance_nonneg g (y, x) (cy, cx)) as Hd.
    destruct (Qlt_bool (inject_Z walk) (distance g (y, x) (cy, cx))) eqn:E.
    + apply Qlt_bool_iff in E. split; intro C; [now apply Qlt_irrefl in C|lra].
    + apply Qlt_bool_false in E.
      assert (Hpos : (0 < inject_Z walk)%Q).
      { assert (H0 : (0 <= inject_Z walk)%Q) by lra.
        unfold Qlt, Qle in *. simpl in *. lia. }
      pose proof (Qdiv_lt_1 (distance g (y, x) (cy, cx)) (inject_Z walk) Hpos) as D.
      split; intro C; [apply D; lra|apply D in C; lra].
Qed.

Lemma inc_access_positive (sy sx : Z) (cent cent' : ndarray Q) (g walk : Z) :
  _inc_access sy sx cent g walk = Ok cent' ->
  (shape0 cent' = shape0 cent /\ shape1 cent' = shape1 cent)
  /\ forall cy cx, in_bounds cent cy cx -> (0 <= item cent cy cx)%Q ->
       (0 <= item cent' cy cx)%Q
       /\ ((0 < item cent' cy cx)%Q
           <-> (0 < item cent cy cx)%Q
               \/ (distance g (sy, sx) (cy, cx) < inject_Z walk)%Q).
Proof.
  intro H. apply agg_access_partial in H. destruct H as (Hs & Hin & Hpos).
  split; [exact Hs|]. intros cy cx Hb H0.
  pose proof (triangular_nonneg g walk (sy, sx) (cy, cx)) as Ht.
  specialize (Hin cy cx Hb). specialize (Hpos cy cx Hb).
  split; [lra|]. split.
  - intro C. destruct (Qlt_le_dec 0 (item cent cy cx)) as [L|G]; [now left|].
    right. apply Hpos. lra.
  - intros [C|C]; [lra|]. apply Hpos in C. lra.
Qed.

Lemma centres_loop (st : ndarray Z) (g walk : Z) :
  forall (l : list (Z * Z)) (cent cent' : ndarray Q),
    (forall c, In c l -> in_bounds st (fst c) (snd c)) ->
    shape cent = shape st ->
    for_each (fun cent_acc_arr '(sy_idx, sx_idx) =>
        if negb (getitem st sy_idx sx_idx =? 2) then Ok cent_acc_arr
        else _inc_access sy_idx sx_idx cent_acc_arr g walk)
      cent l = Ok cent' ->
    (forall cy cx, in_bounds st cy cx -> (0 <= item cent cy cx)%Q) ->
    shape cent' = shape st
    /\ forall cy cx, in_bounds st cy cx ->
         (0 <= item cent' cy cx)%Q
         /\ ((0 < item cent' cy cx)%Q
             <-> (0 < item cent cy cx)%Q
                 \/ exists sy sx, In (sy, sx) l /\ getitem st sy sx = 2
                      /\ (distance g (sy, sx) (cy, cx) < inject_Z walk)%Q).
Proof.
  induction l as [|[sy sx] l IH]; intros cent cent' Hl Hsh H H0.
  - simpl in H. inversion H; subst cent'. split; [exact Hsh|].
    intros cy cx Hb. split; [now apply H0|]. split; [now left|].
    intros [C|(? & ? & [] & _)]. exact C.
  - cbn [for_each] in H.
    destruct (getitem st sy sx =? 2) eqn:E2; cbn [negb] in H.
    + destruct (_inc_access sy sx cent g walk) as [cent1|e] eqn:E1;
        cbn [bind] in H; [|discriminate].
      apply inc_access_positive in E1. destruct E1 as ([Hs0 Hs1] & Hstep).
      assert (Hsh1 : shape cent1 = shape st).
      { unfold shape in *. inversion Hsh. congruence. }
      assert (Hb1 : forall cy cx, in_bounds st cy cx -> in_bounds cent cy cx).
      { intros cy cx Hb. unfold shape in Hsh. inversion Hsh.
        unfold in_bounds in *. lia. }
      destruct (IH cent1 cent') as (Hsh' & Hall); auto.
      { intros c Hc. apply Hl. now right. }
      { intros cy cx Hb. apply (Hstep cy cx); auto. }
      split; [exact Hsh'|]. intros cy cx Hb.
      destruct (Hall cy cx Hb) as (Hn & Hiff).
      destruct (Hstep cy cx (Hb1 _ _ Hb) (H0 _ _ Hb)) as (_ & Hiff1).
      split; [exact Hn|]. rewrite Hiff, Hiff1. apply Z.eqb_eq in E2. split.
      * intros [[C|C]|(y' & x' & Hin & Hc & Hd)]; [now left| |].
        -- right. exists sy, sx. split; [now left|]. now split.
        -- right. exists y', x'. split; [now right|]. now split.
      * intros [C|(y' & x' & [E0|Hin] & Hc & Hd)]; [now left; left| |].
        -- inversion E0; subst. left. now right.
        -- right. exists y', x'. now split.
    + cbn [bind] in H.
      destruct (IH cent cent') as (Hsh' & Hall); auto.
      { intros c Hc. apply Hl. now right. }
      split; [exact Hsh'|]. intros cy cx Hb.
      destruct (Hall cy cx Hb) as (Hn & Hiff). split; [exact Hn|].
      rewrite Hiff. apply Z.eqb_neq in E2. split.
      * intros [C|(y' & x' & Hin & Hc & Hd)]; [now left|].
        right. exists y', x'. split; [now right|]. now split.
      * intros [C|(y' & x' & [E0|Hin] & Hc & Hd)]; [now left| |].
        -- inversion E0; subst. contradiction.
        -- right. exists y', x'. now split.
Qed.

(** X8. [_compute_centres_access] returns, for a walking radius other than
    zero, a surface of the shape of the grid; whenever it returns, no value
    of the surface is negative, and a cell's value is positive exactly when
    some cell of class 2 lies nearer to it than the walking radius. *)
Theorem centres_access_reach :
  forall (st : ndarray Z) (g walk : Z),
    (walk <> 0 -> exists cent, _compute_centres_access st g walk = Ok cent)
    /\ forall cent,
         _compute_centres_access st g walk = Ok cent ->
         shape cent = shape st
         /\ forall cy cx, in_bounds st cy cx ->
              (0 <= item cent cy cx)%Q
              /\ ((0 < item cent cy cx)%Q <-> centre_within st g walk (cy, cx)).
Proof.
  intros st g walk. split.
  - intro Hw. apply never_all. intro e.
    apply never_compute_centres_access. intros _. exact Hw.
  - intros cent H. unfold _compute_centres_access in H.
    apply centres_loop in H.
    + destruct H as (Hsh & Hall). split; [exact Hsh|].
      intros cy cx Hb. destruct (Hall cy cx Hb) as (Hn & Hiff).
      split; [exact Hn|]. rewrite Hiff. unfold centre_within. split.
      * intros [C|(sy & sx & Hin & Hc & Hd)].
        -- simpl in C. now apply Qlt_irrefl in C.
        -- exists sy, sx. apply in_ndindex in Hin. now split.
      * intros (sy & sx & Hin & Hc & Hd). right. exists sy, sx.
        split; [now apply in_ndindex|]. now split.
    + intros [cy cx] Hc. now apply in_ndindex.
    + reflexivity.
    + intros. simpl. apply Qle_refl.
Qed.

Lemma centres_zero_radius_loop (st : ndarray Z) (g : Z) :
  forall (l : list (Z * Z)) (cent : ndarray Q),
    (forall c, In c l -> in_bounds cent (fst c) (snd c)) ->
    (exists sy sx, In (sy, sx) l /\ getitem st sy sx = 2) ->
    for_each (fun cent_acc_arr '(sy_idx, sx_idx) =>
        if negb (getitem st sy_idx sx_idx =? 2) then Ok cent_acc_arr
        else _inc_access sy_idx sx_idx cent_acc_arr g 0)
      cent l = Raise ZeroDivisionError.
Proof.
  induction l as [|[sy0 sx0] l IH]; intros cent Hl (sy & sx & Hin & Hc);
    [contradiction|].
  cbn [for_each].
  destruct (getitem st sy0 sx0 =? 2) eqn:E2; cbn [negb].
  - unfold _inc_access. rewrite agg_access_zero_walk; [reflexivity|].
    apply (Hl (sy0, sx0)). now left.
  - cbn [bind]. apply IH.
    + intros c Hc'. apply Hl. now right.
    + exists sy, sx. split; [|exact Hc].
      destruct Hin as [E0|Hin]; [|exact Hin].
      inversion E0; subst. apply Z.eqb_neq in E2. contradiction.
Qed.

Lemma centres_none_loop (st : ndarray Z) (g walk : Z) :
  forall (l : list (Z * Z)) (cent : ndarray Q),
    (forall sy sx, In (sy, sx) l -> getitem st sy sx <> 2) ->
    for_each (fun cent_acc_arr '(sy_idx, sx_idx) =>
        if negb (getitem st sy_idx sx_idx =? 2) then Ok cent_acc_arr
        else _inc_access sy_idx sx_idx cent_acc_arr g walk)
      cent l = Ok cent.
Proof.
  induction l as [|[sy0 sx0] l IH]; intros cent Hl; [reflexivity|].
  cbn [for_each].
  assert (E : (getitem st sy0 sx0 =? 2) = false).
  { apply Z.eqb_neq. apply Hl. now left. }
  rewrite E. cbn [negb bind]. apply IH. intros ? ? ?. apply Hl. now right.
Qed.

(** X9. On a grid without a cell of class 2 [_compute_centres_access]
    returns the surface of zeros whatever the walking radius, zero included.
    On a grid with such a cell and a walking radius of zero it ends in
    [ZeroDivisionError]. *)
Theorem centres_access_edge_cases :
  forall (st : ndarray Z) (g : Z),
    ((forall sy sx, in_bounds st sy sx -> getitem st sy sx <> 2) ->
     forall walk, _compute_centres_access st g walk = Ok (full (shape st) 0%Q))
    /\ ((exists sy sx, in_bounds st sy sx /\ getitem st sy sx = 2) ->
        _compute_centres_access st g 0 = Raise ZeroDivisionError).
Proof.
  intros st g. split.
  - intros H walk. unfold _compute_centres_access. apply centres_none_loop.
    intros sy sx Hin. apply H. now apply in_ndindex.
  - intros (sy & sx & Hb & Hc). unfold _compute_centres_access.
    apply centres_zero_radius_loop.
    + intros [cy cx] Hin. apply in_ndindex in Hin. exact Hin.
    + exists sy, sx. split; [now apply in_ndindex|exact Hc].
Qed.

(** ** The frontier marks *)

Lemma iter_nbs_shape {A B} (a : ndarray A) (b : ndarray B) (y x : Z) (rook : bool) :
  shape0 a = shape0 b -> shape1 a = shape1 b ->
  _iter_nbs a y x rook = _iter_nbs b y x rook.
Proof. intros S0 S1. unfold _iter_nbs. now rewrite S0, S1. Qed.

Lemma activate_loop_frame (state : ndarray Z) (g walk : Z) :
  forall (nbs : list (Z * Z)) (itx : ndarray Z) (acc : ndarray Q) itx' acc',
    for_each (activate_nb state g walk) (itx, acc) nbs = Ok (itx', acc') ->
    forall cy cx,
      item itx' cy cx = item itx cy cx
      \/ (In (cy, cx) nbs /\ item state cy cx = 0 /\ item itx cy cx = 0
          /\ item itx' cy cx = 1).
Proof.
  induction nbs as [|[ny nx] rest IH]; intros itx acc itx' acc' Hrun cy cx.
  - simpl in Hrun. inversion Hrun; subst. now left.
  - cbn [for_each] in Hrun.
    destruct (activate_nb state g walk (itx, acc) (ny, nx)) as [[itx1 acc1]|e] eqn:E;
      cbn [bind] in Hrun; [|discriminate].
    specialize (IH itx1 acc1 itx' acc' Hrun cy cx).
    unfold activate_nb, getitem in E.
    destruct (Z.eqb_spec (item state ny nx) 0) as [Hs|Hs];
      [destruct (Z.eqb_spec (item itx ny nx) 0) as [Hi|Hi]|]; cbn [andb] in E.
    + destruct (_inc_access ny nx acc g walk) as [a1|e]; cbn [bind] in E;
        [|discriminate].
      inversion E; subst itx1 acc1.
      destruct (cell_eq_dec (cy, cx) (ny, nx)) as [Eq|Hne].
      * inversion Eq; subst. rewrite item_setitem_same in IH.
        right. split; [now left|]. split; [exact Hs|]. split; [exact Hi|].
        destruct IH as [K|(_ & _ & K & _)]; [exact K|discriminate].
      * rewrite item_setitem_other in IH by assumption.
        destruct IH as [K|(Hin & K1 & K2 & K3)]; [now left|].
        right. split; [now right|]. auto.
    + inversion E; subst itx1 acc1.
      destruct IH as [K|(Hin & K1 & K2 & K3)]; [now left|].
      right. split; [now right|]. auto.
    + inversion E; subst itx1 acc1.
      destruct IH as [K|(Hin & K1 & K2 & K3)]; [now left|].
      right. split; [now right|]. auto.
Qed.

Lemma green_state_work_frame (y x : Z) (state itx : ndarray Z) (acc : ndarray Q)
    (g walk : Z) itx_w new :
  green_state_work y x state itx acc g walk = Ok (itx_w, new) ->
  forall cy cx, (cy, cx) <> (y, x) ->
    item itx_w cy cx = item itx cy cx
    \/ (In (cy, cx) (_iter_nbs itx y x true) /\ item state cy cx = 0
        /\ item itx cy cx = 0 /\ item itx_w cy cx = 1).
Proof.
  unfold green_state_work, getitem. intros Hrun cy cx Hne.
  destruct (Z.eqb_spec (item itx y x) 1) as [H1|H1].
  - destruct (_decr_access y x acc g walk) as [acc0|e]; cbn [bind] in Hrun;
      [|discriminate].
    change (_iter_nbs (setitem itx y x 0) y x true)
      with (_iter_nbs itx y x true) in Hrun.
    destruct (activate_loop_frame state g walk _ _ _ _ _ Hrun cy cx) as [K|K];
      rewrite item_setitem_other in K by assumption; auto.
  - cbn [bind] in Hrun.
    exact (activate_loop_frame state g walk _ _ _ _ _ Hrun cy cx).
Qed.

Lemma green_state_frame (y x : Z) (state itx : ndarray Z) (acc : ndarray Q)
    (g walk : Z) (b : bool) itx' acc' :
  _green_state y x state itx acc g walk = Ok (b, itx', acc') ->
  (shape0 itx' = shape0 itx /\ shape1 itx' = shape1 itx)
  /\ item itx' y x
     = (if b then (if item itx y x =? 1 then 0 else item itx y x) else 2)
  /\ forall cy cx, (cy, cx) <> (y, x) ->
       (In (cy, cx) (_iter_nbs itx y x true) /\ item state cy cx = 0
        /\ item itx cy cx = 0 -> item itx' cy cx = 1)
       /\ (~ (In (cy, cx) (_iter_nbs itx y x true) /\ item state cy cx = 0
              /\ item itx cy cx = 0) -> item itx' cy cx = item itx cy cx).
Proof.
  unfold _green_state. intro Hrun.
  destruct (green_state_work y x state itx acc g walk) as [[itx_w new]|e] eqn:E;
    cbn [bind] in Hrun; [|discriminate].
  destruct (green_state_work_nature _ _ _ _ _ _ _ _ _ E) as ([S0 S1] & _).
  destruct (green_state_work_marks _ _ _ _ _ _ _ _ _ E) as (Hyx & Hon).
  pose proof (green_state_work_frame _ _ _ _ _ _ _ _ _ E) as Hfr.
  assert (Hw : forall cy cx, (cy, cx) <> (y, x) ->
            (In (cy, cx) (_iter_nbs itx y x true) /\ item state cy cx = 0
             /\ item itx cy cx = 0 -> item itx_w cy cx = 1)
            /\ (~ (In (cy, cx) (_iter_nbs itx y x true) /\ item state cy cx = 0
                   /\ item itx cy cx = 0) -> item itx_w cy cx = item itx cy cx)).
  { intros cy cx Hne. split.
    - intros (Hin & Hs & Hi). now apply Hon.
    - intro Hn. destruct (Hfr cy cx Hne) as [K|(K1 & K2 & K3 & _)]; [exact K|].
      exfalso. apply Hn. auto. }
  destruct (strands acc new); inversion Hrun; subst.
  - cbn [setitem shape0 shape1]. split; [now split|].
    split; [apply item_setitem_same|].
    intros cy cx Hne. rewrite item_setitem_other by assumption. now apply Hw.
  - split; [now split|]. split; [exact Hyx|]. exact Hw.
Qed.



(** ** The frontier after construction *)

Lemma for_each_prefix {S X} (body : S -> X -> result S) (Inv : list X -> S -> Prop) :
  forall (l : list X),
    (forall done x s s', In x l -> body s x = Ok s' -> Inv done s ->
                         Inv (done ++ [x]) s') ->
    forall done s s', for_each body s l = Ok s' -> Inv done s -> Inv (done ++ l) s'.
Proof.
  induction l as [|x l IH]; intros Hstep done s s' Hrun Hinv.
  - simpl in Hrun. inversion Hrun; subst. now rewrite app_nil_r.
  - cbn [for_each] in Hrun. destruct (body s x) as [s1|e] eqn:E;
      cbn [bind] in Hrun; [|discriminate].
    replace (done ++ x :: l) with ((done ++ [x]) ++ l)
      by (rewrite <- app_assoc; reflexivity).
    apply (IH (fun done x s s' Hin => Hstep done x s s' (or_intror Hin))
              (done ++ [x]) s1 s' Hrun).
    apply (Hstep done x s s1); auto. now left.
Qed.

Lemma compute_green_itx_marks (state : ndarray Z) (g walk : Z) itx acc :
  _compute_green_itx state g walk = Ok (itx, acc) ->
  (shape0 itx = shape0 state /\ shape1 itx = shape1 state)
  /\ forall cy cx,
       (item itx cy cx = 0 \/ item itx cy cx = 1)
       /\ (item itx cy cx = 1
           <-> item state cy cx = 0
               /\ exists y x, in_bounds state y x /\ 1 <= item state y x
                              /\ In (cy, cx) (_iter_nbs state y x true)).
Proof.
  unfold _compute_green_itx. intro Hrun.
  pose (Inv := fun (done : list (Z * Z)) (s : ndarray Z * ndarray Q) =>
    (shape0 (fst s) = shape0 state /\ shape1 (fst s) = shape1 state)
    /\ green_consistent (fst s) (snd s) g walk
    /\ forall cy cx,
         (item (fst s) cy cx = 0 \/ item (fst s) cy cx = 1)
         /\ (item (fst s) cy cx = 1
             <-> item state cy cx = 0
                 /\ exists y x, In (y, x) done /\ 1 <= item state y x
                                /\ In (cy, cx) (_iter_nbs state y x true))).
  assert (Hfin : Inv ([] ++ ndindex state) (itx, acc)).
  { refine (for_each_prefix _ Inv (ndindex state) _ [] _ _ Hrun _).
    - intros done [y x] [itx0 acc0] [itx1 acc1] Hin Hb ([S0 S1] & Hc & Hm).
      unfold Inv. cbn [fst snd] in *. apply in_ndindex in Hin.
      destruct (Z.ltb_spec (getitem state y x) 1) as [Hlt|Hge].
      { inversion Hb; subst. split; [now split|]. split; [exact Hc|].
        intros cy cx. destruct (Hm cy cx) as (H01 & Hiff). split; [exact H01|].
        rewrite Hiff. split.
        - intros (Hs & y' & x' & Hd & Hge & Hnb). split; [exact Hs|].
          exists y', x'. split; [apply in_or_app; now left|]. now split.
        - intros (Hs & y' & x' & Hd & Hge & Hnb). split; [exact Hs|].
          exists y', x'. split; [|now split].
          apply in_app_or in Hd. destruct Hd as [Hd|[E0|[]]]; [exact Hd|].
          inversion E0; subst. unfold getitem in Hlt. lia. }
      destruct (_green_state y x state itx0 acc0 g walk) as [[[b i] a0]|e] eqn:E;
        cbn [bind] in Hb; [|discriminate].
      inversion Hb; subst i a0.
      assert (Hbi : in_bounds itx0 y x) by (apply (in_bounds_shape itx0 state); auto).
      assert (H1 : getitem itx0 y x <> 1).
      { intro H1. apply (Hm y x) in H1. unfold getitem in Hge.
        destruct H1 as [H1 _]. lia. }
      destruct (green_state_keeps_consistent _ _ _ _ _ _ _ _ _ _ Hbi Hc E)
        as (Hcons & Hb1).
      assert (Eb : b = true) by (now apply Hb1). subst b.
      destruct (green_state_frame _ _ _ _ _ _ _ _ _ _ E) as ([T0 T1] & Hyx & Hfr).
      rewrite (iter_nbs_shape itx0 state y x true S0 S1) in Hfr.
      split; [split; congruence|]. split; [now apply Hcons|].
      intros cy cx. destruct (Hm cy cx) as (H01 & Hiff).
      destruct (cell_eq_dec (cy, cx) (y, x)) as [Eq|Hne].
      + inversion Eq; subst cy cx. unfold getitem in H1.
        assert (K : item itx1 y x = 0).
        { rewrite Hyx. destruct (Z.eqb_spec (item itx0 y x) 1); [reflexivity|].
          destruct H01; [assumption|contradiction]. }
        split; [now left|]. rewrite K. split; [discriminate|].
        intros (Hs & _). unfold getitem in Hge. lia.
      + destruct (Hfr cy cx Hne) as (Hon & Hoff).
        destruct (Z.eq_dec (item state cy cx) 0) as [Hs|Hs].
        * destruct (in_dec cell_eq_dec (cy, cx) (_iter_nbs state y x true))
            as [Hin'|Hnin].
          -- assert (K : item itx1 cy cx = 1).
             { destruct H01 as [H0|H1'].
               - apply Hon. auto.
               - rewrite Hoff; [exact H1'|]. intros (_ & _ & C). congruence. }
             split; [now right|]. rewrite K. split; [|reflexivity].
             intros _. split; [exact Hs|]. exists y, x.
             split; [apply in_or_app; right; now left|].
             split; [exact Hge|exact Hin'].
          -- rewrite Hoff by (intros (C & _); contradiction).
             split; [exact H01|]. rewrite Hiff. split.
             ++ intros (_ & y' & x' & Hd & Hg' & Hnb). split; [exact Hs|].
                exists y', x'. split; [apply in_or_app; now left|]. now split.
             ++ intros (_ & y' & x' & Hd & Hg' & Hnb). split; [exact Hs|].
                exists y', x'. split; [|now split].
                apply in_app_or in Hd. destruct Hd as [Hd|[E0|[]]]; [exact Hd|].
                inversion E0; subst. contradiction.
        * rewrite Hoff by (intros (_ & C & _); contradiction).
          split; [exact H01|]. rewrite Hiff.
          split; intros (C & _); contradiction.
    - unfold Inv. cbn [fst snd]. split; [now split|]. split.
      + split; [reflexivity|]. intros cy cx _. unfold getitem. cbn [full item].
        now rewrite frontier_sum_full.
      + intros cy cx. cbn [full item]. split; [now left|].
        split; [discriminate|]. intros (_ & ? & ? & [] & _). }
  destruct Hfin as (Hs & _ & Hm). cbn [fst snd app] in *.
  split; [exact Hs|]. intros cy cx. destruct (Hm cy cx) as (H01 & Hiff).
  split; [exact H01|]. rewrite Hiff. split.
  - intros (Hst & y & x & Hin & Hge & Hnb). split; [exact Hst|].
    exists y, x. split; [now apply in_ndindex|]. now split.
  - intros (Hst & y & x & Hin & Hge & Hnb). split; [exact Hst|].
    exists y, x. split; [now apply in_ndindex|]. now split.
Qed.

(** X11. When [_compute_green_itx] returns (it does for a walking radius
    other than zero), the frontier array has the shape of the grid, holds
    zeros and ones only, and marks a cell of the grid 1 exactly when the
    cell is nature and shares an edge with a cell of class 1 or more. *)
Theorem compute_green_itx_frontier :
  forall (state : ndarray Z) (g walk : Z),
    (walk <> 0 -> exists itx acc, _compute_green_itx state g walk = Ok (itx, acc))
    /\ forall itx acc,
         _compute_green_itx state g walk = Ok (itx, acc) ->
         shape itx = shape state
         /\ forall cy cx, in_bounds state cy cx ->
              (getitem itx cy cx = 0 \/ getitem itx cy cx = 1)
              /\ (getitem itx cy cx = 1
                  <-> getitem state cy cx = 0 /\ built_neighbour state cy cx).
Proof.
  intros state g walk. split.
  - intro Hw. destruct (compute_green_itx_consistent state g walk Hw)
      as (itx & acc & H & _). now exists itx, acc.
  - intros itx acc H.
    destruct (compute_green_itx_marks _ _ _ _ _ H) as ([S0 S1] & Hm).
    split; [unfold shape; congruence|]. intros cy cx Hb.
    destruct (Hm cy cx) as (H01 & Hiff). split; [exact H01|].
    unfold getitem, built_neighbour. rewrite Hiff. split.
    + intros (Hs & y & x & Hin & Hge & Hnb). split; [exact Hs|].
      exists y, x. split; [exact Hin|]. split; [exact Hge|].
      apply in_rook_nbs in Hnb. destruct Hnb as (_ & Hadj).
      unfold rook_adjacent in *. simpl in *. lia.
    + intros (Hs & y & x & Hin & Hge & Hadj). split; [exact Hs|].
      exists y, x. split; [exact Hin|]. split; [exact Hge|].
      apply in_rook_nbs. split; [exact Hb|].
      unfold rook_adjacent in *. simpl in *. lia.
Qed.

Lemma activate_loop_idle (state : ndarray Z) (g walk : Z) :
  forall (nbs : list (Z * Z)) (itx : ndarray Z) (acc : ndarray Q),
    (forall cy cx, In (cy, cx) nbs -> item state cy cx <> 0) ->
    for_each (activate_nb state g walk) (itx, acc) nbs = Ok (itx, acc).
Proof.
  induction nbs as [|[ny nx] rest IH]; intros itx acc H; [reflexivity|].
  cbn [for_each]. unfold activate_nb at 1, getitem.
  assert (E : (item state ny nx =? 0) = false).
  { apply Z.eqb_neq. apply H. now left. }
  rewrite E. cbn [andb bind]. apply IH. intros ? ? ?. apply H. now right.
Qed.

Lemma green_state_idle (y x : Z) (state itx : ndarray Z) (acc : ndarray Q)
    (g walk : Z) :
  item itx y x <> 1 ->
  (forall cy cx, In (cy, cx) (_iter_nbs itx y x true) -> item state cy cx <> 0) ->
  _green_state y x state itx acc g walk = Ok (true, itx, acc).
Proof.
  intros H1 Hn. unfold _green_state, green_state_work, getitem.
  apply Z.eqb_neq in H1. rewrite H1. cbn [bind].
  rewrite (activate_loop_idle state g walk _ itx acc Hn). cbn [bind].
  now rewrite strands_same.
Qed.

Lemma compute_green_itx_idle_loop (state : ndarray Z) (g walk : Z) :
  forall (l : list (Z * Z)),
    (forall y x, In (y, x) l -> in_bounds state y x) ->
    (forall y x, In (y, x) l -> 1 <= item state y x ->
                 ~ nature_neighbour state y x) ->
    for_each (fun '(green_itx_arr, green_acc_arr) '(y_idx, x_idx) =>
        if getitem state y_idx x_idx <? 1 then Ok (green_itx_arr, green_acc_arr)
        else
          '(_success, green_itx_arr, green_acc_arr) <-
             _green_state y_idx x_idx state green_itx_arr green_acc_arr g walk ;;
          Ok (green_itx_arr, green_acc_arr))
      (full (shape state) 0, full (shape state) 0%Q) l
    = Ok (full (shape state) 0, full (shape state) 0%Q).
Proof.
  induction l as [|[y x] l IH]; intros Hb Hn; [reflexivity|].
  cbn [for_each].
  destruct (Z.ltb_spec (getitem state y x) 1) as [Hlt|Hge].
  - cbn [bind]. apply IH; intros; [apply Hb|apply Hn]; auto; now right.
  - rewrite green_state_idle.
    + cbn [bind]. apply IH; intros; [apply Hb|apply Hn]; auto; now right.
    + cbn [full item]. discriminate.
    + intros cy cx Hin Hs.
      apply (Hn y x); [now left|exact Hge|].
      apply in_rook_nbs in Hin. destruct Hin as (Hin & Hadj).
      exists cy, cx. split; [exact Hin|]. split; [exact Hs|exact Hadj].
Qed.

Lemma compute_green_itx_zero_radius_loop (state : ndarray Z) (g : Z) :
  forall (l : list (Z * Z)),
    (forall y x, In (y, x) l -> in_bounds state y x) ->
    (exists y x, In (y, x) l /\ 1 <= item state y x /\ nature_neighbour state y x) ->
    for_each (fun '(green_itx_arr, green_acc_arr) '(y_idx, x_idx) =>
        if getitem state y_idx x_idx <? 1 then Ok (green_itx_arr, green_acc_arr)
        else
          '(_success, green_itx_arr, green_acc_arr) <-
             _green_state y_idx x_idx state green_itx_arr green_acc_arr g 0 ;;
          Ok (green_itx_arr, green_acc_arr))
      (full (shape state) 0, full (shape state) 0%Q) l
    = Raise ZeroDivisionError.
Proof.
  induction l as [|[y0 x0] l IH]; intros Hb (y & x & Hin & Hge & Hnat);
    [contradiction|].
  cbn [for_each].
  destruct (Z.ltb_spec (getitem state y0 x0) 1) as [Hlt|Hge0].
  - cbn [bind]. apply IH; [intros; apply Hb; now right|].
    exists y, x. split; [|now split].
    destruct Hin as [E0|Hin]; [|exact Hin].
    inversion E0; subst. unfold getitem in Hlt. lia.
  - destruct (_green_state y0 x0 state (full (shape state) 0)
                (full (shape state) 0%Q) g 0) as [[[b itx'] acc']|e] eqn:E.
    + cbn [bind].
      assert (Hb0 : in_bounds (full (shape state) 0) y0 x0).
      { apply (Hb y0 x0). now left. }
      pose proof (green_state_frame _ _ _ _ _ _ _ _ _ _ E) as (_ & _ & Hfr).
      apply green_state_zero_walk in E; auto.
      destruct E as (-> & -> & ->).
      apply IH; [intros; apply Hb; now right|].
      exists y, x. split; [|now split].
      destruct Hin as [E0|Hin]; [|exact Hin].
      inversion E0; subst y0 x0. exfalso.
      destruct Hnat as (cy & cx & Hbc & Hs & Hadj).
      assert (Hne : (cy, cx) <> (y, x)).
      { intro Eq. inversion Eq; subst. unfold rook_adjacent in Hadj.
        simpl in Hadj. lia. }
      destruct (Hfr cy cx Hne) as (Hon & _).
      assert (K : item (full (shape state) 0) cy cx = 1).
      { apply Hon. split; [|split; [exact Hs|reflexivity]].
        apply in_rook_nbs. split; [exact Hbc|exact Hadj]. }
      discriminate K.
    + destruct e; [| reflexivity |].
      * exfalso. apply (never_green_state ValueError y0 x0 state
                          (full (shape state) 0) (full (shape state) 0%Q) g 0);
          [intro C; discriminate|exact E].
      * exfalso. apply (never_green_state IndexError y0 x0 state
                          (full (shape state) 0) (full (shape state) 0%Q) g 0);
          [intro C; discriminate|exact E].
Qed.

(** X12. On a grid on which no cell of class 1 or more shares an edge with a
    cell of nature (a grid with nothing built, say) [_compute_green_itx]
    returns a frontier and a surface of zeros whatever the walking radius,
    zero included.  On any other grid a walking radius of zero makes it end
    in [ZeroDivisionError]. *)
Theorem compute_green_itx_edge_cases :
  forall (state : ndarray Z) (g : Z),
    ((forall y x, in_bounds state y x -> 1 <= getitem state y x ->
                  ~ nature_neighbour state y x) ->
     forall walk,
       _compute_green_itx state g walk
       = Ok (full (shape state) 0, full (shape state) 0%Q))
    /\ ((exists y x, in_bounds state y x /\ 1 <= getitem state y x
                     /\ nature_neighbour state y x) ->
        _compute_green_itx state g 0 = Raise ZeroDivisionError).
Proof.
  intros state g. split.
  - intros H walk. unfold _compute_green_itx. apply compute_green_itx_idle_loop.
    + intros y x Hin. now apply in_ndindex.
    + intros y x Hin. apply H. now apply in_ndindex.
  - intros (y & x & Hb & Hge & Hn). unfold _compute_green_itx.
    apply compute_green_itx_zero_radius_loop.
    + intros cy cx Hin. now apply in_ndindex.
    + exists y, x. split; [now apply in_ndindex|]. now split.
Qed.

(** ** Span validation, further *)

Lemma green_rays_zero_cell_size (arr : ndarray Z) (y x ml ms : Z) :
  green_rays arr y x 0 ml ms = Raise ZeroDivisionError.
Proof.
  unfold green_rays. destruct (rays_of arr y x) as [x_rays y_rays].
  assert (S : forall ray span, shorter_than ray span 0 = Raise ZeroDivisionError).
  { intros. unfold shorter_than. now rewrite true_div_zero. }
  rewrite !S.
  destruct (_ && _); cbn [bind]; [reflexivity|].
  destruct (_ && _); cbn [bind]; reflexivity.
Qed.

(** X13. With a cell size of zero [green_rays] ends in [ZeroDivisionError]
    for every cell of every grid: the comparison with the long span divides
    by the cell size whenever no earlier one did. *)
Theorem green_rays_zero_granularity :
  forall (arr : ndarray Z) (y x min_long min_short : Z),
    green_rays arr y x 0 min_long min_short = Raise ZeroDivisionError.
Proof. intros. apply green_rays_zero_cell_size. Qed.

Lemma same_decision (b b' : bool) (P Q : Prop) :
  (b = false <-> P) -> (b' = false <-> Q) -> (P <-> Q) -> b = b'.
Proof. intros H H' HPQ. destruct b, b'; intuition congruence. Qed.

Lemma span_rejected_swap (l r u d g ml ms : Z) :
  span_rejected (u, d, l, r) g ml ms <-> span_rejected (l, r, u, d) g ml ms.
Proof.
  unfold span_rejected.
  rewrite (Z.max_comm (Z.max u d) (Z.max l r)), (Z.min_comm (Z.max u d) (Z.max l r)).
  tauto.
Qed.

(** X14. [green_rays] treats the two axes alike: on the transposed grid, at
    the transposed cell, it returns what it returns on the grid. *)
Theorem green_rays_transpose :
  forall (arr : ndarray Z) (y x g min_long min_short : Z),
    green_rays (transpose arr) x y g min_long min_short
    = green_rays arr y x g min_long min_short.
Proof.
  intros arr y x g ml ms. destruct (Z.eq_dec g 0) as [->|Hg].
  - now rewrite !green_rays_zero_cell_size.
  - destruct (green_rays_decides arr y x g ml ms Hg) as (b & E & H).
    destruct (green_rays_decides (transpose arr) x y g ml ms Hg) as (b' & E' & H').
    rewrite E, E'. f_equal.
    apply (same_decision b' b _ _ H' H).
    change (four_rays (transpose arr) x y)
      with (green_ray (col_of arr x) y false, green_ray (col_of arr x) y true,
            green_ray (row_of arr y) x false, green_ray (row_of arr y) x true).
    apply span_rejected_swap.
Qed.

Lemma shorter_monotone (ray span span' g : Z) :
  0 < g -> span' <= span -> shorter ray span' g -> shorter ray span g.
Proof.
  unfold shorter. intros Hg Hs H.
  eapply Qlt_le_trans; [exact H|].
  unfold Qdiv. apply Qmult_le_compat_r.
  - unfold Qle. simpl. lia.
  - apply Qlt_le_weak, Qinv_lt_0_compat. unfold Qlt. simpl. lia.
Qed.

Lemma span_rejected_monotone (rays : Z * Z * Z * Z) (g ml ms ml' ms' : Z) :
  0 < g -> ml' <= ml -> ms' <= ms ->
  span_rejected rays g ml' ms' -> span_rejected rays g ml ms.
Proof.
  intros Hg Hl Hs. destruct rays as [[[l r] u] d]. unfold span_rejected, pinched.
  intros [[N S]|[[N S]|[S|S]]].
  - left. split; [exact N|]. eapply shorter_monotone; eauto.
  - right; left. split; [exact N|]. eapply shorter_monotone; eauto.
  - right; right; left. eapply shorter_monotone; eauto.
  - right; right; right. eapply shorter_monotone; eauto.
Qed.

(** X15. For a positive cell size, a cell that [green_rays] accepts is
    accepted again when the two minimal spans are lowered (or kept); with
    both spans at 0 or below, every cell is accepted. *)
Theorem green_rays_monotone :
  forall (arr : ndarray Z) (y x g min_long min_short min_long' min_short' : Z),
    0 < g -> min_long' <= min_long -> min_short' <= min_short ->
    (green_rays arr y x g min_long min_short = Ok true ->
     green_rays arr y x g min_long' min_short' = Ok true)
    /\ (min_long <= 0 -> min_short <= 0 ->
        green_rays arr y x g min_long min_short = Ok true).
Proof.
  intros arr y x g ml ms ml' ms' Hg Hl Hs.
  assert (Hne : g <> 0) by lia. split.
  - intro H.
    destruct (green_rays_decides arr y x g ml ms Hne) as (b & E & Hb).
    destruct (green_rays_decides arr y x g ml' ms' Hne) as (b' & E' & Hb').
    rewrite E in H. inversion H; subst b. rewrite E'. f_equal.
    destruct b'; [reflexivity|]. exfalso.
    assert (R : span_rejected (four_rays arr y x) g ml ms).
    { apply (span_rejected_monotone _ g ml ms ml' ms' Hg Hl Hs). now apply Hb'. }
    apply Hb in R. discriminate.
  - intros Hl0 Hs0.
    destruct (green_rays_decides arr y x g ml ms Hne) as (b & E & Hb).
    rewrite E. f_equal. destruct b; [reflexivity|]. exfalso.
    assert (R : span_rejected (four_rays arr y x) g ml ms) by (now apply Hb).
    assert (N : forall ray span, 0 <= ray -> span <= 0 -> ~ shorter ray span g).
    { intros ray span Hr Hsp C. unfold shorter in C.
      assert (D : (inject_Z span / inject_Z g <= 0)%Q).
      { unfold Qdiv. rewrite <- (Qmult_0_l (/ inject_Z g)).
        apply Qmult_le_compat_r.
        - unfold Qle. simpl. lia.
        - apply Qlt_le_weak, Qinv_lt_0_compat. unfold Qlt. simpl. lia. }
      assert (F : (0 <= inject_Z ray)%Q) by (unfold Qle; simpl; lia).
      lra. }
    unfold four_rays, span_rejected, pinched in R.
    pose proof (green_ray_nonneg (row_of arr y) x false).
    pose proof (green_ray_nonneg (row_of arr y) x true).
    pose proof (green_ray_nonneg (col_of arr x) y false).
    pose proof (green_ray_nonneg (col_of arr x) y true).
    destruct R as [[_ S]|[[_ S]|[S|S]]]; revert S; apply N; lia.
Qed.

Lemma green_rays_monotone_witness :
  0 < 100 /\ 400 <= 500 /\ 50 <= 100
  /\ green_rays grid_one_sided 0 0 100 500 100 = Ok true
  /\ green_rays grid_one_sided 0 0 100 400 50 = Ok true.
Proof.
  split; [lia|]. split; [lia|]. split; [lia|].
  assert (H : green_rays grid_one_sided 0 0 100 500 100 = Ok true)
    by (vm_compute; reflexivity).
  split; [exact H|].
  apply (proj1 (green_rays_monotone grid_one_sided 0 0 100 500 100 400 50
                  ltac:(lia) ltac:(lia) ltac:(lia))).
  exact H.
Defined.

(** ** Runs round a cell, further *)

Lemma count_circle_bounds_checked (n : nat) :
  (n <= 8)%nat -> forallb count_circle_bounded (all_rings n) = true.
Proof.
  intro Hn.
  do 9 (destruct n as [|n]; [vm_compute; reflexivity|]).
  lia.
Qed.

(** X16. The two numbers [_count_cont_nbs] returns are bounded by the ring
    of queen neighbours: the longest run is at most the number of matching
    neighbours, which is at most 8; there are at most 4 runs; the runs
    together hold every matching neighbour; and both numbers are 0 exactly
    when no neighbour matches. *)
Theorem count_cont_nbs_bounds :
  forall (state : ndarray Z) (y x : Z) (targets : list Z),
    let matching := ones (circle_of state y x targets) in
    let '(longest, runs) := _count_cont_nbs state y x targets in
    0 <= longest <= matching /\ matching <= 8
    /\ 0 <= runs <= 4
    /\ matching <= longest * runs
    /\ (runs = 0 <-> matching = 0)
    /\ (longest = 0 <-> matching = 0).
Proof.
  intros state y x targets. cbv zeta. unfold _count_cont_nbs.
  set (ring := circle_of state y x targets).
  assert (Hlen : (List.length ring <= 8)%nat).
  { unfold ring, circle_of. rewrite length_map. apply iter_nbs_length. }
  pose proof (count_circle_bounds_checked _ Hlen) as Hall.
  rewrite forallb_forall in Hall.
  specialize (Hall ring (in_all_rings ring (circle_of_01 state y x targets))).
  unfold count_circle_bounded in Hall.
  destruct (count_circle ring) as [longest runs].
  repeat (apply andb_true_iff in Hall; destruct Hall as [Hall ?]).
  repeat match goal with
         | H : (_ <=? _) = true |- _ => apply Z.leb_le in H
         | H : Bool.eqb _ _ = true |- _ => apply Bool.eqb_prop in H
         end.
  assert (R : runs = 0 <-> ones ring = 0).
  { rewrite <- !Z.eqb_eq. now rewrite H0. }
  assert (L : longest = 0 <-> ones ring = 0).
  { rewrite <- !Z.eqb_eq. now rewrite H. }
  repeat split; try lia; try apply R; try apply L.
Qed.

(** ** Density assignment, further *)

(** X17. When the third threshold of the distribution is not above the
    second, as in the default (0.7, 0.3, 0), [_random_density] never returns
    the second density factor: it returns the first one for a draw [p] with
    [0 <= p < pd0] and the third one for any other draw. *)
Theorem random_density_skips_medium :
  forall (pd0 pd1 pd2 df0 df1 df2 : Q) (g : rng),
    (pd2 <= pd1)%Q ->
    let p := draws g (drawn g) in
    let d := fst (_random_density (pd0, pd1, pd2) (df0, df1, df2) g) in
    ((0 <= p /\ p < pd0)%Q -> d = df0)
    /\ (~ (0 <= p /\ p < pd0)%Q -> d = df2).
Proof.
  intros pd0 pd1 pd2 df0 df1 df2 g Hpd. cbv zeta.
  unfold _random_density, rand. cbn [draws drawn].
  set (p := draws g (drawn g)).
  destruct (Qle_bool 0 p && Qlt_bool p pd0) eqn:E1.
  - cbn [fst]. split; [reflexivity|]. intro N. exfalso. apply N.
    apply andb_true_iff in E1. destruct E1 as [A B].
    split; [now apply Qle_bool_iff|now apply Qlt_bool_iff].
  - assert (E2 : Qle_bool pd1 p && Qlt_bool p pd2 = false).
    { destruct (Qle_bool pd1 p) eqn:A; [|reflexivity].
      destruct (Qlt_bool p pd2) eqn:B; [|reflexivity].
      apply Qle_bool_iff in A. apply Qlt_bool_iff in B. lra. }
    rewrite E2. cbn [fst]. split; [|reflexivity].
    intros [A B]. exfalso.
    apply Qle_bool_iff in A. apply Qlt_bool_iff in B.
    rewrite A, B in E1. discriminate.
Qed.

Lemma random_density_skips_medium_witness :
  (0 <= 3 # 10)%Q
  /\ fst (_random_density ((7 # 10), (3 # 10), 0)%Q (1, (1 # 10), (1 # 100))%Q
            (mk_rng (fun _ => (1 # 2)%Q) 0)) = 1%Q
  /\ fst (_random_density ((7 # 10), (3 # 10), 0)%Q (1, (1 # 10), (1 # 100))%Q
            (mk_rng (fun _ => (8 # 10)%Q) 0)) = (1 # 100)%Q.
Proof.
  split; [discriminate|]. split.
  - apply (proj1 (random_density_skips_medium (7 # 10) (3 # 10) 0 1 (1 # 10) (1 # 100)
                    (mk_rng (fun _ => (1 # 2)%Q) 0) ltac:(discriminate))).
    split; [discriminate|reflexivity].
  - reflexivity.
Defined.

(** ** Construction, further *)

Lemma norm_index_ok (n i : Z) :
  - n <= i < n -> norm_index n i = Ok (if i <? 0 then i + n else i).
Proof.
  intro H. unfold norm_index.
  destruct (Z.leb_spec 0 i), (Z.ltb_spec i n), (Z.leb_spec (- n) i),
    (Z.ltb_spec i 0); simpl; try reflexivity; lia.
Qed.

Lemma norm_index_error (n i : Z) :
  ~ - n <= i < n -> norm_index n i = Raise IndexError.
Proof.
  intro H. unfold norm_index.
  destruct (Z.leb_spec 0 i), (Z.ltb_spec i n), (Z.leb_spec (- n) i),
    (Z.ltb_spec i 0); simpl; try reflexivity; lia.
Qed.

Section ConstructionFurther.

Context {ext : Externals}.

Lemma seed_in_range_dec (a : LandArgs) (seed : Q * Q) :
  {seed_in_range a seed} + {~ seed_in_range a seed}.
Proof.
  unfold seed_in_range.
  destruct (Z_le_dec (- shape0 (arg_extents_arr a)) (fst (seed_rowcol a seed)));
    destruct (Z_lt_dec (fst (seed_rowcol a seed)) (shape0 (arg_extents_arr a)));
    destruct (Z_le_dec (- shape1 (arg_extents_arr a)) (snd (seed_rowcol a seed)));
    destruct (Z_lt_dec (snd (seed_rowcol a seed)) (shape1 (arg_extents_arr a)));
    first [left; lia | right; lia].
Qed.

Lemma seed_at_dec (a : LandArgs) (seeds : list (Q * Q)) (cy cx : Z) :
  (exists seed, In seed seeds /\ seed_cell a seed = (cy, cx))
  \/ ~ (exists seed, In seed seeds /\ seed_cell a seed = (cy, cx)).
Proof.
  induction seeds as [|s seeds IH].
  - right. intros (? & [] & _).
  - destruct (cell_eq_dec (seed_cell a s) (cy, cx)) as [E|N].
    + left. exists s. split; [now left|exact E].
    + destruct IH as [(seed & H & E)|IH].
      * left. exists seed. split; [now right|exact E].
      * right. intros (seed & [<-|H] & E); [contradiction|].
        apply IH. now exists seed.
Qed.

Lemma seed_centres_loop (a : LandArgs) :
  forall (seeds : list (Q * Q)) (st : ndarray Z),
    shape0 st = shape0 (arg_extents_arr a) ->
    shape1 st = shape1 (arg_extents_arr a) ->
    ((forall seed, In seed seeds -> seed_in_range a seed) ->
     exists st',
       for_each (fun state_arr '(east, north) =>
                   let '(x, y) := rowcol (arg_extents_transform a) east north in
                   setitem_checked state_arr x y 2) st seeds = Ok st'
       /\ (shape0 st' = shape0 st /\ shape1 st' = shape1 st)
       /\ forall cy cx,
            ((exists seed, In seed seeds /\ seed_cell a seed = (cy, cx)) ->
             item st' cy cx = 2)
            /\ (~ (exists seed, In seed seeds /\ seed_cell a seed = (cy, cx)) ->
                item st' cy cx = item st cy cx))
    /\ ((exists seed, In seed seeds /\ ~ seed_in_range a seed) ->
        for_each (fun state_arr '(east, north) =>
                    let '(x, y) := rowcol (arg_extents_transform a) east north in
                    setitem_checked state_arr x y 2) st seeds = Raise IndexError).
Proof.
  induction seeds as [|[east north] seeds IH]; intros st S0 S1.
  - split.
    + intros _. exists st. split; [reflexivity|]. split; [now split|].
      intros cy cx. split; [intros (? & [] & _)|reflexivity].
    + intros (? & [] & _).
  - cbn [for_each].
    assert (Hrc : rowcol (arg_extents_transform a) east north
                  = seed_rowcol a (east, north)) by reflexivity.
    destruct (seed_in_range_dec a (east, north)) as [Hin|Hout].
    + assert (E : (let '(x, y) := rowcol (arg_extents_transform a) east north in
                   setitem_checked st x y 2)
                  = Ok (setitem st (fst (seed_cell a (east, north)))
                          (snd (seed_cell a (east, north))) 2)).
      { unfold seed_cell. rewrite Hrc.
        destruct (seed_rowcol a (east, north)) as [r c] eqn:Erc.
        unfold seed_in_range in Hin. rewrite Erc in Hin. cbn [fst snd] in *.
        unfold setitem_checked. rewrite S0, S1.
        rewrite (norm_index_ok _ r) by lia. cbn [bind].
        rewrite (norm_index_ok _ c) by lia. reflexivity. }
      rewrite E. cbn [bind].
      destruct (IH (setitem st (fst (seed_cell a (east, north)))
                      (snd (seed_cell a (east, north))) 2) S0 S1) as [IHok IHerr].
      split.
      * intro Hall.
        destruct IHok as (st' & Hrun & [T0 T1] & Hcells).
        { intros seed Hs. apply Hall. now right. }
        exists st'. split; [exact Hrun|]. split; [now split|].
        intros cy cx. destruct (Hcells cy cx) as [Hyes Hno]. split.
        -- intros (seed & [Eq|Hs] & Hc).
           ++ subst seed.
              destruct (seed_at_dec a seeds cy cx) as [Hex|Hnex].
              ** now apply Hyes.
              ** rewrite (Hno Hnex), Hc. apply item_setitem_same.
           ++ apply Hyes. now exists seed.
        -- intro Hn. rewrite Hno.
           ++ apply item_setitem_other. intro Eq. apply Hn.
              exists (east, north). split; [now left|].
              destruct (seed_cell a (east, north)). cbn [fst snd] in Eq.
              now inversion Eq.
           ++ intros (seed & Hs & Hc). apply Hn. exists seed.
              split; [now right|exact Hc].
      * intros (seed & [Eq|Hs] & Hbad).
        -- subst seed. contradiction.
        -- apply IHerr. now exists seed.
    + split.
      * intro Hall. exfalso. apply Hout. apply Hall. now left.
      * intros _. rewrite Hrc.
        destruct (seed_rowcol a (east, north)) as [r c] eqn:Erc.
        unfold seed_in_range in Hout. rewrite Erc in Hout. cbn [fst snd] in Hout.
        unfold setitem_checked. rewrite S0, S1.
        destruct (Z_le_dec (- shape0 (arg_extents_arr a)) r) as [A|A];
          [destruct (Z_lt_dec r (shape0 (arg_extents_arr a))) as [B|B]|].
        -- rewrite (norm_index_ok _ r) by lia. cbn [bind].
           rewrite (norm_index_error _ c) by lia. reflexivity.
        -- rewrite (norm_index_error _ r) by lia. reflexivity.
        -- rewrite (norm_index_error _ r) by lia. reflexivity.
Qed.

End ConstructionFurther.

Section ConstructedEngine.

Context {ext : Externals}.

Lemma Land_init_inv (a : LandArgs) (w : World) (L : Land) (w' : World) :
  Land_init a w = Ok (L, w') ->
  Qlt_bool (extents_area_km2 a) (inject_Z (2 * arg_min_green_km2 a)) = false
  /\ exists st itx acc cent,
       for_each (fun state_arr '(east, north) =>
                   let '(x, y) := rowcol (arg_extents_transform a) east north in
                   setitem_checked state_arr x y 2)
         (cast_extents a) (arg_centre_seeds a) = Ok st
       /\ _compute_green_itx st (arg_granularity_m a) (arg_walk_dist_m a)
          = Ok (itx, acc)
       /\ _compute_centres_access st (arg_granularity_m a) (arg_walk_dist_m a)
          = Ok cent
       /\ L = mk_Land 0 (arg_granularity_m a) (arg_walk_dist_m a)
                (arg_extents_transform a) (arg_build_prob a) (arg_cent_prob_nb a)
                (arg_cent_prob_isol a) (arg_max_local_pop a)
                (arg_prob_distribution a) (arg_density_factors a)
                st itx (full (shape (arg_extents_arr a)) 0%Q) cent acc None
                (arg_min_green_km2 a) (arg_min_long_green_span_m a)
                (arg_min_short_green_span_m a)
       /\ w' = np_random_seed (arg_random_seed a) w.
Proof.
  unfold Land_init. intro H.
  change (mk_ndarray (shape0 (arg_extents_arr a)) (shape1 (arg_extents_arr a))
            (fun y x => int16 (item (arg_extents_arr a) y x)))
    with (cast_extents a) in H.
  change (inject_Z (shape0 (cast_extents a) * arg_granularity_m a
                    * shape1 (cast_extents a) * arg_granularity_m a)
          / inject_Z (1000 * 1000))%Q with (extents_area_km2 a) in H.
  destruct (Qlt_bool (extents_area_km2 a) _); [discriminate|].
  split; [reflexivity|].
  destruct (for_each _ (cast_extents a) (arg_centre_seeds a)) as [st|e] eqn:E0;
    cbn [bind] in H; [|discriminate].
  destruct (_compute_green_itx st _ _) as [[itx acc]|e] eqn:E1; cbn [bind] in H;
    [|discriminate].
  destruct (_compute_centres_access st _ _) as [cent|e] eqn:E2; cbn [bind] in H;
    [|discriminate].
  inversion H; subst. exists st, itx, acc, cent.
  split; [reflexivity|]. split; [exact E1|]. split; [exact E2|].
  split; reflexivity.
Qed.


Lemma seeds_in_range_or_not (a : LandArgs) (seeds : list (Q * Q)) :
  (forall seed, In seed seeds -> seed_in_range a seed)
  \/ (exists seed, In seed seeds /\ ~ seed_in_range a seed).
Proof.
  induction seeds as [|s seeds IH]; [left; intros ? []|].
  destruct (seed_in_range_dec a s) as [Hs|Hs].
  - destruct IH as [IH|(seed & Hin & Hbad)].
    + left. intros seed [<-|Hin]; auto.
    + right. exists seed. split; [now right|exact Hbad].
  - right. exists s. split; [now left|exact Hs].
Qed.


End ConstructedEngine.

Section FreshEngine.

Context {ext : Externals}.

Lemma Land_init_state (a : LandArgs) (w : World) (L : Land) (w' : World) :
  Land_init a w = Ok (L, w') ->
  (forall seed, In seed (arg_centre_seeds a) -> seed_in_range a seed)
  /\ (shape0 (state_arr L) = shape0 (arg_extents_arr a)
      /\ shape1 (state_arr L) = shape1 (arg_extents_arr a))
  /\ forall cy cx,
       ((exists seed, In seed (arg_centre_seeds a) /\ seed_cell a seed = (cy, cx)) ->
        item (state_arr L) cy cx = 2)
       /\ (~ (exists seed, In seed (arg_centre_seeds a)
                           /\ seed_cell a seed = (cy, cx)) ->
           item (state_arr L) cy cx = int16 (item (arg_extents_arr a) cy cx)).
Proof.
  intro H. destruct (Land_init_inv a w L w' H)
    as (_ & st & itx & acc & cent & Hseeds & _ & _ & -> & _).
  cbn [state_arr].
  destruct (seed_centres_loop a (arg_centre_seeds a) (cast_extents a)
              eq_refl eq_refl) as [Hgood Hbad].
  destruct (seeds_in_range_or_not a (arg_centre_seeds a)) as [Hall|Hex].
  - destruct (Hgood Hall) as (st' & Hrun & Hs & Hcells).
    rewrite Hrun in Hseeds. inversion Hseeds; subst st'.
    split; [exact Hall|]. split; [exact Hs|exact Hcells].
  - rewrite (Hbad Hex) in Hseeds. discriminate.
Qed.

(** X19. An engine that [Land.__init__] returns has made no step, holds no
    areas array and a density of 0 everywhere, and carries the parameters it
    was given.  Its grid has the shape of the extents: a cell a seed lands
    on (a negative row or column counting from the end) is a centre, and
    every other cell holds the value of the extents cast to [int16].  The
    process-wide generator has been seeded and nothing else of the process
    has changed. *)
Theorem Land_init_fresh_engine :
  forall (a : LandArgs) (w : World) (L : Land) (w' : World),
    Land_init a w = Ok (L, w') ->
    (iters L = 0 /\ areas_arr L = None
     /\ density_arr L = full (shape (arg_extents_arr a)) 0%Q)
    /\ (granularity_m L = arg_granularity_m a
        /\ walk_dist_m L = arg_walk_dist_m a
        /\ trf L = arg_extents_transform a
        /\ build_prob L = arg_build_prob a
        /\ cent_prob_nb L = arg_cent_prob_nb a
        /\ cent_prob_isol L = arg_cent_prob_isol a
        /\ max_local_pop L = arg_max_local_pop a
        /\ prob_distribution L = arg_prob_distribution a
        /\ density_factors L = arg_density_factors a
        /\ min_green_km2 L = arg_min_green_km2 a
        /\ min_long_green_span_m L = arg_min_long_green_span_m a
        /\ min_short_green_span_m L = arg_min_short_green_span_m a)
    /\ (shape (state_arr L) = shape (arg_extents_arr a)
        /\ forall cy cx,
             ((exists seed, In seed (arg_centre_seeds a)
                            /\ seed_cell a seed = (cy, cx)) ->
              getitem (state_arr L) cy cx = 2)
             /\ (~ (exists seed, In seed (arg_centre_seeds a)
                                 /\ seed_cell a seed = (cy, cx)) ->
                 getitem (state_arr L) cy cx
                 = int16 (getitem (arg_extents_arr a) cy cx)))
    /\ (np_random w' = mk_rng (seeded (arg_random_seed a)) 0
        /\ nb_random w' = nb_random w
        /\ stdout w' = stdout w /\ log w' = log w).
Proof.
  intros a w L w' H.
  destruct (Land_init_state a w L w' H) as (_ & [S0 S1] & Hcells).
  destruct (Land_init_inv a w L w' H)
    as (_ & st & itx & acc & cent & _ & _ & _ & -> & ->).
  cbn. split; [auto|]. split; [repeat split|]. split.
  - split; [unfold shape; cbn in S0, S1; congruence|exact Hcells].
  - auto.
Qed.

End FreshEngine.

Lemma Land_init_fresh_engine_witness :
  exists L w',
    Land_init (strip_args 3 100 [(50, 50)%Q] 1) fresh_world = Ok (L, w')
    /\ iters L = 0 /\ areas_arr L = None
    /\ to_rows (state_arr L) = [[2; 0; 0]].
Proof.
  eexists. eexists.
  assert (E : Land_init (strip_args 3 100 [(50, 50)%Q] 1) fresh_world = Ok (_, _))
    by reflexivity.
  split; [exact E|].
  destruct (Land_init_fresh_engine _ _ _ _ E) as ((H1 & H2 & _) & _).
  split; [exact H1|]. split; [exact H2|]. reflexivity.
Defined.

(** ** Growth steps, cell by cell *)

Section CellUpdates.

Context {ext : Externals}.

Lemma random_density_factor (L : Land) (g : rng) :
  is_density_factor L
    (fst (_random_density (prob_distribution L) (density_factors L) g)).
Proof.
  unfold is_density_factor, _random_density, rand.
  destruct (prob_distribution L) as [[pd0 pd1] pd2].
  destruct (density_factors L) as [[df0 df1] df2]. cbn [fst snd].
  destruct (_ && _); [now left|]. destruct (_ && _); cbn [fst]; auto.
Qed.

Lemma claim_built_update (s s' : scan) (y x : Z) :
  claim_built s y x = Ok s' ->
  getitem (green_itx_arr (self s)) y x = 1 \/ getitem (state_arr (self s)) y x = 0 ->
  cell_update (self s) y x (self s').
Proof.
  unfold claim_built. intros Hrun Hpre. split; [exact Hpre|].
  destruct (_green_state y x (state_arr (self s)) (green_itx_arr (self s))
              (green_acc_arr (self s)) (granularity_m (self s))
              (walk_dist_m (self s))) as [[[b itx] acc]|e] eqn:E;
    cbn [bind] in Hrun; [|discriminate].
  exists b, itx, acc. split; [reflexivity|].
  destruct b.
  - right. split; [reflexivity|].
    unfold set_random_density in Hrun.
    pose proof (random_density_factor (self s) (nb_random (world s))) as Hd.
    cbn [prob_distribution density_factors set_state_arr set_green] in Hrun.
    destruct (_random_density _ _ _) as [d g]. cbn [fst] in Hd.
    inversion Hrun; subst s'. clear Hrun. cbn [self].
    exists d. split; [exact Hd|]. left. reflexivity.
  - left. split; [reflexivity|]. inversion Hrun; subst s'. reflexivity.
Qed.

Lemma claim_centre_update (s s' : scan) (y x : Z) :
  claim_centre s y x = Ok s' ->
  getitem (green_itx_arr (self s)) y x = 1 \/ getitem (state_arr (self s)) y x = 0 ->
  cell_update (self s) y x (self s').
Proof.
  unfold claim_centre. intros Hrun Hpre. split; [exact Hpre|].
  destruct (_green_state y x (state_arr (self s)) (green_itx_arr (self s))
              (green_acc_arr (self s)) (granularity_m (self s))
              (walk_dist_m (self s))) as [[[b itx] acc]|e] eqn:E;
    cbn [bind] in Hrun; [|discriminate].
  exists b, itx, acc. split; [reflexivity|].
  destruct b.
  - right. split; [reflexivity|].
    cbn [cent_acc_arr granularity_m walk_dist_m set_state_arr set_green] in Hrun.
    destruct (_inc_access y x (cent_acc_arr (self s)) (granularity_m (self s))
                (walk_dist_m (self s))) as [cent|e] eqn:Ec;
      cbn [bind] in Hrun; [|discriminate].
    unfold set_random_density in Hrun.
    pose proof (random_density_factor (self s) (nb_random (world s))) as Hd.
    cbn [prob_distribution density_factors set_state_arr set_green
         set_cent_acc_arr] in Hrun.
    destruct (_random_density _ _ _) as [d g]. cbn [fst] in Hd.
    inversion Hrun; subst s'. clear Hrun. cbn [self].
    exists d. split; [exact Hd|]. right. exists cent. split; reflexivity.
  - left. split; [reflexivity|]. inversion Hrun; subst s'. reflexivity.
Qed.

Lemma iter_cell_update (areas : ndarray Z) (cell_area : Z) (s s' : scan) (y x : Z) :
  iter_cell areas cell_area s (y, x) = Ok s' ->
  self s' = self s \/ cell_update (self s) y x (self s').
Proof.
  unfold iter_cell. intros Hrun.
  assert (Hsame : forall r, Ok s = r -> r = Ok s' ->
            self s' = self s \/ cell_update (self s) y x (self s')).
  { intros r <- E. inversion E; subst. now left. }
  assert (Hdraw : forall w,
             Ok (mk_scan (self s) w (added_blocks s) (added_centrality s)) = Ok s' ->
             self s' = self s \/ cell_update (self s) y x (self s')).
  { intros w E. inversion E; subst. now left. }
  destruct (Z.eqb_spec (getitem (green_itx_arr (self s)) y x) 1) as [H1|H1].
  - destruct (_ && _); [now apply (Hsame _ eq_refl)|].
    destruct (green_rays _ _ _ _ _ _) as [spans|e]; cbn [bind] in Hrun;
      [|discriminate].
    destruct spans; cbn [negb] in Hrun; [|now apply (Hsame _ eq_refl)].
    destruct (_count_cont_nbs _ _ _ [1; 2]) as [urban_nbs urban_regions].
    destruct (_count_cont_nbs _ _ _ [0]) as [green_nbs green_regions].
    unfold np_rand, rand in Hrun.
    destruct (Qlt_bool 0 _).
    + destruct (Qlt_bool _ (build_prob _)); [|exact (Hdraw _ Hrun)].
      right. destruct (iters (self s) =? 14);
        apply claim_built_update in Hrun; cbn [self] in Hrun; auto.
    + destruct (Qlt_bool _ (cent_prob_nb _)); [|exact (Hdraw _ Hrun)].
      right. apply claim_centre_update in Hrun; cbn [self] in Hrun; auto.
  - destruct (Z.eqb_spec (getitem (state_arr (self s)) y x) 0) as [H0|H0];
      [|now apply (Hsame _ eq_refl)].
    unfold np_rand, rand in Hrun.
    destruct (Qlt_bool _ (cent_prob_isol _)); [|exact (Hdraw _ Hrun)].
    right. apply claim_centre_update in Hrun; cbn [self] in Hrun; auto.
Qed.

Lemma cell_update_state (L L' : Land) (y x : Z) :
  cell_update L y x L' ->
  (shape0 (state_arr L') = shape0 (state_arr L)
   /\ shape1 (state_arr L') = shape1 (state_arr L))
  /\ granularity_m L' = granularity_m L /\ walk_dist_m L' = walk_dist_m L
  /\ density_factors L' = density_factors L
  /\ iters L' = iters L.
Proof.
  intros (_ & b & itx & acc & _ & [(_ & ->)|(_ & d & _ & [->|(c & _ & ->)])]);
    cbn; auto.
Qed.

(** A property of the engine that every visit keeps is kept by the scan of
    a growth step, by the step and by any number of steps. *)
Lemma iter_scan_invariant (P : Land -> Prop) :
  (forall L y x L', in_bounds (state_arr L) y x -> P L -> cell_update L y x L' ->
                    P L') ->
  forall (L : Land) (w : World) (s' : scan),
    iter_scan L w = Ok s' -> P (scan_start L) -> P (self s').
Proof.
  intros Hupd L w s' Hrun HP. unfold iter_scan in Hrun.
  change (set_areas_arr (set_iters L (iters L + 1)) _) with (scan_start L) in Hrun.
  cbv zeta in Hrun.
  refine (proj1 (for_each_preserves _
            (fun s : scan =>
               P (self s)
               /\ shape0 (state_arr (self s)) = shape0 (state_arr L)
               /\ shape1 (state_arr (self s)) = shape1 (state_arr L))
            _ _ _ _ Hrun _)).
  - intros s [y x] s1 Hin Hb (HPs & S0 & S1).
    apply in_ndindex in Hin.
    assert (Hbs : in_bounds (state_arr (self s)) y x).
    { unfold in_bounds in *. cbn in Hin. rewrite S0, S1. exact Hin. }
    destruct (iter_cell_update _ _ _ _ _ _ Hb) as [E|U].
    + rewrite E. auto.
    + destruct (cell_update_state _ _ _ _ U) as ([T0 T1] & _).
      split; [exact (Hupd _ _ _ _ Hbs HPs U)|]. split; congruence.
  - cbn [self]. split; [exact HP|]. split; reflexivity.
Qed.

Lemma iter_land_isobenefit_invariant (P : Land -> Prop) :
  (forall L y x L', in_bounds (state_arr L) y x -> P L -> cell_update L y x L' ->
                    P L') ->
  (forall L, P L -> P (scan_start L)) ->
  forall (L : Land) (w : World) r (L' : Land) (w' : World),
    iter_land_isobenefit L w = Ok (r, L', w') -> P L -> P L'.
Proof.
  intros Hupd Hstart L w r L' w' Hrun HP. unfold iter_land_isobenefit in Hrun.
  destruct (iter_scan L w) as [s|e] eqn:E; cbn [bind] in Hrun; [|discriminate].
  inversion Hrun; subst. apply (iter_scan_invariant P Hupd L w s E). auto.
Qed.

Lemma drive_invariant (P : Land -> Prop) :
  (forall L y x L', in_bounds (state_arr L) y x -> P L -> cell_update L y x L' ->
                    P L') ->
  (forall L, P L -> P (scan_start L)) ->
  forall (n : nat) (L : Land) (w : World) (L' : Land) (w' : World),
    drive n L w = Ok (L', w') -> P L -> P L'.
Proof.
  intros Hupd Hstart. induction n as [|n IH]; intros L w L' w' Hrun HP.
  - simpl in Hrun. inversion Hrun; subst. exact HP.
  - simpl in Hrun.
    destruct (iter_land_isobenefit L w) as [[[r L1] w1]|e] eqn:E;
      cbn [bind] in Hrun; [|discriminate].
    apply (IH L1 w1 L' w' Hrun).
    exact (iter_land_isobenefit_invariant P Hupd Hstart L w r L1 w1 E HP).
Qed.

End CellUpdates.

(** ** Invariants of the engine *)

Section EngineInvariants.

Context {ext : Externals}.

Lemma cell_update_nature (L L' : Land) (y x : Z) :
  cell_update L y x L' ->
  frontier_is_nature (state_arr L) (green_itx_arr L) ->
  getitem (state_arr L) y x = 0
  /\ frontier_is_nature (state_arr L') (green_itx_arr L').
Proof.
  intros (Hpre & b & itx & acc & E & Hcase) Hn.
  assert (H0 : getitem (state_arr L) y x = 0).
  { destruct Hpre as [H1|H0]; [now apply Hn|exact H0]. }
  split; [exact H0|].
  destruct (green_state_nature _ _ _ _ _ _ _ _ _ _ E Hn) as (_ & Hyx & Hn').
  assert (Hset : forall v, frontier_is_nature (setitem (state_arr L) y x v) itx).
  { intros v cy cx H1. unfold getitem in *.
    destruct (cell_eq_dec (cy, cx) (y, x)) as [Eq|Hne].
    - inversion Eq; subst. contradiction.
    - rewrite item_setitem_other by assumption. now apply Hn'. }
  destruct Hcase as [(_ & ->)|(_ & d & _ & [->|(c & _ & ->)])]; cbn.
  - exact Hn'.
  - apply Hset.
  - apply Hset.
Qed.

Lemma frontier_covers_update (L L' : Land) (y x : Z) :
  in_bounds (state_arr L) y x ->
  frontier_covers (state_arr L) (green_itx_arr L) ->
  cell_update L y x L' ->
  frontier_covers (state_arr L') (green_itx_arr L').
Proof.
  intros Hb (Hsh & H012 & Hn & Hcov) U.
  destruct (cell_update_nature _ _ _ _ U Hn) as (H0 & Hn').
  destruct U as (_ & b & itx & acc & E & Hcase).
  assert (S0 : shape0 (green_itx_arr L) = shape0 (state_arr L))
    by (unfold shape in Hsh; now inversion Hsh).
  assert (S1 : shape1 (green_itx_arr L) = shape1 (state_arr L))
    by (unfold shape in Hsh; now inversion Hsh).
  destruct (green_state_frame _ _ _ _ _ _ _ _ _ _ E) as ([T0 T1] & Hyx & Hfr).
  rewrite (iter_nbs_shape (green_itx_arr L) (state_arr L) y x true S0 S1) in Hfr.
  assert (Hmarks : forall cy cx,
            getitem itx cy cx = 0 \/ getitem itx cy cx = 1 \/ getitem itx cy cx = 2).
  { intros cy cx. unfold getitem in *.
    destruct (cell_eq_dec (cy, cx) (y, x)) as [Eq|Hne].
    - inversion Eq; subst. rewrite Hyx. destruct b; [|auto].
      destruct (Z.eqb_spec (item (green_itx_arr L) y x) 1); [auto|apply H012].
    - destruct (Hfr cy cx Hne) as (Hon & Hoff).
      destruct (Z.eq_dec (item (state_arr L) cy cx) 0) as [Hs|Hs];
        [destruct (Z.eq_dec (item (green_itx_arr L) cy cx) 0) as [Hi|Hi];
         [destruct (in_dec cell_eq_dec (cy, cx) (_iter_nbs (state_arr L) y x true))
            as [Hin|Hin]|]|].
      + rewrite Hon by auto. auto.
      + rewrite Hoff by tauto. apply H012.
      + rewrite Hoff by tauto. apply H012.
      + rewrite Hoff by tauto. apply H012. }
  assert (Hkeep : forall cy cx, (cy, cx) <> (y, x) ->
            getitem (green_itx_arr L) cy cx <> 0 -> getitem itx cy cx <> 0).
  { intros cy cx Hne Hi. unfold getitem in *.
    destruct (Hfr cy cx Hne) as (_ & Hoff). rewrite Hoff; [exact Hi|]. tauto. }
  assert (Hnb : forall cy cx, in_bounds (state_arr L) cy cx ->
            getitem (state_arr L) cy cx = 0 -> rook_adjacent (y, x) (cy, cx) ->
            getitem itx cy cx <> 0).
  { intros cy cx Hbc Hs Hadj. unfold getitem in *.
    assert (Hne : (cy, cx) <> (y, x)).
    { intro Eq. inversion Eq; subst. unfold rook_adjacent in Hadj.
      simpl in Hadj. lia. }
    destruct (Hfr cy cx Hne) as (Hon & Hoff).
    destruct (Z.eq_dec (item (green_itx_arr L) cy cx) 0) as [Hi|Hi].
    - rewrite Hon; [discriminate|]. split; [|auto].
      apply in_rook_nbs. split; [exact Hbc|].
      unfold rook_adjacent in *. simpl in *. lia.
    - rewrite Hoff by tauto. exact Hi. }
  assert (Hnz : forall i, (i = 0 \/ i = 1 \/ i = 2) -> i <> 0 -> i = 1 \/ i = 2)
    by (intros; lia).
  assert (Hset : forall v, 1 <= v ->
            frontier_covers (setitem (state_arr L) y x v) itx).
  { intros v Hv. split; [|split; [exact Hmarks|split]].
    - unfold shape. cbn [setitem shape0 shape1]. f_equal; congruence.
    - intros cy cx H1. unfold getitem in *.
      destruct (cell_eq_dec (cy, cx) (y, x)) as [Eq|Hne].
      + inversion Eq; subst. exfalso.
        destruct (green_state_nature _ _ _ _ _ _ _ _ _ _ E Hn) as (_ & K & _).
        now apply K.
      + rewrite item_setitem_other by assumption.
        destruct (green_state_nature _ _ _ _ _ _ _ _ _ _ E Hn) as (_ & _ & K).
        now apply K.
    - intros cy cx Hbc Hs (y' & x' & Hb' & Hge & Hadj).
      apply Hnz; [apply Hmarks|]. unfold getitem in Hs, Hge.
      destruct (cell_eq_dec (cy, cx) (y, x)) as [Eq|Hne].
      { inversion Eq; subst. rewrite item_setitem_same in Hs. lia. }
      rewrite item_setitem_other in Hs by assumption.
      destruct (cell_eq_dec (y', x') (y, x)) as [Eq'|Hne'].
      + inversion Eq'; subst. apply Hnb; auto.
      + rewrite item_setitem_other in Hge by assumption.
        apply Hkeep; [exact Hne|].
        assert (K : getitem (green_itx_arr L) cy cx = 1
                    \/ getitem (green_itx_arr L) cy cx = 2).
        { apply Hcov; auto. exists y', x'. split; [exact Hb'|]. now split. }
        lia. }
  destruct Hcase as [(-> & ->)|(_ & d & _ & [->|(c & _ & ->)])]; cbn.
  - split; [|split; [exact Hmarks|split; [exact Hn'|]]].
    + unfold shape. f_equal; congruence.
    + intros cy cx Hbc Hs Hbn. apply Hnz; [apply Hmarks|].
      destruct (cell_eq_dec (cy, cx) (y, x)) as [Eq|Hne].
      * inversion Eq; subst. unfold getitem. rewrite Hyx. discriminate.
      * apply Hkeep; [exact Hne|].
        destruct (Hcov cy cx Hbc Hs Hbn); lia.
  - apply Hset. lia.
  - apply Hset. lia.
Qed.

Lemma Land_init_frontier_covers (a : LandArgs) (w : World) (L : Land) (w' : World) :
  Land_init a w = Ok (L, w') ->
  frontier_covers (state_arr L) (green_itx_arr L).
Proof.
  intro H.
  pose proof (Land_init_nature a w L w' H) as Hn.
  destruct (Land_init_inv a w L w' H)
    as (_ & st & itx & acc & cent & _ & Hitx & _ & -> & _).
  cbn [state_arr green_itx_arr] in *.
  destruct (compute_green_itx_marks _ _ _ _ _ Hitx) as ([S0 S1] & Hm).
  split; [unfold shape; congruence|]. split; [|split; [exact Hn|]].
  - intros cy cx. destruct (Hm cy cx) as ([K|K] & _); unfold getitem; auto.
  - intros cy cx Hb Hs (y & x & Hby & Hge & Hadj). left.
    apply (Hm cy cx). split; [exact Hs|].
    exists y, x. split; [exact Hby|]. split; [exact Hge|].
    apply in_rook_nbs. split; [exact Hb|].
    unfold rook_adjacent in *. simpl in *. lia.
Qed.

(** X20. On an engine that was constructed and driven through any number
    of growth steps the frontier array has the shape of the grid and holds
    marks 0, 1 and 2 only; a cell marked 1 is nature; and no cell of nature
    that shares an edge with a built cell or a centre is left unmarked: it
    is marked 1, or 2 after a rejected attempt. *)
Theorem frontier_tracks_built_edge :
  forall (a : LandArgs) (w : World) (L0 : Land) (w0 : World)
         (n : nat) (L : Land) (w1 : World),
    Land_init a w = Ok (L0, w0) ->
    drive n L0 w0 = Ok (L, w1) ->
    frontier_covers (state_arr L) (green_itx_arr L).
Proof.
  intros a w L0 w0 n L w1 Hinit Hrun.
  refine (drive_invariant
            (fun L => frontier_covers (state_arr L) (green_itx_arr L))
            _ _ n L0 w0 L w1 Hrun _).
  - intros L1 y x L2 Hb HP U. exact (frontier_covers_update L1 L2 y x Hb HP U).
  - intros L1 HP. exact HP.
  - exact (Land_init_frontier_covers a w L0 w0 Hinit).
Qed.

End EngineInvariants.

Lemma frontier_tracks_built_edge_witness :
  exists L0 w0 L w1,
    Land_init (strip4_args (6 # 10)) fresh_world = Ok (L0, w0)
    /\ drive 1 L0 w0 = Ok (L, w1)
    /\ frontier_covers (state_arr L) (green_itx_arr L).
Proof.
  assert (H : is_ok (engine_run (strip4_args (6 # 10)) 1 fresh_world) = true)
    by (vm_compute; reflexivity).
  destruct (is_ok_inv _ H) as [[L w1] E].
  destruct (engine_run_inv _ _ _ _ _ E) as (L0 & w0 & E0 & E1).
  exists L0, w0, L, w1.
  split; [exact E0|]. split; [exact E1|].
  exact (frontier_tracks_built_edge (strip4_args (6 # 10)) fresh_world L0 w0
           1 L w1 E0 E1).
Defined.

Section EngineInvariantsFurther.

Context {ext : Externals}.



Lemma centre_within_setitem (st : ndarray Z) (g walk y x v : Z) (c : Z * Z) :
  in_bounds st y x -> getitem st y x <> 2 ->
  centre_within (setitem st y x v) g walk c
  <-> centre_within st g walk c
      \/ (v = 2 /\ (distance g (y, x) c < inject_Z walk)%Q).
Proof.
  intros Hb H2. unfold centre_within, getitem. split.
  - intros (sy & sx & Hbs & Hc & Hd).
    destruct (cell_eq_dec (sy, sx) (y, x)) as [Eq|Hne].
    + inversion Eq; subst. rewrite item_setitem_same in Hc. right. now split.
    + rewrite item_setitem_other in Hc by assumption. left.
      exists sy, sx. now split.
  - intros [(sy & sx & Hbs & Hc & Hd)|(-> & Hd)].
    + exists sy, sx. split; [exact Hbs|]. split; [|exact Hd].
      rewrite item_setitem_other; [exact Hc|].
      intro Eq. inversion Eq; subst. contradiction.
    + exists y, x. split; [exact Hb|]. split; [apply item_setitem_same|exact Hd].
Qed.

Lemma centres_reach_update (L L' : Land) (y x : Z) :
  in_bounds (state_arr L) y x ->
  frontier_is_nature (state_arr L) (green_itx_arr L) ->
  centres_reach L ->
  cell_update L y x L' ->
  centres_reach L'.
Proof.
  intros Hb Hn (Hsh & Hc) U.
  destruct (cell_update_nature _ _ _ _ U Hn) as (H0 & _).
  assert (H2 : getitem (state_arr L) y x <> 2) by lia.
  destruct U as (_ & b & itx & acc & _ & Hcase).
  destruct Hcase as [(_ & ->)|(_ & d & _ & [->|(cent & Hinc & ->)])];
    unfold centres_reach; cbn.
  - split; [exact Hsh|exact Hc].
  - split; [exact Hsh|]. intros cy cx Hbc.
    destruct (Hc cy cx Hbc) as (Hnn & Hiff). split; [exact Hnn|].
    rewrite Hiff. rewrite (centre_within_setitem _ _ _ _ _ 1 _ Hb H2).
    split; [now left|]. intros [K|(K & _)]; [exact K|discriminate].
  - apply inc_access_positive in Hinc. destruct Hinc as ([S0 S1] & Hstep).
    assert (T0 : shape0 (cent_acc_arr L) = shape0 (state_arr L))
      by (unfold shape in Hsh; now inversion Hsh).
    assert (T1 : shape1 (cent_acc_arr L) = shape1 (state_arr L))
      by (unfold shape in Hsh; now inversion Hsh).
    split; [unfold shape; cbn [setitem shape0 shape1]; f_equal; congruence|].
    intros cy cx Hbc.
    destruct (Hc cy cx Hbc) as (Hnn & Hiff).
    assert (Hbcent : in_bounds (cent_acc_arr L) cy cx).
    { unfold in_bounds in *. cbn in Hbc. rewrite T0, T1. exact Hbc. }
    destruct (Hstep cy cx Hbcent Hnn) as (Hnn' & Hiff').
    split; [exact Hnn'|]. unfold getitem in *. rewrite Hiff', Hiff.
    rewrite (centre_within_setitem _ _ _ _ _ 2 _ Hb H2).
    split; intros [K|K]; auto. destruct K as (_ & K). now right.
Qed.

Lemma compute_centres_access_reach (st : ndarray Z) (g walk : Z) (cent : ndarray Q) :
  _compute_centres_access st g walk = Ok cent ->
  shape cent = shape st
  /\ forall cy cx, in_bounds st cy cx ->
       (0 <= item cent cy cx)%Q
       /\ ((0 < item cent cy cx)%Q <-> centre_within st g walk (cy, cx)).
Proof.
  intro H. unfold _compute_centres_access in H.
  apply centres_loop in H.
  - destruct H as (Hsh & Hall). split; [exact Hsh|].
    intros cy cx Hb. destruct (Hall cy cx Hb) as (Hn & Hiff).
    split; [exact Hn|]. rewrite Hiff. unfold centre_within. split.
    + intros [C|(sy & sx & Hin & Hc & Hd)].
      * simpl in C. now apply Qlt_irrefl in C.
      * exists sy, sx. apply in_ndindex in Hin. now split.
    + intros (sy & sx & Hin & Hc & Hd). right. exists sy, sx.
      split; [now apply in_ndindex|]. now split.
  - intros [cy cx] Hc. now apply in_ndindex.
  - reflexivity.
  - intros. simpl. apply Qle_refl.
Qed.

(** X22. On an engine that was constructed and driven through any number
    of growth steps, the access to centres has the shape of the grid, is
    nowhere negative, and is positive at a cell exactly when some centre of
    the grid as it is now lies nearer to the cell than the walking radius:
    this is the test by which a growth step chooses between building a block
    and founding a centre. *)
Theorem centre_access_follows_centres :
  forall (a : LandArgs) (w : World) (L0 : Land) (w0 : World)
         (n : nat) (L : Land) (w1 : World),
    Land_init a w = Ok (L0, w0) ->
    drive n L0 w0 = Ok (L, w1) ->
    centres_reach L.
Proof.
  intros a w L0 w0 n L w1 Hinit Hrun.
  refine (proj2 (drive_invariant
            (fun L => frontier_is_nature (state_arr L) (green_itx_arr L)
                      /\ centres_reach L)
            _ _ n L0 w0 L w1 Hrun _)).
  - intros L1 y x L2 Hb (Hn & Hc) U. split.
    + exact (proj2 (cell_update_nature _ _ _ _ U Hn)).
    + exact (centres_reach_update _ _ _ _ Hb Hn Hc U).
  - intros L1 HP1. exact HP1.
  - split; [exact (Land_init_nature a w L0 w0 Hinit)|].
    destruct (Land_init_inv a w L0 w0 Hinit)
      as (_ & st & itx & acc & cent & _ & _ & Hcent & -> & _).
    unfold centres_reach. cbn.
    exact (compute_centres_access_reach _ _ _ _ Hcent).
Qed.

Lemma activate_loop_acc_shape (state : ndarray Z) (g walk : Z) :
  forall (nbs : list (Z * Z)) (itx : ndarray Z) (acc : ndarray Q) itx' acc',
    for_each (activate_nb state g walk) (itx, acc) nbs = Ok (itx', acc') ->
    shape0 acc' = shape0 acc /\ shape1 acc' = shape1 acc.
Proof.
  induction nbs as [|[ny nx] rest IH]; intros itx acc itx' acc' Hrun.
  - simpl in Hrun. inversion Hrun; subst. now split.
  - cbn [for_each] in Hrun.
    destruct (activate_nb state g walk (itx, acc) (ny, nx)) as [[itx1 acc1]|e] eqn:E;
      cbn [bind] in Hrun; [|discriminate].
    destruct (IH itx1 acc1 itx' acc' Hrun) as [S0 S1].
    unfold activate_nb in E. destruct (_ && _).
    + destruct (_inc_access ny nx acc g walk) as [a1|e] eqn:Ea; cbn [bind] in E;
        [|discriminate].
      inversion E; subst itx1 acc1.
      apply agg_access_partial in Ea. destruct Ea as ([T0 T1] & _).
      split; congruence.
    + inversion E; subst. now split.
Qed.

Lemma green_state_acc_shape (y x : Z) (state itx : ndarray Z) (acc : ndarray Q)
    (g walk : Z) (b : bool) itx' acc' :
  _green_state y x state itx acc g walk = Ok (b, itx', acc') ->
  shape0 acc' = shape0 acc /\ shape1 acc' = shape1 acc.
Proof.
  unfold _green_state, green_state_work. intro Hrun.
  destruct (getitem itx y x =? 1).
  - destruct (_decr_access y x acc g walk) as [acc0|e] eqn:Ed; cbn [bind] in Hrun;
      [|discriminate].
    apply agg_access_partial in Ed. destruct Ed as ([T0 T1] & _).
    destruct (for_each _ _ _) as [[itx_w new]|e] eqn:E; cbn [bind] in Hrun;
      [|discriminate].
    apply activate_loop_acc_shape in E. destruct E as [S0 S1].
    destruct (strands acc new); inversion Hrun; subst; split; congruence.
  - cbn [bind] in Hrun.
    destruct (for_each _ _ _) as [[itx_w new]|e] eqn:E; cbn [bind] in Hrun;
      [|discriminate].
    apply activate_loop_acc_shape in E. destruct E as [S0 S1].
    destruct (strands acc new); inversion Hrun; subst; split; congruence.
Qed.

Lemma same_shapes_update (shp : Z * Z) (L L' : Land) (y x : Z) :
  same_shapes shp L -> cell_update L y x L' -> same_shapes shp L'.
Proof.
  intros (H1 & H2 & H3 & H4 & H5) (_ & b & itx & acc & E & Hcase).
  destruct (green_state_frame _ _ _ _ _ _ _ _ _ _ E) as ([T0 T1] & _).
  destruct (green_state_acc_shape _ _ _ _ _ _ _ _ _ _ E) as [A0 A1].
  assert (Hitx : shape itx = shp)
    by (rewrite <- H2; unfold shape; f_equal; assumption).
  assert (Hacc : shape acc = shp)
    by (rewrite <- H3; unfold shape; f_equal; assumption).
  destruct Hcase as [(_ & ->)|(_ & d & _ & [->|(cent & Hinc & ->)])];
    unfold same_shapes; cbn.
  - auto.
  - auto.
  - apply agg_access_partial in Hinc. destruct Hinc as ([C0 C1] & _).
    assert (Hcent : shape cent = shp)
      by (rewrite <- H4; unfold shape; f_equal; assumption).
    auto.
Qed.

(** X23. On an engine that was constructed and driven through any number
    of growth steps, the grid, the frontier, the two accessibility surfaces
    and the densities all have the shape of the extents array. *)
Theorem arrays_keep_extents_shape :
  forall (a : LandArgs) (w : World) (L0 : Land) (w0 : World)
         (n : nat) (L : Land) (w1 : World),
    Land_init a w = Ok (L0, w0) ->
    drive n L0 w0 = Ok (L, w1) ->
    same_shapes (shape (arg_extents_arr a)) L.
Proof.
  intros a w L0 w0 n L w1 Hinit Hrun.
  refine (drive_invariant (same_shapes (shape (arg_extents_arr a)))
            _ _ n L0 w0 L w1 Hrun _).
  - intros L1 y x L2 _ HP U. exact (same_shapes_update _ _ _ _ _ HP U).
  - intros L1 HP1. exact HP1.
  - destruct (Land_init_state a w L0 w0 Hinit) as (_ & [S0 S1] & _).
    destruct (Land_init_consistent a w L0 w0 Hinit) as (Hacc & _).
    destruct (Land_init_inv a w L0 w0 Hinit)
      as (_ & st & itx & acc & cent & _ & Hitx & Hcent & -> & _).
    cbn in *.
    destruct (compute_green_itx_marks _ _ _ _ _ Hitx) as ([I0 I1] & _).
    destruct (compute_centres_access_reach _ _ _ _ Hcent) as (Hc & _).
    assert (Hst : shape st = shape (arg_extents_arr a))
      by (unfold shape; f_equal; assumption).
    assert (Hi : shape itx = shape (arg_extents_arr a))
      by (rewrite <- Hst; unfold shape; f_equal; assumption).
    unfold same_shapes. cbn.
    split; [exact Hst|]. split; [exact Hi|]. split; [congruence|].
    split; [congruence|reflexivity].
Qed.

End EngineInvariantsFurther.


Lemma centre_access_follows_centres_witness :
  exists L0 w0 L w1,
    Land_init (strip4_args (6 # 10)) fresh_world = Ok (L0, w0)
    /\ drive 1 L0 w0 = Ok (L, w1)
    /\ centres_reach L.
Proof.
  assert (H : is_ok (engine_run (strip4_args (6 # 10)) 1 fresh_world) = true)
    by (vm_compute; reflexivity).
  destruct (is_ok_inv _ H) as [[L w1] E].
  destruct (engine_run_inv _ _ _ _ _ E) as (L0 & w0 & E0 & E1).
  exists L0, w0, L, w1.
  split; [exact E0|]. split; [exact E1|].
  exact (centre_access_follows_centres (strip4_args (6 # 10)) fresh_world
           L0 w0 1 L w1 E0 E1).
Defined.

Lemma arrays_keep_extents_shape_witness :
  exists L0 w0 L w1,
    Land_init (strip4_args (6 # 10)) fresh_world = Ok (L0, w0)
    /\ drive 1 L0 w0 = Ok (L, w1)
    /\ same_shapes (1, 4) L.
Proof.
  assert (H : is_ok (engine_run (strip4_args (6 # 10)) 1 fresh_world) = true)
    by (vm_compute; reflexivity).
  destruct (is_ok_inv _ H) as [[L w1] E].
  destruct (engine_run_inv _ _ _ _ _ E) as (L0 & w0 & E0 & E1).
  exists L0, w0, L, w1.
  split; [exact E0|]. split; [exact E1|].
  exact (arrays_keep_extents_shape (strip4_args (6 # 10)) fresh_world
           L0 w0 1 L w1 E0 E1).
Defined.

(** ** What a growth step does to the process *)

Section StepsAndProcess.

Context {ext : Externals}.

(** What the visit of a cell may do besides the update of the engine: it
    draws at most one number from the process-wide generator and one from
    the generator of the compiled code for a cell it develops, prints only
    in step 14, and writes nothing to the log. *)
Lemma claim_built_world (s s' : scan) (y x : Z) :
  claim_built s y x = Ok s' ->
  np_random (world s') = np_random (world s)
  /\ stdout (world s') = stdout (world s)
  /\ log (world s') = log (world s)
  /\ draws (nb_random (world s')) = draws (nb_random (world s))
  /\ added_centrality s' = added_centrality s
  /\ ((added_blocks s' = added_blocks s
       /\ drawn (nb_random (world s')) = drawn (nb_random (world s)))
      \/ (added_blocks s' = added_blocks s + 1
          /\ drawn (nb_random (world s')) = S (drawn (nb_random (world s))))).
Proof.
  unfold claim_built. intro Hrun.
  destruct (_green_state _ _ _ _ _ _ _) as [[[b itx] acc]|e]; cbn [bind] in Hrun;
    [|discriminate].
  destruct b.
  - unfold set_random_density, _random_density, rand in Hrun.
    destruct (prob_distribution _) as [[pd0 pd1] pd2].
    destruct (density_factors _) as [[df0 df1] df2].
    destruct (_ && _); [|destruct (_ && _)]; inversion Hrun; subst s'; cbn;
      repeat split; auto.
  - inversion Hrun; subst s'. cbn. repeat split; auto.
Qed.

Lemma claim_centre_world (s s' : scan) (y x : Z) :
  claim_centre s y x = Ok s' ->
  np_random (world s') = np_random (world s)
  /\ stdout (world s') = stdout (world s)
  /\ log (world s') = log (world s)
  /\ draws (nb_random (world s')) = draws (nb_random (world s))
  /\ added_blocks s' = added_blocks s
  /\ ((added_centrality s' = added_centrality s
       /\ drawn (nb_random (world s')) = drawn (nb_random (world s)))
      \/ (added_centrality s' = added_centrality s + 1
          /\ drawn (nb_random (world s')) = S (drawn (nb_random (world s))))).
Proof.
  unfold claim_centre. intro Hrun.
  destruct (_green_state _ _ _ _ _ _ _) as [[[b itx] acc]|e]; cbn [bind] in Hrun;
    [|discriminate].
  destruct b.
  - destruct (_inc_access _ _ _ _ _) as [cent|e]; cbn [bind] in Hrun; [|discriminate].
    unfold set_random_density, _random_density, rand in Hrun.
    destruct (prob_distribution _) as [[pd0 pd1] pd2].
    destruct (density_factors _) as [[df0 df1] df2].
    destruct (_ && _); [|destruct (_ && _)]; inversion Hrun; subst s'; cbn;
      repeat split; auto.
  - inversion Hrun; subst s'. cbn. repeat split; auto.
Qed.

Lemma iter_cell_world (areas : ndarray Z) (cell_area : Z) (s s' : scan) (y x : Z) :
  iter_cell areas cell_area s (y, x) = Ok s' -> visit_account s s' y x.
Proof.
  unfold iter_cell. intros Hrun.
  assert (Hsame : forall r, Ok s = r -> r = Ok s' -> visit_account s s' y x).
  { intros r <- E. inversion E; subst. unfold visit_account. repeat split; auto. }
  pose (drew := mk_rng (draws (np_random (world s)))
                  (S (drawn (np_random (world s))))).
  assert (Hdraw : forall w,
             np_random w = drew -> nb_random w = nb_random (world s) ->
             log w = log (world s) -> stdout w = stdout (world s) ->
             Ok (mk_scan (self s) w (added_blocks s) (added_centrality s)) = Ok s' ->
             visit_account s s' y x).
  { intros w E1 E2 E3 E4 E. inversion E; subst s'. unfold visit_account. cbn.
    rewrite E1, E2, E3, E4. unfold drew. cbn. repeat split; auto. }
  assert (Hb : forall w,
             np_random w = drew -> nb_random w = nb_random (world s) ->
             log w = log (world s) ->
             (stdout w = stdout (world s)
              \/ (iters (self s) = 14 /\ stdout w = stdout (world s) ++ [(y, x)])) ->
             claim_built (mk_scan (self s) w (added_blocks s) (added_centrality s))
               y x = Ok s' ->
             visit_account s s' y x).
  { intros w E1 E2 E3 E4 Hc. apply claim_built_world in Hc. cbn in Hc.
    destruct Hc as (C1 & C2 & C3 & C4 & C5 & C6).
    unfold visit_account. rewrite C1, C2, C3, C4, C5, E1, E2, E3.
    unfold drew. cbn.
    split; [reflexivity|]. split; [reflexivity|]. split; [reflexivity|].
    split; [now right|]. split; [exact E4|].
    rewrite E2 in C6. destruct C6 as [(K1 & K2)|(K1 & K2)]; [left|right];
      rewrite K1, K2; repeat split; lia. }
  assert (Hc : forall w,
             np_random w = drew -> nb_random w = nb_random (world s) ->
             log w = log (world s) -> stdout w = stdout (world s) ->
             claim_centre (mk_scan (self s) w (added_blocks s) (added_centrality s))
               y x = Ok s' ->
             visit_account s s' y x).
  { intros w E1 E2 E3 E4 Hc. apply claim_centre_world in Hc. cbn in Hc.
    destruct Hc as (C1 & C2 & C3 & C4 & C5 & C6).
    unfold visit_account. rewrite C1, C2, C3, C4, C5, E1, E2, E3, E4.
    unfold drew. cbn.
    split; [reflexivity|]. split; [reflexivity|]. split; [reflexivity|].
    split; [now right|]. split; [now left|].
    rewrite E2 in C6. destruct C6 as [(K1 & K2)|(K1 & K2)]; [left|right];
      rewrite K1, K2; repeat split; lia. }
  unfold np_rand, rand in Hrun.
  destruct (Z.eqb_spec (getitem (green_itx_arr (self s)) y x) 1) as [H1|H1].
  - destruct (_ && _); [now apply (Hsame _ eq_refl)|].
    destruct (green_rays _ _ _ _ _ _) as [spans|e]; cbn [bind] in Hrun;
      [|discriminate].
    destruct spans; cbn [negb] in Hrun; [|now apply (Hsame _ eq_refl)].
    destruct (_count_cont_nbs _ _ _ [1; 2]) as [urban_nbs urban_regions].
    destruct (_count_cont_nbs _ _ _ [0]) as [green_nbs green_regions].
    destruct (Qlt_bool 0 _).
    + destruct (Qlt_bool _ (build_prob _));
        [|refine (Hdraw _ _ _ _ _ Hrun); reflexivity].
      destruct (Z.eqb_spec (iters (self s)) 14) as [H14|H14].
      * refine (Hb _ _ _ _ _ Hrun); try reflexivity.
        right. split; [exact H14|reflexivity].
      * refine (Hb _ _ _ _ _ Hrun); try reflexivity.
        left. reflexivity.
    + destruct (Qlt_bool _ (cent_prob_nb _));
        [|refine (Hdraw _ _ _ _ _ Hrun); reflexivity].
      refine (Hc _ _ _ _ _ Hrun); reflexivity.
  - destruct (Z.eqb_spec (getitem (state_arr (self s)) y x) 0) as [H0|H0];
      [|now apply (Hsame _ eq_refl)].
    destruct (Qlt_bool _ (cent_prob_isol _));
      [|refine (Hdraw _ _ _ _ _ Hrun); reflexivity].
    refine (Hc _ _ _ _ _ Hrun); reflexivity.
Qed.

End StepsAndProcess.

Section StepAccounts.

Context {ext : Externals}.

Lemma iter_cell_iters (areas : ndarray Z) (cell_area : Z) (s s' : scan) (y x : Z) :
  iter_cell areas cell_area s (y, x) = Ok s' -> iters (self s') = iters (self s).
Proof.
  intro H. destruct (iter_cell_update _ _ _ _ _ _ H) as [E|U].
  - now rewrite E.
  - now destruct (cell_update_state _ _ _ _ U) as (_ & _ & _ & _ & K).
Qed.

Lemma iter_scan_account (L : Land) (w : World) (s' : scan) :
  iter_scan L w = Ok s' ->
  scan_account (mk_scan (scan_start L) w 0 0) (ndindex (state_arr L)) s'.
Proof.
  intro Hrun. unfold iter_scan in Hrun.
  change (set_areas_arr (set_iters L (iters L + 1)) _) with (scan_start L) in Hrun.
  cbv zeta in Hrun.
  change (ndindex (state_arr L)) with ([] ++ ndindex (state_arr L)).
  refine (for_each_prefix _ (scan_account (mk_scan (scan_start L) w 0 0))
            _ _ [] _ _ Hrun _).
  - intros done [y x] s s1 _ Hb (A1 & A2 & A3 & A4 & A5 & A6 & A7 & A8 & A9).
    pose proof (iter_cell_iters _ _ _ _ _ _ Hb) as Hit.
    apply iter_cell_world in Hb.
    destruct Hb as (B1 & B2 & B3 & B4 & B5 & B6).
    unfold scan_account. rewrite length_app. cbn [List.length].
    split; [congruence|]. split; [congruence|]. split; [congruence|].
    split; [destruct B4 as [K|K]; rewrite K; lia|].
    split; [|split; [congruence|]].
    + intro H14. destruct B5 as [K|(K & _)]; [rewrite K; auto|].
      exfalso. apply H14. congruence.
    + destruct B6 as [(K1 & K2 & K3)|(K1 & K2 & K3 & K4)].
      * rewrite K1, K2, K3. auto.
      * rewrite K4. split; [lia|]. split; [lia|]. lia.
  - unfold scan_account. cbn. repeat split; auto; lia.
Qed.

(** X24. A call of [iter_land_isobenefit] that returns has raised the
    step counter of the engine by one and has written to the standard
    output only if the step is the fourteenth of the engine: in every other
    step the standard output is as it was. *)
Theorem growth_step_prints_in_step_14_only :
  forall (L : Land) (w : World) (r : py_value) (L' : Land) (w' : World),
    iter_land_isobenefit L w = Ok (r, L', w') ->
    iters L' = iters L + 1
    /\ (iters L + 1 <> 14 -> stdout w' = stdout w).
Proof.
  intros L w r L' w' Hrun. unfold iter_land_isobenefit in Hrun.
  destruct (iter_scan L w) as [s|e] eqn:E; cbn [bind] in Hrun; [|discriminate].
  inversion Hrun; subst. clear Hrun.
  destruct (iter_scan_account L w s E) as (_ & _ & _ & _ & A5 & A6 & _).
  cbn in A5, A6. unfold logger_info. cbn. split; [exact A6|exact A5].
Qed.

(** X25. A call of [iter_land_isobenefit] that returns has drawn from the
    process-wide generator at most once for every cell of the grid, and
    from the generator of the compiled code exactly once for every cell it
    reports as added, block or centre; the two counts it logs are not
    negative; and the sequences the two generators yield are untouched. *)
Theorem growth_step_draws :
  forall (L : Land) (w : World) (r : py_value) (L' : Land) (w' : World),
    iter_land_isobenefit L w = Ok (r, L', w') ->
    draws (np_random w') = draws (np_random w)
    /\ draws (nb_random w') = draws (nb_random w)
    /\ (drawn (np_random w) <= drawn (np_random w')
        <= drawn (np_random w) + List.length (ndindex (state_arr L)))%nat
    /\ exists blocks centres,
         0 <= blocks /\ 0 <= centres
         /\ log w' = log w ++ [("added blocks: "%string, blocks);
                               ("added centralities: "%string, centres)]
         /\ Z.of_nat (drawn (nb_random w'))
            = Z.of_nat (drawn (nb_random w)) + blocks + centres.
Proof.
  intros L w r L' w' Hrun. unfold iter_land_isobenefit in Hrun.
  destruct (iter_scan L w) as [s|e] eqn:E; cbn [bind] in Hrun; [|discriminate].
  inversion Hrun; subst. clear Hrun.
  destruct (iter_scan_account L w s E)
    as (A1 & A2 & A3 & A4 & _ & _ & A7 & A8 & A9).
  cbn in *. unfold logger_info. cbn.
  split; [exact A2|]. split; [exact A3|]. split; [exact A4|].
  exists (added_blocks s), (added_centrality s).
  split; [lia|]. split; [lia|]. split.
  - rewrite A1, <- app_assoc. reflexivity.
  - lia.
Qed.

(** X26. With a walking radius and a cell size other than zero the scan of
    the cells in [iter_land_isobenefit] cannot fail, whatever areas array
    rasterio has returned: the visit of every cell returns, and the walking
    radius and the cell size are what they were. *)
Theorem growth_scan_returns :
  forall (areas : ndarray Z) (cell_area : Z) (s : scan),
    walk_dist_m (self s) <> 0 -> granularity_m (self s) <> 0 ->
    exists s',
      for_each (iter_cell areas cell_area) s (ndindex (state_arr (self s))) = Ok s'
      /\ walk_dist_m (self s') = walk_dist_m (self s)
      /\ granularity_m (self s') = granularity_m (self s).
Proof.
  intros areas cell_area s Hw Hg.
  apply (for_each_total (iter_cell areas cell_area)
           (fun s1 => walk_dist_m (self s1) = walk_dist_m (self s)
                      /\ granularity_m (self s1) = granularity_m (self s))).
  - intros s1 idx _ [Ew Eg].
    destruct (never_all (iter_cell areas cell_area s1 idx)) as [s2 E].
    + intro e. apply never_iter_cell; intros _; congruence.
    + exists s2. split; [exact E|].
      destruct (iter_cell_radius _ _ _ _ _ E). split; congruence.
  - split; reflexivity.
Qed.

Lemma zero_probabilities_cell (areas : ndarray Z) (cell_area : Z) (s s' : scan)
    (idx : Z * Z) :
  (build_prob (self s) <= 0)%Q -> (cent_prob_nb (self s) <= 0)%Q ->
  (cent_prob_isol (self s) <= 0)%Q ->
  (forall k, 0 <= draws (np_random (world s)) k)%Q ->
  iter_cell areas cell_area s idx = Ok s' ->
  self s' = self s
  /\ draws (np_random (world s')) = draws (np_random (world s))
  /\ added_blocks s' = added_blocks s
  /\ added_centrality s' = added_centrality s
  /\ log (world s') = log (world s).
Proof.
  intros Hb Hn Hi Hd. unfold iter_cell. destruct idx as [y x]. intro Hrun.
  assert (Hsame : forall r, Ok s = r -> r = Ok s' ->
            self s' = self s
            /\ draws (np_random (world s')) = draws (np_random (world s))
            /\ added_blocks s' = added_blocks s
            /\ added_centrality s' = added_centrality s
            /\ log (world s') = log (world s)).
  { intros r <- E. inversion E; subst. auto. }
  assert (Hno : forall prob, (prob <= 0)%Q ->
            Qlt_bool (draws (np_random (world s)) (drawn (np_random (world s))))
              prob = false).
  { intros prob Hp. apply Qlt_bool_false.
    eapply Qle_trans; [exact Hp|apply Hd]. }
  unfold np_rand, rand in Hrun.
  destruct (getitem (green_itx_arr (self s)) y x =? 1).
  - destruct (_ && _); [now apply (Hsame _ eq_refl)|].
    destruct (green_rays _ _ _ _ _ _) as [spans|e]; cbn [bind] in Hrun;
      [|discriminate].
    destruct spans; cbn [negb] in Hrun; [|now apply (Hsame _ eq_refl)].
    destruct (_count_cont_nbs _ _ _ [1; 2]) as [urban_nbs urban_regions].
    destruct (_count_cont_nbs _ _ _ [0]) as [green_nbs green_regions].
    destruct (Qlt_bool 0 _).
    + rewrite (Hno _ Hb) in Hrun. inversion Hrun; subst s'. cbn. auto.
    + rewrite (Hno _ Hn) in Hrun. inversion Hrun; subst s'. cbn. auto.
  - destruct (getitem (state_arr (self s)) y x =? 0);
      [|now apply (Hsame _ eq_refl)].
    rewrite (Hno _ Hi) in Hrun. inversion Hrun; subst s'. cbn. auto.
Qed.

(** X27. With the three probabilities at zero (or below) and a
    process-wide generator that yields no negative number, a growth step
    develops nothing: when [iter_land_isobenefit] returns, the grid, the
    frontier, the two accessibility surfaces and the densities are as they
    were, and both counts in the log are 0. *)
Theorem zero_probabilities_freeze :
  forall (L : Land) (w : World) (r : py_value) (L' : Land) (w' : World),
    (build_prob L <= 0)%Q -> (cent_prob_nb L <= 0)%Q -> (cent_prob_isol L <= 0)%Q ->
    (forall k, 0 <= draws (np_random w) k)%Q ->
    iter_land_isobenefit L w = Ok (r, L', w') ->
    L' = scan_start L
    /\ (state_arr L' = state_arr L /\ green_itx_arr L' = green_itx_arr L
        /\ green_acc_arr L' = green_acc_arr L /\ cent_acc_arr L' = cent_acc_arr L
        /\ density_arr L' = density_arr L)
    /\ log w' = log w ++ [("added blocks: "%string, 0);
                          ("added centralities: "%string, 0)].
Proof.
  intros L w r L' w' Hb Hn Hi Hd Hrun. unfold iter_land_isobenefit in Hrun.
  destruct (iter_scan L w) as [s|e] eqn:E; cbn [bind] in Hrun; [|discriminate].
  inversion Hrun; subst. clear Hrun.
  assert (HP : self s = scan_start L
               /\ draws (np_random (world s)) = draws (np_random w)
               /\ added_blocks s = 0 /\ added_centrality s = 0
               /\ log (world s) = log w).
  { unfold iter_scan in E.
    change (set_areas_arr (set_iters L (iters L + 1)) _) with (scan_start L) in E.
    cbv zeta in E.
    refine (for_each_preserves _
              (fun s : scan =>
                 self s = scan_start L
                 /\ draws (np_random (world s)) = draws (np_random w)
                 /\ added_blocks s = 0 /\ added_centrality s = 0
                 /\ log (world s) = log w)
              _ _ _ _ E _).
    - intros s0 idx s1 _ Hc (P1 & P2 & P3 & P4 & P5).
      apply zero_probabilities_cell in Hc.
      + destruct Hc as (C1 & C2 & C3 & C4 & C5).
        split; [congruence|]. split; [congruence|]. split; [congruence|].
        split; congruence.
      + rewrite P1. exact Hb.
      + rewrite P1. exact Hn.
      + rewrite P1. exact Hi.
      + rewrite P2. exact Hd.
    - cbn. auto. }
  destruct HP as (P1 & _ & P3 & P4 & P5).
  split; [exact P1|]. rewrite P1. cbn. split; [auto|].
  unfold logger_info. cbn. rewrite P3, P4, P5, <- app_assoc. reflexivity.
Qed.

End StepAccounts.

Lemma growth_step_prints_in_step_14_only_witness :
  exists (L : @Land Concrete.numpy_rasterio) w r L' w',
    iter_land_isobenefit L w = Ok (r, L', w')
    /\ iters L' = iters L + 1
    /\ (iters L + 1 <> 14 -> stdout w' = stdout w).
Proof.
  assert (H : is_ok (first_step (strip4_args (6 # 10)) fresh_world) = true)
    by (vm_compute; reflexivity).
  destruct (is_ok_inv _ H) as [[[r L'] w'] E].
  destruct (first_step_inv _ _ _ _ _ E) as (L & w & E0 & E1).
  exists L, w, r, L', w'. split; [exact E1|].
  exact (growth_step_prints_in_step_14_only L w r L' w' E1).
Defined.

Lemma growth_step_draws_witness :
  exists (L : @Land Concrete.numpy_rasterio) w r L' w',
    iter_land_isobenefit L w = Ok (r, L', w')
    /\ draws (np_random w') = draws (np_random w)
    /\ draws (nb_random w') = draws (nb_random w).
Proof.
  assert (H : is_ok (first_step (strip4_args (6 # 10)) fresh_world) = true)
    by (vm_compute; reflexivity).
  destruct (is_ok_inv _ H) as [[[r L'] w'] E].
  destruct (first_step_inv _ _ _ _ _ E) as (L & w & E0 & E1).
  exists L, w, r, L', w'. split; [exact E1|].
  destruct (growth_step_draws L w r L' w' E1) as (D1 & D2 & _).
  split; [exact D1|exact D2].
Defined.

Lemma growth_scan_returns_witness :
  exists (L : @Land Concrete.numpy_rasterio) w,
    Land_init (strip4_args (6 # 10)) fresh_world = Ok (L, w)
    /\ walk_dist_m L <> 0 /\ granularity_m L <> 0
    /\ exists s',
         for_each (iter_cell (full (1, 4) 5) 0) (mk_scan L w 0 0)
           (ndindex (state_arr L)) = Ok s'
         /\ walk_dist_m (self s') = walk_dist_m L
         /\ granularity_m (self s') = granularity_m L.
Proof.
  assert (H : is_ok (Land_init (strip4_args (6 # 10)) fresh_world) = true)
    by (vm_compute; reflexivity).
  destruct (is_ok_inv _ H) as [[L w] E].
  destruct (Land_init_fields _ _ _ _ E) as (Hg & Hw & _).
  assert (Hw0 : walk_dist_m L <> 0) by (rewrite Hw; discriminate).
  assert (Hg0 : granularity_m L <> 0) by (rewrite Hg; discriminate).
  exists L, w. split; [exact E|]. split; [exact Hw0|]. split; [exact Hg0|].
  exact (growth_scan_returns (full (1, 4) 5) 0 (mk_scan L w 0 0) Hw0 Hg0).
Defined.

Lemma zero_probabilities_freeze_witness :
  exists (L : @Land Concrete.numpy_rasterio) w0 r L' w',
    Land_init (strip4_args 0) fresh_world = Ok (L, w0)
    /\ (build_prob L <= 0)%Q /\ (cent_prob_nb L <= 0)%Q /\ (cent_prob_isol L <= 0)%Q
    /\ (forall k, 0 <= draws (np_random fresh_world) k)%Q
    /\ iter_land_isobenefit L fresh_world = Ok (r, L', w')
    /\ state_arr L' = state_arr L
    /\ log w' = log fresh_world ++ [("added blocks: "%string, 0);
                                    ("added centralities: "%string, 0)].
Proof.
  assert (H : is_ok (Land_init (strip4_args 0) fresh_world) = true)
    by (vm_compute; reflexivity).
  destruct (is_ok_inv _ H) as [[L w0] E].
  destruct (Land_init_fields _ _ _ _ E) as (Hg & Hw & _).
  assert (Hw0 : walk_dist_m L <> 0) by (rewrite Hw; discriminate).
  assert (Hg0 : granularity_m L <> 0) by (rewrite Hg; discriminate).
  destruct (iter_land_isobenefit_returns L fresh_world Hw0 Hg0)
    as (r & L' & w' & E1 & _).
  assert (Hp : (build_prob L <= 0)%Q /\ (cent_prob_nb L <= 0)%Q
               /\ (cent_prob_isol L <= 0)%Q).
  { destruct (Land_init_inv _ _ _ _ E)
      as (_ & st & itx & acc & cent & _ & _ & _ & -> & _).
    cbn. repeat split; discriminate. }
  destruct Hp as (P1 & P2 & P3).
  assert (Hd : forall k : nat, (0 <= draws (np_random fresh_world) k)%Q)
    by (intro k; cbn; discriminate).
  exists L, w0, r, L', w'.
  split; [exact E|]. split; [exact P1|]. split; [exact P2|]. split; [exact P3|].
  split; [exact Hd|]. split; [exact E1|].
  destruct (zero_probabilities_freeze L fresh_world r L' w' P1 P2 P3 Hd E1)
    as (_ & (S1 & _) & Hl).
  split; [exact S1|exact Hl].
Defined.

(** ** The green state off the frontier *)

(** X28. For a walking radius other than zero, [_green_state] on a cell of
    the array that is not marked 1 always succeeds: nothing is taken off the
    surface, so no cell can lose its access to green space.  The mark of the
    cell stays as it was and no value of the surface goes down. *)
Theorem green_state_off_frontier_succeeds :
  forall (y x : Z) (state itx : ndarray Z) (acc : ndarray Q) (g walk : Z),
    walk <> 0 -> in_bounds itx y x -> getitem itx y x <> 1 ->
    exists itx' acc',
      _green_state y x state itx acc g walk = Ok (true, itx', acc')
      /\ getitem itx' y x = getitem itx y x
      /\ forall cy cx, in_bounds acc cy cx ->
           (getitem acc cy cx <= getitem acc' cy cx)%Q.
Proof.
  intros y x state itx acc g walk Hw Hb H1.
  destruct (green_state_work_spec y x state itx acc g walk Hw Hb)
    as (itx_w & new & Hrun & _ & _ & Hyx & _ & _ & _ & Hmono).
  specialize (Hmono H1).
  unfold _green_state. rewrite Hrun. cbn [bind].
  destruct (strands acc new) eqn:E.
  - exfalso. apply strands_iff in E.
    destruct E as (cy & cx & Hbc & Hd & _).
    specialize (Hmono cy cx Hbc). unfold getitem in Hd. lra.
  - exists itx_w, new. split; [reflexivity|]. split; [|exact Hmono].
    unfold getitem in *. rewrite Hyx.
    destruct (Z.eqb_spec (item itx y x) 1); [contradiction|reflexivity].
Qed.

Lemma green_state_off_frontier_succeeds_witness :
  100 <> 0 /\ in_bounds strip3_itx 0 2 /\ getitem strip3_itx 0 2 <> 1
  /\ exists itx' acc',
       _green_state 0 2 strip3_state strip3_itx strip3_acc 100 100
       = Ok (true, itx', acc')
       /\ getitem itx' 0 2 = getitem strip3_itx 0 2.
Proof.
  assert (Hw : 100 <> 0) by lia.
  assert (Hb : in_bounds strip3_itx 0 2) by (unfold in_bounds; simpl; lia).
  assert (H1 : getitem strip3_itx 0 2 <> 1) by (vm_compute; discriminate).
  split; [exact Hw|]. split; [exact Hb|]. split; [exact H1|].
  destruct (green_state_off_frontier_succeeds 0 2 strip3_state strip3_itx
              strip3_acc 100 100 Hw Hb H1) as (itx' & acc' & E & K & _).
  exists itx', acc'. split; [exact E|exact K].
Defined.

(** ** Developed cells *)

Section Developed.

Context {ext : Externals}.

(** X29. On an engine that was constructed and driven through any number
    of growth steps, a cell that is not nature keeps its density (and its
    class) through any further number of growth steps: a density, once
    given, is never drawn again. *)
Theorem developed_cells_keep_density :
  forall (a : LandArgs) (w : World) (L0 : Land) (w0 : World)
         (n : nat) (L : Land) (w1 : World)
         (m : nat) (L' : Land) (w2 : World),
    Land_init a w = Ok (L0, w0) ->
    drive n L0 w0 = Ok (L, w1) ->
    drive m L w1 = Ok (L', w2) ->
    forall cy cx,
      getitem (state_arr L) cy cx <> 0 ->
      getitem (density_arr L') cy cx = getitem (density_arr L) cy cx
      /\ getitem (state_arr L') cy cx = getitem (state_arr L) cy cx.
Proof.
  intros a w L0 w0 n L w1 m L' w2 Hinit Hn Hm.
  assert (HnL : frontier_is_nature (state_arr L) (green_itx_arr L)).
  { apply (drive_visits n L0 w0 L w1 Hn).
    exact (Land_init_nature a w L0 w0 Hinit). }
  refine (proj2 (drive_invariant
            (fun L2 => frontier_is_nature (state_arr L2) (green_itx_arr L2)
                       /\ forall cy cx,
                            getitem (state_arr L) cy cx <> 0 ->
                            getitem (density_arr L2) cy cx
                            = getitem (density_arr L) cy cx
                            /\ getitem (state_arr L2) cy cx
                               = getitem (state_arr L) cy cx)
            _ _ m L w1 L' w2 Hm _)).
  - intros L1 y x L2 _ (Hnat & Hk) U.
    destruct (cell_update_nature _ _ _ _ U Hnat) as (H0 & Hnat').
    split; [exact Hnat'|]. intros cy cx Hc.
    destruct (Hk cy cx Hc) as (Kd & Ks).
    assert (Hne : (cy, cx) <> (y, x)).
    { intro Eq. inversion Eq; subst. congruence. }
    destruct U as (_ & b & itx & acc & _ & Hcase).
    destruct Hcase as [(_ & ->)|(_ & d & _ & [->|(c & _ & ->)])];
      cbn [state_arr density_arr set_green set_state_arr set_density_arr
           set_cent_acc_arr];
      unfold getitem in *; rewrite ?item_setitem_other by assumption;
      split; assumption.
  - intros L1 HP1. exact HP1.
  - split; [exact HnL|]. auto.
Qed.

End Developed.

Lemma developed_cells_keep_density_witness :
  exists L0 w0 L' w2,
    Land_init (strip4_args (6 # 10)) fresh_world = Ok (L0, w0)
    /\ drive 0 L0 w0 = Ok (L0, w0)
    /\ drive 1 L0 w0 = Ok (L', w2)
    /\ forall cy cx,
         getitem (state_arr L0) cy cx <> 0 ->
         getitem (density_arr L') cy cx = getitem (density_arr L0) cy cx
         /\ getitem (state_arr L') cy cx = getitem (state_arr L0) cy cx.
Proof.
  assert (H : is_ok (engine_run (strip4_args (6 # 10)) 1 fresh_world) = true)
    by (vm_compute; reflexivity).
  destruct (is_ok_inv _ H) as [[L' w2] E].
  destruct (engine_run_inv _ _ _ _ _ E) as (L0 & w0 & E0 & E1).
  exists L0, w0, L', w2.
  split; [exact E0|]. split; [reflexivity|]. split; [exact E1|].
  exact (developed_cells_keep_density (strip4_args (6 # 10)) fresh_world L0 w0
           0 L0 w0 1 L' w2 E0 eq_refl E1).
Defined.

(** ** The span test and the cell itself *)

Lemma green_ray_loop_ext (l l' : list Z) :
  len l = len l' ->
  forall (idxs : list Z) (ray : Z),
    (forall i, In i idxs -> nth (Z.to_nat i) l 0 = nth (Z.to_nat i) l' 0) ->
    green_ray_loop l idxs ray = green_ray_loop l' idxs ray.
Proof.
  intros Hlen. induction idxs as [|i idxs IH]; intros ray H; [reflexivity|].
  cbn [green_ray_loop]. rewrite Hlen, (H i) by now left.
  destruct (i =? len l'); [reflexivity|].
  destruct (negb _); [reflexivity|].
  apply IH. intros j Hj. apply H. now right.
Qed.

Lemma nth_map_seq (f : nat -> Z) (N k : nat) :
  nth k (map f (seq 0 N)) 0 = if (k <? N)%nat then f k else 0.
Proof.
  destruct (Nat.ltb_spec k N) as [Hlt|Hge].
  - rewrite (nth_indep _ 0 (f 0%nat)) by (rewrite length_map, length_seq; exact Hlt).
    rewrite map_nth, seq_nth by exact Hlt. reflexivity.
  - apply nth_overflow. rewrite length_map, length_seq. exact Hge.
Qed.

Lemma nth_row_of (arr : ndarray Z) (y : Z) (k : nat) :
  nth k (row_of arr y) 0
  = if (k <? Z.to_nat (shape1 arr))%nat then item arr y (Z.of_nat k) else 0.
Proof.
  unfold row_of, range. rewrite map_map. apply nth_map_seq.
Qed.

Lemma nth_col_of (arr : ndarray Z) (x : Z) (k : nat) :
  nth k (col_of arr x) 0
  = if (k <? Z.to_nat (shape0 arr))%nat then item arr (Z.of_nat k) x else 0.
Proof.
  unfold col_of, range. rewrite map_map. apply nth_map_seq.
Qed.

Lemma in_py_range (start stop i : Z) :
  In i (py_range start stop) -> start <= i < stop.
Proof.
  unfold py_range. intro H. apply in_map_iff in H.
  destruct H as (k & <- & Hk). apply in_seq in Hk. lia.
Qed.

Lemma in_py_range_down (start i : Z) :
  In i (py_range_down start) -> 0 <= i <= start.
Proof.
  unfold py_range_down. intro H. apply in_map_iff in H.
  destruct H as (k & <- & Hk). apply in_seq in Hk. lia.
Qed.

Lemma green_ray_ext (l l' : list Z) (start : Z) (positive : bool) :
  len l = len l' -> 0 <= start ->
  (forall i, 0 <= i -> i <> start ->
             nth (Z.to_nat i) l 0 = nth (Z.to_nat i) l' 0) ->
  green_ray l start positive = green_ray l' start positive.
Proof.
  intros Hlen Hs H. unfold green_ray. rewrite Hlen.
  apply green_ray_loop_ext; [exact Hlen|].
  intros i Hi. destruct positive.
  - apply in_py_range in Hi. apply H; lia.
  - apply in_py_range_down in Hi. apply H; lia.
Qed.

Lemma rays_of_setitem (arr : ndarray Z) (y x v : Z) :
  in_bounds arr y x -> rays_of (setitem arr y x v) y x = rays_of arr y x.
Proof.
  intros [Hy Hx]. unfold rays_of.
  assert (R : forall p, green_ray (row_of (setitem arr y x v) y) x p
                        = green_ray (row_of arr y) x p).
  { intro p. apply green_ray_ext; [|lia|].
    - unfold len, row_of. now rewrite !length_map.
    - intros i Hi Hne. rewrite !nth_row_of. cbn [setitem shape1 item].
      destruct (_ <? _)%nat; [|reflexivity].
      rewrite Z2Nat.id by exact Hi.
      destruct (Z.eqb_spec i x); [contradiction|].
      now rewrite andb_false_r. }
  assert (C : forall p, green_ray (col_of (setitem arr y x v) x) y p
                        = green_ray (col_of arr x) y p).
  { intro p. apply green_ray_ext; [|lia|].
    - unfold len, col_of. now rewrite !length_map.
    - intros i Hi Hne. rewrite !nth_col_of. cbn [setitem shape0 item].
      destruct (_ <? _)%nat; [|reflexivity].
      rewrite Z2Nat.id by exact Hi.
      destruct (Z.eqb_spec i y); [contradiction|]. reflexivity. }
  now rewrite !R, !C.
Qed.

(** X30. [green_rays] does not read the cell it tests: on a grid that
    differs from another one in the class of that cell only, it returns what
    it returns on the other. *)
Theorem green_rays_ignores_cell :
  forall (arr : ndarray Z) (y x v g min_long min_short : Z),
    in_bounds arr y x ->
    green_rays (setitem arr y x v) y x g min_long min_short
    = green_rays arr y x g min_long min_short.
Proof.
  intros arr y x v g ml ms Hb. unfold green_rays.
  now rewrite (rays_of_setitem arr y x v Hb).
Qed.

Lemma green_rays_ignores_cell_witness :
  in_bounds grid_one_cell_each_side 1 1
  /\ green_rays (setitem grid_one_cell_each_side 1 1 2) 1 1 100 500 100
     = green_rays grid_one_cell_each_side 1 1 100 500 100.
Proof.
  assert (Hb : in_bounds grid_one_cell_each_side 1 1)
    by (unfold in_bounds; simpl; lia).
  split; [exact Hb|].
  exact (green_rays_ignores_cell grid_one_cell_each_side 1 1 2 100 500 100 Hb).
Defined.
